(** * Lavaflow: a shallow embedding of the node scorer, the node registry,
    the reconnection and heartbeat logic, the autoplay engine and the
    track-end handler, with the properties the specification states
    about them.

    Conventions of the embedding.
    - A JavaScript [number] is an IEEE-754 binary64 value, embedded as a
      primitive [float]; [Infinity] is [infinity], and every arithmetic
      step rounds exactly as the program's does.
    - A [Map<string, T>] iterates in insertion order, so it is an
      association list: [set] on a new key appends, [delete] removes.
    - A [Set<string>] iterates in insertion order too and is a
      duplicate-free list.
    - Asynchronous calls are run to completion one after another; what
      the outside world answers (socket outcome, REST reply, random
      draw, clock) is an explicit argument.
    - A thrown exception is the [Throw] case of [Result].
    - A (well-formed) string is embedded by its UTF-8 bytes, so an
      ASCII string is itself. What [toLowerCase] does to characters
      outside ASCII is given by the Unicode case tables of the
      platform, which are no part of the program: the embedding takes
      the method as a parameter, the class [JS.Unicode], fixed on ASCII
      strings. *)

From Stdlib Require Import List String Ascii ZArith Bool Lia QArith Lqa Floats.
Import ListNotations.

Set Implicit Arguments.

(** ** JavaScript values *)

Module JS.

Definition number := float.

Definition Infinity : number := infinity.

(** The literal [0.8]: the binary64 value nearest to 8/10. *)
Definition lit_0_8 : number := 0x1.999999999999ap-1%float.

(** [a > b] on numbers is [b < a]; false when either side is NaN. *)
Definition gt (a b : number) : bool := PrimFloat.ltb b a.

Definition lt (a b : number) : bool := PrimFloat.ltb a b.

(** A number other than NaN: the only value that differs from itself. *)
Definition is_number (a : number) : bool := PrimFloat.eqb a a.

(** Truthiness of a string: every string but the empty one. *)
Definition truthy (s : string) : bool :=
  match s with
  | EmptyString => false
  | String _ _ => true
  end.

(** Truthiness of [string | null | undefined]. *)
Definition truthy_opt (s : option string) : bool :=
  match s with
  | Some s' => truthy s'
  | None => false
  end.

(** [a || b] on [string | null]: the first truthy operand, else [b]. *)
Definition or_else (a : string) (b : option string) : option string :=
  if truthy a then Some a else b.

(** An outcome of a call that may throw. *)
Inductive Result (E A : Type) : Type :=
| Ok (a : A)
| Throw (e : E).

Arguments Ok {E A} a.
Arguments Throw {E A} e.

(** Lower-casing of an ASCII character: the letters A to Z (codes 65 to
    90) go to a to z, every other character stays. *)
Definition lower_ascii (c : ascii) : ascii :=
  let n := nat_of_ascii c in
  if andb (Nat.leb 65 n) (Nat.leb n 90) then ascii_of_nat (n + 32) else c.

(** Lower-casing of an ASCII string, character by character. *)
Fixpoint asciiLowerCase (s : string) : string :=
  match s with
  | EmptyString => EmptyString
  | String c s' => String (lower_ascii c) (asciiLowerCase s')
  end.

(** A string of ASCII characters only (codes below 128). *)
Fixpoint ascii_only (s : string) : bool :=
  match s with
  | EmptyString => true
  | String c s' => Nat.ltb (nat_of_ascii c) 128 && ascii_only s'
  end.

(** [String.prototype.toLowerCase]. On an ASCII string it lower-cases
    the letters A to Z and changes nothing else; on other strings it
    follows the Unicode case tables of the platform, which the
    embedding does not contain: the method is a parameter, of which
    only its action on ASCII strings is fixed. *)
Class Unicode : Type := {
  toLowerCase : string -> string;
  toLowerCase_ascii :
    forall s, ascii_only s = true -> toLowerCase s = asciiLowerCase s
}.

(** [s.replace(/[-_]/g, '')]: every hyphen and underscore removed. *)
Fixpoint strip_separators (s : string) : string :=
  match s with
  | EmptyString => EmptyString
  | String c s' =>
      if orb (Ascii.eqb c "-"%char) (Ascii.eqb c "_"%char)
      then strip_separators s'
      else String c (strip_separators s')
  end.

(** [hay.includes(needle)]: [needle] occurs in [hay] as a contiguous run. *)
Fixpoint includes (hay needle : string) : bool :=
  orb (String.prefix needle hay)
      match hay with
      | EmptyString => false
      | String _ hay' => includes hay' needle
      end.

End JS.

(** ** utils/backoff: [ExponentialBackoff] *)

Module ExponentialBackoff.

Local Open Scope Q_scope.

Record t : Type := mk {
  baseDelay : Q;
  maxDelay : Q;
  maxAttempts : Z;
  jitter : Q;
  attempt : nat
}.

(** Modelled from the spec: the constructor of [ExponentialBackoff]
    (utils/backoff is not among the source files); a fresh counter
    starts at attempt 0. *)
Definition create (base max : Q) (attempts : Z) (jit : Q) : t :=
  mk base max attempts jit 0.

(** Modelled from the spec: "base delay x 2^attempt". *)
Definition exponential (b : t) (k : nat) : Q :=
  baseDelay b * inject_Z (2 ^ Z.of_nat k).

(** Modelled from the spec: "capped at a maximum delay". *)
Definition cap (b : t) (d : Q) : Q :=
  if Qle_bool d (maxDelay b) then d else maxDelay b.

(** Modelled from the spec: the delay of attempt [k] before jitter,
    "base delay x 2^attempt, capped at a maximum delay". *)
Definition nominal (b : t) (k : nat) : Q := cap b (exponential b k).

(** A random draw of the jitter lies between -1 and 1. *)
Definition in_range (r : Q) : Prop := -1 <= r /\ r <= 1.

(** Modelled from the spec: the delay of attempt [k] with its random
    draw [r] in [-1, 1]: "+-20% random jitter" scales the capped delay
    by a factor between [1 - jitter] and [1 + jitter]. *)
Definition jittered (b : t) (k : nat) (r : Q) : Q :=
  nominal b k * (1 + jitter b * r).

(** Modelled from the spec: the other order the words allow, the
    jitter applied to the exponential delay and the cap after it. The
    backoff above does not use it; the delays are shown non-decreasing
    under this order too. *)
Definition jittered_then_capped (b : t) (k : nat) (r : Q) : Q :=
  cap b (exponential b k * (1 + jitter b * r)).

(** Modelled from the spec: [next()] returns the delay of the current
    attempt and advances the counter. *)
Definition next (b : t) (r : Q) : Q * t :=
  (jittered b (attempt b) r,
   mk (baseDelay b) (maxDelay b) (maxAttempts b) (jitter b) (S (attempt b))).

(** Modelled from the spec: [reset()] puts the counter back to 0, so
    the next delay is the base delay again. *)
Definition reset (b : t) : t :=
  mk (baseDelay b) (maxDelay b) (maxAttempts b) (jitter b) 0.

(** Modelled from the spec: [getAttempt()]. *)
Definition getAttempt (b : t) : nat := attempt b.

(** Modelled from the spec: reconnection "is abandoned once attempts
    exceed the configured maximum". *)
Definition hasReachedMaxAttempts (b : t) : bool :=
  (maxAttempts b <=? Z.of_nat (attempt b))%Z.

(** The delays of [n] consecutive [next()] calls, one random draw each. *)
Fixpoint delays (b : t) (rs : list Q) : list Q :=
  match rs with
  | [] => []
  | r :: rs' => let (d, b') := next b r in d :: delays b' rs'
  end.

End ExponentialBackoff.

(** ** nodes/Node: one backend connection *)

Module Node.

Import JS.

Inductive NodeState : Type :=
| DISCONNECTED
| CONNECTING
| CONNECTED
| RECONNECTING.

(** [readyState] of the underlying socket. *)
Inductive ReadyState : Type :=
| WS_CONNECTING
| WS_OPEN
| WS_CLOSING
| WS_CLOSED.

(** The socket the node holds: its ready state and, once [close(code,
    reason)] was called on it, the code and reason it was closed with. *)
Record WebSocket : Type := mkWebSocket {
  readyState : ReadyState;
  closeCall : option (Z * string)
}.

Record MemoryStats : Type := mkMemoryStats {
  free : number;
  used : number;
  allocated : number;
  reservable : number
}.

Record CpuStats : Type := mkCpuStats {
  cores : number;
  systemLoad : number;
  lavalinkLoad : number
}.

Record FrameStats : Type := mkFrameStats {
  sent : number;
  nulled : number;
  deficit : number
}.

Record NodeStats : Type := mkNodeStats {
  players : number;
  playingPlayers : number;
  uptime : number;
  memory : MemoryStats;
  cpu : CpuStats;
  frameStats : option FrameStats
}.

(** [NodeOptions] as the caller gives them; the fields of the transport
    (host, port, password, secure, resumeKey, retryStrategy) play no part
    in what follows and are left out. *)
Record NodeOptions : Type := mkNodeOptions {
  name : string;
  resumeTimeout : option Z;
  maxReconnectAttempts : option Z;
  reconnectDelay : option Z;
  region : option string
}.

(** [Required<NodeOptions>]: the options after the constructor's defaults. *)
Record Options : Type := mkOptions {
  opt_name : string;
  opt_resumeTimeout : Z;
  opt_maxReconnectAttempts : Z;
  opt_reconnectDelay : Z;
  opt_region : option string
}.

(** What the node reported to its registered handlers, oldest first. *)
Inductive Emitted : Type :=
| OnConnect
| OnDisconnect (code : Z) (reason : string)
| OnError (message : string)
| OnReconnecting (attempt : nat)
| OnPlayerUpdate (guildId : string)
| OnStats (s : NodeStats).

Record t : Type := mk {
  options : Options;
  state : NodeState;
  stats : option NodeStats;
  sessionId : option string;
  ws : option WebSocket;
  backoff : ExponentialBackoff.t;
  reconnectTimeout : option Q;
  lastHeartbeat : Z;
  heartbeatInterval : option Z;
  emitted : list Emitted
}.

Definition default {A : Type} (o : option A) (d : A) : A :=
  match o with
  | Some a => a
  | None => d
  end.

(** [constructor(options)]. *)
Definition create (o : NodeOptions) : t :=
  let opts :=
    mkOptions (name o)
              (default (resumeTimeout o) 60%Z)
              (default (maxReconnectAttempts o) 3%Z)
              (default (reconnectDelay o) 5000%Z)
              (region o) in
  mk opts DISCONNECTED None None None
     (ExponentialBackoff.create (inject_Z (opt_reconnectDelay opts))
                                (inject_Z 60000)
                                (opt_maxReconnectAttempts opts)
                                (2 # 10))
     None 0%Z None [].

Definition set_state (n : t) (s : NodeState) : t :=
  mk (options n) s (stats n) (sessionId n) (ws n) (backoff n)
     (reconnectTimeout n) (lastHeartbeat n) (heartbeatInterval n) (emitted n).

Definition set_stats (n : t) (s : option NodeStats) : t :=
  mk (options n) (state n) s (sessionId n) (ws n) (backoff n)
     (reconnectTimeout n) (lastHeartbeat n) (heartbeatInterval n) (emitted n).

Definition set_ws (n : t) (w : option WebSocket) : t :=
  mk (options n) (state n) (stats n) (sessionId n) w (backoff n)
     (reconnectTimeout n) (lastHeartbeat n) (heartbeatInterval n) (emitted n).

Definition set_backoff (n : t) (b : ExponentialBackoff.t) : t :=
  mk (options n) (state n) (stats n) (sessionId n) (ws n) b
     (reconnectTimeout n) (lastHeartbeat n) (heartbeatInterval n) (emitted n).

Definition set_reconnectTimeout (n : t) (d : option Q) : t :=
  mk (options n) (state n) (stats n) (sessionId n) (ws n) (backoff n)
     d (lastHeartbeat n) (heartbeatInterval n) (emitted n).

Definition set_lastHeartbeat (n : t) (now : Z) : t :=
  mk (options n) (state n) (stats n) (sessionId n) (ws n) (backoff n)
     (reconnectTimeout n) now (heartbeatInterval n) (emitted n).

Definition set_heartbeatInterval (n : t) (i : option Z) : t :=
  mk (options n) (state n) (stats n) (sessionId n) (ws n) (backoff n)
     (reconnectTimeout n) (lastHeartbeat n) i (emitted n).

(** [this.eventHandlers.onX?.(...)]: the call is recorded. *)
Definition emit (n : t) (e : Emitted) : t :=
  mk (options n) (state n) (stats n) (sessionId n) (ws n) (backoff n)
     (reconnectTimeout n) (lastHeartbeat n) (heartbeatInterval n)
     (emitted n ++ [e]).

Definition state_eqb (a b : NodeState) : bool :=
  match a, b with
  | DISCONNECTED, DISCONNECTED
  | CONNECTING, CONNECTING
  | CONNECTED, CONNECTED
  | RECONNECTING, RECONNECTING => true
  | _, _ => false
  end.

Definition is_open (w : option WebSocket) : bool :=
  match w with
  | Some s => match readyState s with WS_OPEN => true | _ => false end
  | None => false
  end.

(** [isConnected()]:
    [state === CONNECTED && ws?.readyState === WebSocket.OPEN]. *)
Definition isConnected (n : t) : bool :=
  state_eqb (state n) CONNECTED && is_open (ws n).

Local Open Scope float_scope.

(** [getPenalty()]: the running total [penalty] is threaded through the
    statements in program order. *)
Definition getPenalty (n : t) : number :=
  match isConnected n, stats n with
  | true, Some s =>
      let penalty := 0 in
      let penalty := penalty + players s in
      let penalty := penalty + playingPlayers s * 2 in
      let penalty :=
        if gt (cores (cpu s)) 0
        then penalty + (lavalinkLoad (cpu s) / cores (cpu s)) * 100
        else penalty in
      let memoryUsageRatio := used (memory s) / allocated (memory s) in
      let penalty :=
        if gt memoryUsageRatio lit_0_8
        then penalty + (memoryUsageRatio - lit_0_8) * 500
        else penalty in
      let penalty :=
        match frameStats s with
        | Some f =>
            let penalty := penalty + deficit f * 2 in
            penalty + nulled f
        | None => penalty
        end in
      penalty
  | _, _ => Infinity
  end.

Record PenaltyDetails : Type := mkPenaltyDetails {
  total : number;
  d_players : number;
  d_playingPlayers : number;
  d_cpu : number;
  d_memory : number;
  d_frames : number
}.

(** [getPenaltyDetails()]. *)
Definition getPenaltyDetails (n : t) : PenaltyDetails :=
  match isConnected n, stats n with
  | true, Some s =>
      let playersPenalty := players s in
      let playingPlayersPenalty := playingPlayers s * 2 in
      let cpuPenalty :=
        if gt (cores (cpu s)) 0
        then (lavalinkLoad (cpu s) / cores (cpu s)) * 100
        else 0 in
      let memoryUsageRatio := used (memory s) / allocated (memory s) in
      let memoryPenalty :=
        if gt memoryUsageRatio lit_0_8
        then (memoryUsageRatio - lit_0_8) * 500
        else 0 in
      let framesPenalty :=
        match frameStats s with
        | Some f => deficit f * 2 + nulled f
        | None => 0
        end in
      let total :=
        playersPenalty + playingPlayersPenalty + cpuPenalty
        + memoryPenalty + framesPenalty in
      mkPenaltyDetails total playersPenalty playingPlayersPenalty
                       cpuPenalty memoryPenalty framesPenalty
  | _, _ => mkPenaltyDetails Infinity 0 0 0 0 0
  end.

Local Close Scope float_scope.

(** *** Socket lifecycle and heartbeat *)

(** The heartbeat monitor's period and liveness timeout, in milliseconds. *)
Definition HEARTBEAT_PERIOD : Z := 15000.

Definition HEARTBEAT_TIMEOUT : Z := 60000.

Definition NORMAL_CLOSURE : Z := 1000.

Definition HEARTBEAT_CLOSE_CODE : Z := 4000.

(** [startHeartbeat()]: [setInterval(check, 15000)]. *)
Definition startHeartbeat (n : t) : t :=
  set_heartbeatInterval n (Some HEARTBEAT_PERIOD).

(** [clearHeartbeatInterval()]. *)
Definition clearHeartbeatInterval (n : t) : t :=
  match heartbeatInterval n with
  | Some _ => set_heartbeatInterval n None
  | None => n
  end.

(** [clearReconnectTimeout()]. *)
Definition clearReconnectTimeout (n : t) : t :=
  match reconnectTimeout n with
  | Some _ => set_reconnectTimeout n None
  | None => n
  end.

(** [this.ws?.close(code, reason)]: the socket starts closing and
    remembers the code it was closed with. *)
Definition ws_close (n : t) (code : Z) (reason : string) : t :=
  match ws n with
  | Some _ => set_ws n (Some (mkWebSocket WS_CLOSING (Some (code, reason))))
  | None => n
  end.

(** [onOpen()], run at clock time [now]. *)
Definition onOpen (now : Z) (n : t) : t :=
  let n := set_state n CONNECTED in
  let n := set_backoff n (ExponentialBackoff.reset (backoff n)) in
  let n := set_lastHeartbeat n now in
  let n := startHeartbeat n in
  emit n OnConnect.

(** [handlePlayerUpdateEvent(event)], run at clock time [now]. *)
Definition handlePlayerUpdateEvent (now : Z) (guildId : string) (n : t) : t :=
  let n := set_lastHeartbeat n now in
  emit n (OnPlayerUpdate guildId).

(** [handleStatsEvent(event)]. *)
Definition handleStatsEvent (s : NodeStats) (n : t) : t :=
  let n := set_stats n (Some s) in
  emit n (OnStats s).

(** The callback [startHeartbeat] installs, run at clock time [now]. *)
Definition heartbeatCheck (now : Z) (n : t) : t :=
  let timeSinceLastHeartbeat := (now - lastHeartbeat n)%Z in
  if (HEARTBEAT_TIMEOUT <? timeSinceLastHeartbeat)%Z
  then
    let n := emit n (OnError "Heartbeat timeout") in
    ws_close n HEARTBEAT_CLOSE_CODE "Heartbeat timeout"
  else n.

(** One firing of the interval timer: nothing runs once it is cleared. *)
Definition heartbeatTick (now : Z) (n : t) : t :=
  match heartbeatInterval n with
  | Some _ => heartbeatCheck now n
  | None => n
  end.

(** [scheduleReconnect()]; [r] is the random draw of the backoff's jitter. *)
Definition scheduleReconnect (r : Q) (n : t) : t :=
  if ExponentialBackoff.hasReachedMaxAttempts (backoff n)
  then emit n (OnError "Max reconnection attempts reached")
  else
    let n := set_state n RECONNECTING in
    let (delay, b) := ExponentialBackoff.next (backoff n) r in
    let n := set_backoff n b in
    let attempt := ExponentialBackoff.getAttempt (backoff n) in
    let n := emit n (OnReconnecting attempt) in
    set_reconnectTimeout n (Some delay).

(** [onClose(code, reason)]. *)
Definition onClose (code : Z) (reason : string) (r : Q) (n : t) : t :=
  let n := set_state n DISCONNECTED in
  let n := clearHeartbeatInterval n in
  let n := emit n (OnDisconnect code reason) in
  if negb (code =? NORMAL_CLOSURE)%Z
     && negb (opt_maxReconnectAttempts (options n) =? 0)%Z
  then scheduleReconnect r n
  else n.

(** The socket's [open] event: the socket is open when [onOpen] runs. *)
Definition socketOpened (now : Z) (n : t) : t :=
  onOpen now (set_ws n (Some (mkWebSocket WS_OPEN None))).

(** The socket's [close] event: the socket is closed when [onClose] runs. *)
Definition socketClosed (code : Z) (reason : string) (r : Q) (n : t) : t :=
  let w :=
    match ws n with
    | Some s => Some (mkWebSocket WS_CLOSED (closeCall s))
    | None => None
    end in
  onClose code reason r (set_ws n w).

(** The [close] event that ends a closing handshake this side started:
    the peer echoes the code the socket was closed with. *)
Definition closeHandshakeDone (r : Q) (n : t) : t :=
  match ws n with
  | Some (mkWebSocket WS_CLOSING (Some (code, reason))) =>
      socketClosed code reason r n
  | _ => n
  end.

(** [disconnect()]. *)
Definition disconnect (n : t) : t :=
  let n := set_state n DISCONNECTED in
  let n := clearReconnectTimeout n in
  let n := clearHeartbeatInterval n in
  match ws n with
  | Some _ => set_ws n None
  | None => n
  end.

(** What the socket does while [connect] waits: it opens and the wait
    sees the node connected, it closes without having opened, or it
    delivers nothing in time. *)
Inductive SocketOutcome : Type :=
| Opens (now : Z)
| Closes (code : Z) (reason : string) (r : Q)
| Silent.

(** [connect(clientId)] with [waitForConnection(10000)]: resolved once
    the state is CONNECTED, rejected with "Connection failed" once it is
    DISCONNECTED, and with "Connection timeout" when neither happens in
    time. The three outcomes are those of a call during which the
    socket delivers at most one event, on a node that holds no session
    id, as the node [addNode] has just built: no reconnect timer can
    then start a second attempt inside the wait. The call is used on
    such nodes only. *)
Definition connect (outcome : SocketOutcome) (n : t) : Result string unit * t :=
  match state n with
  | DISCONNECTED | RECONNECTING =>
      let n := set_state n CONNECTING in
      let n := set_ws n (Some (mkWebSocket WS_CONNECTING None)) in
      match outcome with
      | Opens now => (Ok tt, socketOpened now n)
      | Closes code reason r =>
          let n := socketClosed code reason r n in
          match state n with
          | DISCONNECTED => (Throw "Connection failed"%string, n)
          | _ => (Throw "Connection timeout"%string, n)
          end
      | Silent => (Throw "Connection timeout"%string, n)
      end
  | CONNECTING => (Throw "Cannot connect when state is CONNECTING"%string, n)
  | CONNECTED => (Throw "Cannot connect when state is CONNECTED"%string, n)
  end.

End Node.

(** ** nodes/NodeManager: the registry of nodes and the selection of the best one *)

Module NodeManager.

Import JS.

Definition PenaltyCalculator : Type := Node.t -> number.

(** The registry [nodes] is a [Map] in insertion order; the event emitter
    only forwards what the nodes report and is left out. *)
Record t : Type := mk {
  nodes : list (string * Node.t);
  clientId : option string;
  customPenaltyCalculator : option PenaltyCalculator
}.

(** [Map.prototype.has]. *)
Definition map_has (k : string) (m : list (string * Node.t)) : bool :=
  existsb (fun e => String.eqb (fst e) k) m.

(** [Map.prototype.get]. *)
Definition map_get (k : string) (m : list (string * Node.t)) : option Node.t :=
  match find (fun e => String.eqb (fst e) k) m with
  | Some e => Some (snd e)
  | None => None
  end.

(** [Map.prototype.set]: a known key keeps its place and takes the new
    value, a new key goes to the end. *)
Fixpoint map_set (k : string) (v : Node.t) (m : list (string * Node.t))
  : list (string * Node.t) :=
  match m with
  | [] => [(k, v)]
  | e :: m' =>
      if String.eqb (fst e) k then (k, v) :: m' else e :: map_set k v m'
  end.

(** [Map.prototype.delete]. *)
Definition map_delete (k : string) (m : list (string * Node.t))
  : list (string * Node.t) :=
  filter (fun e => negb (String.eqb (fst e) k)) m.

Definition set_nodes (nm : t) (m : list (string * Node.t)) : t :=
  mk m (clientId nm) (customPenaltyCalculator nm).

(** The singleton as [getInstance()] first creates it. *)
Definition empty : t := mk [] None None.

(** [init(clientId, eventEmitter)]. *)
Definition init (id : string) (nm : t) : t :=
  mk (nodes nm) (Some id) (customPenaltyCalculator nm).

(** [setPenaltyCalculator(calculator)]. *)
Definition setPenaltyCalculator (f : PenaltyCalculator) (nm : t) : t :=
  mk (nodes nm) (clientId nm) (Some f).

(** [resetPenaltyCalculator()]. *)
Definition resetPenaltyCalculator (nm : t) : t :=
  mk (nodes nm) (clientId nm) None.

(** [addNode(options)]; [outcome] is what the new node's socket does while
    the call awaits [node.connect]. The registry holds the node object
    itself, so it sees the node as [connect] left it. *)
Definition addNode (o : Node.NodeOptions) (outcome : Node.SocketOutcome) (nm : t)
  : Result string Node.t * t :=
  if map_has (Node.name o) (nodes nm)
  then (Throw ("Node with name " ++ Node.name o ++ " already exists")%string, nm)
  else if negb (truthy_opt (clientId nm))
  then (Throw "NodeManager not initialized. Call init() first."%string, nm)
  else
    let node := Node.create o in
    let nm := set_nodes nm (map_set (Node.name o) node (nodes nm)) in
    match Node.connect outcome node with
    | (Ok _, node') =>
        (Ok node', set_nodes nm (map_set (Node.name o) node' (nodes nm)))
    | (Throw error, node') =>
        let nm := set_nodes nm (map_set (Node.name o) node' (nodes nm)) in
        (Throw error, set_nodes nm (map_delete (Node.name o) (nodes nm)))
    end.

(** [removeNode(name)]; the node taken out is disconnected and dropped. *)
Definition removeNode (k : string) (nm : t) : bool * t :=
  match map_get k (nodes nm) with
  | None => (false, nm)
  | Some _ => (true, set_nodes nm (map_delete k (nodes nm)))
  end.

(** [getNodes()]. *)
Definition getNodes (nm : t) : list Node.t := map snd (nodes nm).

(** [getConnectedNodes()]. *)
Definition getConnectedNodes (nm : t) : list Node.t :=
  filter Node.isConnected (getNodes nm).

(** The scorer in force: the custom calculator when one is installed,
    the node's own [getPenalty] otherwise. *)
Definition penaltyFn (nm : t) : PenaltyCalculator :=
  match customPenaltyCalculator nm with
  | Some f => f
  | None => Node.getPenalty
  end.

(** One turn of the scanning loop of [selectBestFromNodes] over the pair
    (bestNode, lowestPenalty). *)
Definition scan_step (f : PenaltyCalculator) (acc : Node.t * number) (node : Node.t)
  : Node.t * number :=
  let penalty := f node in
  if lt penalty (snd acc) then (node, penalty) else acc.

(** [selectBestFromNodes(nodes)]; on an empty array [nodes[0]] is
    [undefined], which is [None] here. The manager only calls it on
    non-empty arrays. *)
Definition selectBestFromNodes (nm : t) (l : list Node.t) : option Node.t :=
  match l with
  | [] => None
  | first :: rest =>
      let f := penaltyFn nm in
      Some (fst (fold_left (scan_step f) rest (first, f first)))
  end.

(** [matchesRegion(nodeRegion, voiceRegion)]. *)
Definition normalize {U : Unicode} (r : string) : string :=
  strip_separators (toLowerCase r).

Definition matchesRegion {U : Unicode} (nodeRegion voiceRegion : string) : bool :=
  includes (normalize nodeRegion) (normalize voiceRegion)
  || includes (normalize voiceRegion) (normalize nodeRegion).

(** The filter of [getBestNode]:
    [node.options.region && this.matchesRegion(node.options.region, voiceRegion)]. *)
Definition inRegion {U : Unicode} (voiceRegion : string) (node : Node.t) : bool :=
  match Node.opt_region (Node.options node) with
  | Some r => truthy r && matchesRegion r voiceRegion
  | None => false
  end.

Definition NO_CONNECTED_NODES : string := "No connected nodes available".

Definition picked (r : option Node.t) : Result string Node.t :=
  match r with
  | Some n => Ok n
  | None => Throw "TypeError: Cannot read properties of undefined"%string
  end.

(** [getBestNode(voiceRegion?)]. *)
Definition getBestNode {U : Unicode} (voiceRegion : option string) (nm : t)
  : Result string Node.t :=
  let connectedNodes := getConnectedNodes nm in
  match connectedNodes with
  | [] => Throw NO_CONNECTED_NODES
  | _ :: _ =>
      let regionalNodes :=
        match voiceRegion with
        | Some v => if truthy v then filter (inRegion v) connectedNodes else []
        | None => []
        end in
      match regionalNodes with
      | _ :: _ => picked (selectBestFromNodes nm regionalNodes)
      | [] => picked (selectBestFromNodes nm connectedNodes)
      end
  end.

End NodeManager.

(** ** types/lavalink: tracks and load results *)

Module Lavalink.

Record TrackInfo : Type := mkTrackInfo {
  identifier : string;
  author : string;
  length : Z;
  title : string;
  uri : option string;
  sourceName : string
}.

Record Track : Type := mkTrack {
  encoded : string;
  info : TrackInfo
}.

Inductive LoadResult : Type :=
| LoadTrack (data : Track)
| LoadPlaylist (tracks : list Track)
| LoadSearch (data : list Track)
| LoadEmpty
| LoadError (message : string).

Inductive TrackEndReason : Type :=
| finished
| loadFailed
| stopped
| replaced
| cleanup.

Definition is_finished (r : TrackEndReason) : bool :=
  match r with
  | finished => true
  | _ => false
  end.

End Lavalink.

(** ** utils/autoplay: the autoplay engine *)

Module AutoPlay.

Import JS Lavalink.

(** The engine's own state: the identifiers it has already played, in
    insertion order, and the bound on their number. The debug lines the
    engine emits are left out. *)
Record t : Type := mk {
  playedIdentifiers : list string;
  maxHistorySize : nat
}.

Definition create : t := mk [] 50.

(** [Set.prototype.has]. *)
Definition set_has (x : string) (s : list string) : bool :=
  existsb (String.eqb x) s.

(** [Set.prototype.add]: a new element goes to the end, a known one
    changes nothing. *)
Definition set_add (x : string) (s : list string) : list string :=
  if set_has x s then s else s ++ [x].

(** [Set.prototype.delete]. *)
Definition set_delete (x : string) (s : list string) : list string :=
  filter (fun y => negb (String.eqb x y)) s.

(** The block "Add to played history" of [execute]. *)
Definition remember (identifier : option string) (a : t) : t :=
  match identifier with
  | Some id =>
      if truthy id then
        let s := set_add id (playedIdentifiers a) in
        if Nat.ltb (maxHistorySize a) (List.length s) then
          match s with
          | firstItem :: _ =>
              if truthy firstItem
              then mk (set_delete firstItem s) (maxHistorySize a)
              else mk s (maxHistorySize a)
          | [] => mk s (maxHistorySize a)
          end
        else mk s (maxHistorySize a)
      else a
  | None => a
  end.

(** [clearHistory()]. *)
Definition clearHistory (a : t) : t := mk [] (maxHistorySize a).

(** [getHistorySize()]. *)
Definition getHistorySize (a : t) : nat := List.length (playedIdentifiers a).

(** [track.info.identifier || track.info.uri]. *)
Definition trackId (tr : Track) : option string :=
  or_else (identifier (info tr)) (uri (info tr)).

(** The predicate of the "already played" filter:
    [trackId && !this.playedIdentifiers.has(trackId)]. *)
Definition fresh (a : t) (tr : Track) : bool :=
  match trackId tr with
  | Some id => truthy id && negb (set_has id (playedIdentifiers a))
  | None => false
  end.

(** The candidates a strategy picks from: the filtered tracks, or all of
    them when the filter leaves none. *)
Definition availableTracks (a : t) (tracks : list Track) : list Track :=
  match filter (fresh a) tracks with
  | [] => tracks
  | tr :: rest => tr :: rest
  end.

(** The engine reaches the player through this interface only; [P] is the
    player. [pick n] is the index [Math.floor(Math.random() * n)] drew;
    it is reduced modulo [n], the draw being below [n]. *)
Record PlayerOps (P : Type) : Type := mkPlayerOps {
  nodeIsConnected : P -> bool;
  search : P -> string -> string -> Result string LoadResult;
  addTrack : Track -> P -> P;
  play : P -> Result string unit * P;
  pick : nat -> nat
}.

Section Strategies.

Variable P : Type.
Variable ops : PlayerOps P.

(** The tail every strategy shares: pick at random, enqueue, play. *)
Definition playRandom (candidates : list Track) (player : P) : Result string bool * P :=
  match candidates with
  | [] => (Ok false, player)
  | first :: _ =>
      let n := List.length candidates in
      let randomTrack := nth (Nat.modulo (pick ops n) n) candidates first in
      let player := addTrack ops randomTrack player in
      match play ops player with
      | (Ok _, player') => (Ok true, player')
      | (Throw e, player') => (Throw e, player')
      end
  end.

(** [handleYouTube(player, previousTrack)]. *)
Definition handleYouTube (a : t) (player : P) (previousTrack : Track)
  : Result string bool * P :=
  let id := identifier (info previousTrack) in
  if negb (truthy id) then (Ok false, player) else
  let rdUrl := ("https://www.youtube.com/watch?v=" ++ id ++ "&list=RD" ++ id)%string in
  match search ops player rdUrl "ytsearch" with
  | Throw e => (Throw e, player)
  | Ok (LoadError _) | Ok LoadEmpty => (Ok false, player)
  | Ok result =>
      let tracks :=
        match result with
        | LoadPlaylist ts => ts
        | LoadSearch ts => ts
        | LoadTrack tr => [tr]
        | _ => []
        end in
      playRandom (availableTracks a tracks) player
  end.

(** [handleSoundCloud(player, previousTrack)]. *)
Definition handleSoundCloud (a : t) (player : P) (previousTrack : Track)
  : Result string bool * P :=
  if negb (truthy_opt (uri (info previousTrack))) then (Ok false, player) else
  let query := (title (info previousTrack) ++ " " ++ author (info previousTrack))%string in
  match search ops player query "scsearch" with
  | Throw e => (Throw e, player)
  | Ok (LoadError _) | Ok LoadEmpty => (Ok false, player)
  | Ok result =>
      let tracks :=
        match result with
        | LoadSearch ts => ts
        | LoadTrack tr => [tr]
        | _ => []
        end in
      playRandom (availableTracks a tracks) player
  end.

(** [handleSpotify(player, previousTrack)]. *)
Definition handleSpotify (a : t) (player : P) (previousTrack : Track)
  : Result string bool * P :=
  let artist := author (info previousTrack) in
  if negb (truthy (title (info previousTrack))) || negb (truthy artist)
  then (Ok false, player) else
  match search ops player artist "spsearch" with
  | Throw e => (Throw e, player)
  | Ok (LoadError _) | Ok LoadEmpty => (Ok false, player)
  | Ok artistResult =>
      let artistTracks :=
        match artistResult with
        | LoadSearch ts => ts
        | LoadTrack tr => [tr]
        | _ => []
        end in
      match artistTracks with
      | [] => (Ok false, player)
      | _ :: _ => playRandom (availableTracks a artistTracks) player
      end
  end.

(** The [switch (sourceName)] of [execute]. *)
Definition dispatch (a : t) (player : P) (previousTrack : Track)
  : Result string bool * P :=
  let src := sourceName (info previousTrack) in
  if String.eqb src "youtube" then handleYouTube a player previousTrack
  else if String.eqb src "soundcloud" then handleSoundCloud a player previousTrack
  else if String.eqb src "spotify" then handleSpotify a player previousTrack
  else handleYouTube a player previousTrack.

(** [execute(player, previousTrack)]: the engine after the call, what the
    call returned to its caller, and the player after it. The
    [try ... catch] around the dispatch turns a throw into [false]. *)
Definition execute (a : t) (player : P) (previousTrack : option Track)
  : t * Result string bool * P :=
  match previousTrack with
  | None => (a, Ok false, player)
  | Some prev =>
      if negb (nodeIsConnected ops player) then (a, Ok false, player) else
      let a := remember (trackId prev) a in
      match dispatch a player prev with
      | (Ok b, player') => (a, Ok b, player')
      | (Throw _, player') => (a, Ok false, player')
      end
  end.

End Strategies.

End AutoPlay.

(** ** player/Player: the playback session of one guild *)

Module Player.

Import JS Lavalink.

Inductive LoopMode : Type :=
| LoopOff
| LoopTrack
| LoopQueue.

(** What the player told the manager's event emitter (the debug lines
    are left out). *)
Inductive Emitted : Type :=
| QueueEnd.

(** The session's fields that the track-end handling reads or writes.
    [node] is the node the session is bound to; [requests] lists the
    tracks sent to the backend by [play], oldest first. *)
Record t : Type := mk {
  node : Node.t;
  track : option Track;
  position : Z;
  queue : list Track;
  previousTracks : list Track;
  history : list Track;
  loopMode : LoopMode;
  autoPlay : bool;
  autoPlayEngine : AutoPlay.t;
  positionUpdateInterval : bool;
  historyMaxSize : nat;
  requests : list Track;
  emitted : list Emitted
}.

(** What the backend answers during one call: the outcome of
    [node.updatePlayer] for a track, the reply of [node.loadTracks] for
    an identifier, and the random draws. *)
Record Env : Type := mkEnv {
  updatePlayer : Track -> Result string unit;
  loadTracks : string -> Result string LoadResult;
  random : nat -> nat
}.

Definition set_track (p : t) (tr : option Track) : t :=
  mk (node p) tr (position p) (queue p) (previousTracks p) (history p)
     (loopMode p) (autoPlay p) (autoPlayEngine p) (positionUpdateInterval p)
     (historyMaxSize p) (requests p) (emitted p).

Definition set_position (p : t) (z : Z) : t :=
  mk (node p) (track p) z (queue p) (previousTracks p) (history p)
     (loopMode p) (autoPlay p) (autoPlayEngine p) (positionUpdateInterval p)
     (historyMaxSize p) (requests p) (emitted p).

Definition set_queue (p : t) (q : list Track) : t :=
  mk (node p) (track p) (position p) q (previousTracks p) (history p)
     (loopMode p) (autoPlay p) (autoPlayEngine p) (positionUpdateInterval p)
     (historyMaxSize p) (requests p) (emitted p).

Definition set_previousTracks (p : t) (l : list Track) : t :=
  mk (node p) (track p) (position p) (queue p) l (history p)
     (loopMode p) (autoPlay p) (autoPlayEngine p) (positionUpdateInterval p)
     (historyMaxSize p) (requests p) (emitted p).

Definition set_history (p : t) (l : list Track) : t :=
  mk (node p) (track p) (position p) (queue p) (previousTracks p) l
     (loopMode p) (autoPlay p) (autoPlayEngine p) (positionUpdateInterval p)
     (historyMaxSize p) (requests p) (emitted p).

Definition set_autoPlayEngine (p : t) (a : AutoPlay.t) : t :=
  mk (node p) (track p) (position p) (queue p) (previousTracks p) (history p)
     (loopMode p) (autoPlay p) a (positionUpdateInterval p)
     (historyMaxSize p) (requests p) (emitted p).

Definition set_positionUpdateInterval (p : t) (b : bool) : t :=
  mk (node p) (track p) (position p) (queue p) (previousTracks p) (history p)
     (loopMode p) (autoPlay p) (autoPlayEngine p) b
     (historyMaxSize p) (requests p) (emitted p).

Definition add_request (p : t) (tr : Track) : t :=
  mk (node p) (track p) (position p) (queue p) (previousTracks p) (history p)
     (loopMode p) (autoPlay p) (autoPlayEngine p) (positionUpdateInterval p)
     (historyMaxSize p) (requests p ++ [tr]) (emitted p).

Definition emit (p : t) (e : Emitted) : t :=
  mk (node p) (track p) (position p) (queue p) (previousTracks p) (history p)
     (loopMode p) (autoPlay p) (autoPlayEngine p) (positionUpdateInterval p)
     (historyMaxSize p) (requests p) (emitted p ++ [e]).

(** [setLoopMode(mode)]. *)
Definition setLoopMode (m : LoopMode) (p : t) : t :=
  mk (node p) (track p) (position p) (queue p) (previousTracks p) (history p)
     m (autoPlay p) (autoPlayEngine p) (positionUpdateInterval p)
     (historyMaxSize p) (requests p) (emitted p).

(** [addTrack(track)]: [queue.push]. *)
Definition addTrack (tr : Track) (p : t) : t := set_queue p (queue p ++ [tr]).

(** [startPositionUpdate()] and [clearPositionUpdate()]. *)
Definition startPositionUpdate (p : t) : t := set_positionUpdateInterval p true.

Definition clearPositionUpdate (p : t) : t := set_positionUpdateInterval p false.

(** [play(track?)]: the given track, else the head of the queue, which
    is taken off it; the track is made current before the backend is
    asked to play it. *)
Definition play (env : Env) (given : option Track) (p : t) : Result string unit * t :=
  let (trackToPlay, p) :=
    match given with
    | Some tr => (Some tr, p)
    | None =>
        match queue p with
        | tr :: rest => (Some tr, set_queue p rest)
        | [] => (None, p)
        end
    end in
  match trackToPlay with
  | None => (Throw "No track provided and queue is empty"%string, p)
  | Some tr =>
      let p := set_track p (Some tr) in
      let p := add_request p tr in
      match updatePlayer env tr with
      | Throw e => (Throw e, p)
      | Ok _ => (Ok tt, startPositionUpdate p)
      end
  end.

(** [search(query, platform)]: a URL is loaded as it is, anything else
    as [platform:query]. *)
Definition isUrl (q : string) : bool :=
  String.prefix "http://" q || String.prefix "https://" q.

Definition search (env : Env) (p : t) (query platform : string)
  : Result string LoadResult :=
  let identifier := if isUrl query then query else (platform ++ ":" ++ query)%string in
  loadTracks env identifier.

(** The player as the autoplay engine sees it. *)
Definition ops (env : Env) : AutoPlay.PlayerOps t :=
  AutoPlay.mkPlayerOps
    (fun p => Node.isConnected (node p))
    (search env)
    addTrack
    (play env None)
    (random env).

(** [push] then [shift] once the list is longer than [cap]. *)
Definition push_capped (cap : nat) (tr : Track) (l : list Track) : list Track :=
  let l := l ++ [tr] in
  if Nat.ltb cap (List.length l) then tl l else l.

(** First block of [handleTrackEnd]: the ending track goes to the
    history and to the previous-tracks stack. *)
Definition recordEnded (p : t) : t :=
  match track p with
  | Some tr =>
      let p := set_history p (push_capped (historyMaxSize p) tr (history p)) in
      set_previousTracks p (push_capped 10 tr (previousTracks p))
  | None => p
  end.

(** Queue loop: "Add current track back to end of queue". *)
Definition requeueEnded (reason : TrackEndReason) (previousTrack : option Track) (p : t) : t :=
  match is_finished reason, loopMode p, previousTrack with
  | true, LoopQueue, Some tr => set_queue p (queue p ++ [tr])
  | _, _, _ => p
  end.

(** [this.track = null; this.position = 0; this.clearPositionUpdate()]. *)
Definition clearCurrent (p : t) : t :=
  clearPositionUpdate (set_position (set_track p None) 0).

(** The autoplay attempt of [handleTrackEnd], with its own
    [try ... catch]: whether it started a track, and the player after. *)
Definition tryAutoPlay (env : Env) (reason : TrackEndReason)
  (previousTrack : option Track) (p : t) : bool * t :=
  match autoPlay p, is_finished reason, queue p, previousTrack with
  | true, true, [], Some prev =>
      match AutoPlay.execute (ops env) (autoPlayEngine p) p (Some prev) with
      | (a, Ok success, p') => (success, set_autoPlayEngine p' a)
      | (a, Throw _, p') => (false, set_autoPlayEngine p' a)
      end
  | _, _, _, _ => (false, p)
  end.

(** Next-track selection, the part of [handleTrackEnd] after the loop
    handling. *)
Definition selectNext (env : Env) (reason : TrackEndReason)
  (previousTrack : option Track) (p : t) : Result string unit * t :=
  let p := clearCurrent p in
  match is_finished reason, queue p with
  | true, _ :: _ => play env None p
  | _, _ =>
      let (success, p) := tryAutoPlay env reason previousTrack p in
      if success then (Ok tt, p)
      else
        match queue p with
        | [] => (Ok tt, emit p QueueEnd)
        | _ :: _ => (Ok tt, p)
        end
  end.

(** [handleTrackEnd(reason)]. *)
Definition handleTrackEnd (env : Env) (reason : TrackEndReason) (p : t)
  : Result string unit * t :=
  let p := recordEnded p in
  let previousTrack := track p in
  match is_finished reason, loopMode p, previousTrack with
  | true, LoopTrack, Some tr => play env (Some tr) p
  | _, _, _ =>
      let p := requeueEnded reason previousTrack p in
      selectNext env reason previousTrack p
  end.

End Player.

(** ** Sequences of autoplay calls *)

Module AutoPlayRuns.

Import JS Lavalink AutoPlay.

(** One use of a player's engine: a call of [execute] with what the
    backend answers during it, or a call of [clearHistory]. *)
Inductive Call : Type :=
| Execute (env : Player.Env) (player : Player.t) (previousTrack : option Track)
| ClearHistory.

(** The engine after one call. *)
Definition engine_after_call (a : AutoPlay.t) (c : Call) : AutoPlay.t :=
  match c with
  | Execute env player prev =>
      fst (fst (execute (Player.ops env) a player prev))
  | ClearHistory => clearHistory a
  end.

(** The engine after a sequence of calls on a fresh engine. *)
Definition engine_after (calls : list Call) : AutoPlay.t :=
  fold_left engine_after_call calls create.

(** What holds of the engine at all times: the bound is 50, the set
    holds at most 50 identifiers, each once and none empty. *)
Definition well_formed (a : AutoPlay.t) : Prop :=
  maxHistorySize a = 50%nat
  /\ (List.length (playedIdentifiers a) <= 50)%nat
  /\ NoDup (playedIdentifiers a)
  /\ Forall (fun id => truthy id = true) (playedIdentifiers a).

End AutoPlayRuns.

(** ** The scorer as the specification words it *)

Module Scorer.

Import JS Node.

Local Open Scope float_scope.

(** CPU term: "CPU lavalink load divided by core count, times 100". *)
Definition cpuTerm (s : NodeStats) : number :=
  (lavalinkLoad (cpu s) / cores (cpu s)) * 100.

(** "used / allocated". *)
Definition usageRatio (s : NodeStats) : number :=
  used (memory s) / allocated (memory s).

(** Memory term: "(usage ratio - 0.8) x 500". *)
Definition memoryTerm (s : NodeStats) : number :=
  (usageRatio s - lit_0_8) * 500.

(** The weighted sum of the amended statement, a running total that
    starts from 0: players (weight 1), plus playing players (weight 2),
    plus the CPU term when the core count is positive, plus the memory
    term when the usage ratio exceeds 0.8, and, when frame stats are
    present, plus frame deficit x 2 and then plus nulled frames, the
    two added one after the other. *)
Definition weightedSum (s : NodeStats) : number :=
  let sum := 0 + players s + playingPlayers s * 2 in
  let sum := if gt (cores (cpu s)) 0 then sum + cpuTerm s else sum in
  let sum := if gt (usageRatio s) lit_0_8 then sum + memoryTerm s else sum in
  match frameStats s with
  | Some f => sum + deficit f * 2 + nulled f
  | None => sum
  end.

(** The weighted sum as the specification words it: the same terms,
    with the frame term "(frame deficit x 2 + nulled frame count)"
    formed first and added as one. *)
Definition weightedSumAsWorded (s : NodeStats) : number :=
  let sum := 0 + players s + playingPlayers s * 2 in
  let sum := if gt (cores (cpu s)) 0 then sum + cpuTerm s else sum in
  let sum := if gt (usageRatio s) lit_0_8 then sum + memoryTerm s else sum in
  match frameStats s with
  | Some f => sum + (deficit f * 2 + nulled f)
  | None => sum
  end.

(** The running total of [getPenalty], taken over the components the
    breakdown reports: a component whose condition does not hold is
    skipped, and the frame deficit and the nulled frames are added one
    after the other. *)
Definition runningTotal (s : NodeStats) (d : PenaltyDetails) : number :=
  let sum := 0 + d_players d + d_playingPlayers d in
  let sum := if gt (cores (cpu s)) 0 then sum + d_cpu d else sum in
  let sum := if gt (usageRatio s) lit_0_8 then sum + d_memory d else sum in
  match frameStats s with
  | Some f => sum + deficit f * 2 + nulled f
  | None => sum
  end.

(** The statement on the penalty as the specification words it, with
    "not in the CONNECTED state" read on the node's [state] field and
    the frame term added as one. *)
Definition penalty_by_state (n : Node.t) : Prop :=
  (state n <> CONNECTED \/ stats n = None -> getPenalty n = Infinity) /\
  (forall s, state n = CONNECTED -> stats n = Some s ->
             getPenalty n = weightedSumAsWorded s).

End Scorer.


(** ** The selection as the specification words it *)

Module Selection.

Import JS Node NodeManager.

(** [a] occurs in [b] as a contiguous run of characters. *)
Definition substring_of (a b : string) : Prop :=
  exists pre post : string, b = (pre ++ a ++ post)%string.

(** The same letter up to case, on the character codes: the two
    characters are equal, or one is a capital letter (codes 65 to 90)
    and the other the small letter 32 codes above it. *)
Definition same_letter (c d : ascii) : Prop :=
  c = d
  \/ (65 <= nat_of_ascii c <= 90 /\ nat_of_ascii d = nat_of_ascii c + 32)%nat
  \/ (65 <= nat_of_ascii d <= 90 /\ nat_of_ascii c = nat_of_ascii d + 32)%nat.

(** A separator: the hyphen or the underscore. *)
Definition separator (c : ascii) : Prop := c = "-"%char \/ c = "_"%char.

(** Two tokens that read the same once case and separators are
    ignored: separators may be left out on either side, and what
    remains agrees letter by letter up to case. *)
Inductive alike : string -> string -> Prop :=
| alike_end : alike EmptyString EmptyString
| alike_skip_left (c : ascii) (a b : string) :
    separator c -> alike a b -> alike (String c a) b
| alike_skip_right (c : ascii) (a b : string) :
    separator c -> alike a b -> alike a (String c b)
| alike_letter (c d : ascii) (a b : string) :
    ~ separator c -> ~ separator d -> same_letter c d ->
    alike a b -> alike (String c a) (String d b).

(** "Case-insensitive and separator-insensitive substring match in
    either direction": ignoring case and separators, one of the two
    tokens occurs in the other. Said without reference to the program:
    the tokens read the same as two strings one of which occurs in the
    other. *)
Definition fuzzy_match (nodeRegion voiceRegion : string) : Prop :=
  exists r v,
    alike nodeRegion r /\ alike voiceRegion v
    /\ (substring_of v r \/ substring_of r v).

(** A node has a configured region token that fuzzily matches the hint. *)
Definition region_matches (voiceRegion : string) (n : Node.t) : Prop :=
  exists r, opt_region (options n) = Some r /\ r <> EmptyString
            /\ fuzzy_match r voiceRegion.

(** The match as the program computes it, for tokens of any
    characters: one of the two tokens, lower-cased by [toLowerCase] and
    without its hyphens and underscores, occurs in the other. *)
Definition normalized_match {U : Unicode} (nodeRegion voiceRegion : string) : Prop :=
  substring_of (normalize voiceRegion) (normalize nodeRegion)
  \/ substring_of (normalize nodeRegion) (normalize voiceRegion).

(** The connected nodes of the hinted region. *)
Definition regional {U : Unicode} (voiceRegion : string) (nm : NodeManager.t)
  : list Node.t :=
  filter (inRegion voiceRegion) (getConnectedNodes nm).

(** The region tokens configured in the registry are ASCII strings. *)
Definition ascii_regions (nm : NodeManager.t) : Prop :=
  forall n r, In n (getNodes nm) -> opt_region (options n) = Some r ->
              ascii_only r = true.

(** The statement on the failure as the specification words it, with
    "connected set" read on the [state] field: the call fails with the
    no-connected-nodes error exactly when no node is in state
    CONNECTED. *)
Definition fails_by_state {U : Unicode} (voiceRegion : string) (nm : NodeManager.t)
  : Prop :=
  getBestNode (Some voiceRegion) nm = Throw NO_CONNECTED_NODES
  <-> forall n, In n (getNodes nm) -> state n <> CONNECTED.

(** The set the selection is made from: the connected nodes of the
    hinted region when there are any, all the connected nodes otherwise. *)
Definition candidates {U : Unicode} (voiceRegion : option string)
  (nm : NodeManager.t) : list Node.t :=
  let connected := getConnectedNodes nm in
  match voiceRegion with
  | Some v =>
      if truthy v then
        match filter (inRegion v) connected with
        | [] => connected
        | n :: l => n :: l
        end
      else connected
  | None => connected
  end.

(** What the scan has established once it holds [b] as best node after
    going through [seen]: [b] is in [seen], no node before it scores
    less than or as much as it, and no node after it scores less. *)
Definition first_minimum (f : PenaltyCalculator) (seen : list Node.t) (b : Node.t) : Prop :=
  exists pre post,
    seen = pre ++ b :: post
    /\ (forall y, In y pre -> PrimFloat.leb (f y) (f b) = false)
    /\ (forall y, In y post -> lt (f y) (f b) = false).

(** The statement on stats-less nodes as the specification words it:
    whatever the call returns is connected and has stats, as soon as
    the registry holds some connected node with stats. *)
Definition never_statsless {U : Unicode} (voiceRegion : option string)
  (nm : NodeManager.t) : Prop :=
  forall r, getBestNode voiceRegion nm = Ok r ->
            (exists c, In c (getNodes nm) /\ isConnected c = true
                       /\ stats c <> None) ->
            isConnected r = true /\ stats r <> None.

End Selection.

(** ** The heartbeat monitor as the specification words it *)

Module Heartbeat.

Import JS Node.

Local Open Scope Z_scope.

(** A node under watch: connected, with the monitor's timer running. *)
Definition monitored (n : Node.t) : Prop :=
  isConnected n = true /\ heartbeatInterval n = Some HEARTBEAT_PERIOD.

(** The statement on the monitor as the specification words it: once
    the liveness timeout has passed without a refresh, the check closes
    the socket with a non-normal code and, the close having come
    through, a reconnection is scheduled. *)
Definition heartbeat_reconnects (n : Node.t) : Prop :=
  forall now r,
    HEARTBEAT_TIMEOUT < now - lastHeartbeat n ->
    let closing := heartbeatTick now n in
    let closed := closeHandshakeDone r closing in
    (exists code reason,
        ws closing = Some (mkWebSocket WS_CLOSING (Some (code, reason)))
        /\ code <> NORMAL_CLOSURE)
    /\ state closed = RECONNECTING
    /\ reconnectTimeout closed <> None.

End Heartbeat.

(** ** Sample nodes *)

Module Samples.

Import JS Node.

Local Open Scope float_scope.

Definition options_of (nm : string) (rg : option string) : Options :=
  mkOptions nm 60 3 5000 rg.

(** Stats with [p] players and nothing else loading the node: one idle
    core, half of the memory in use, no frame stats. *)
Definition idle_stats (p : number) : NodeStats :=
  mkNodeStats p 0 0 (mkMemoryStats 1 1 2 2) (mkCpuStats 1 0 0) None.

(** A node in the given state, with the given socket and stats. *)
Definition node_with (nm : string) (rg : option string) (st : NodeState)
  (w : option WebSocket) (s : option NodeStats) : Node.t :=
  Node.mk (options_of nm rg) st s None w
          (ExponentialBackoff.create (inject_Z 5000) (inject_Z 60000) 3 (2 # 10))
          None 0%Z None [].

(** A connected node: state CONNECTED, socket open. *)
Definition connected_node (nm : string) (rg : option string) (s : option NodeStats)
  : Node.t :=
  node_with nm rg CONNECTED (Some (mkWebSocket WS_OPEN None)) s.

(** A node whose socket is closing while its state is still CONNECTED,
    as between the heartbeat monitor's [close] and the [close] event. *)
Definition closing_node : Node.t :=
  node_with "a" None CONNECTED
            (Some (mkWebSocket WS_CLOSING (Some (4000%Z, "Heartbeat timeout"%string))))
            (Some (idle_stats 1)).

(** A connected node under light load: no players, lavalink load 0.01
    on 3 cores, half of the memory in use, 1 frame of deficit and 2
    nulled frames. *)
Definition light_load : NodeStats :=
  mkNodeStats 0 0 0 (mkMemoryStats 1 1 2 2)
              (mkCpuStats 3 0 0x1.47ae147ae147bp-7)
              (Some (mkFrameStats 2997 2 1)).

Definition light_node : Node.t := connected_node "a" None (Some light_load).

(** Three connected nodes scoring 5, 2 and 8. *)
Definition node5 : Node.t := connected_node "n5" None (Some (idle_stats 5)).

Definition node2 : Node.t := connected_node "n2" None (Some (idle_stats 2)).

Definition node8 : Node.t := connected_node "n8" None (Some (idle_stats 8)).

Definition registry_of (l : list Node.t) : NodeManager.t :=
  NodeManager.mk (map (fun n => (opt_name (options n), n)) l) (Some "client"%string) None.

Definition three_nodes : NodeManager.t := registry_of [node5; node2; node8].

(** A node in Europe with stats and a node in the US that has not yet
    received any. *)
Definition eu_node : Node.t :=
  connected_node "eu" (Some "eu-central"%string) (Some (idle_stats 1)).

Definition us_node : Node.t := connected_node "us" (Some "us-west"%string) None.

Definition two_regions : NodeManager.t := registry_of [eu_node; us_node].

(** A node with default options whose socket opened at time 0, and one
    configured never to reconnect. *)
Definition opened_node : Node.t :=
  socketOpened 0 (create (mkNodeOptions "a" None None None None)).

Definition no_reconnect_node : Node.t :=
  socketOpened 0 (create (mkNodeOptions "a" None (Some 0%Z) None None)).

(** Three tracks from YouTube. *)
Definition track_of (id : string) : Lavalink.Track :=
  Lavalink.mkTrack id (Lavalink.mkTrackInfo id "author" 1000 id None "youtube").

Definition trackA : Lavalink.Track := track_of "A".

Definition trackB : Lavalink.Track := track_of "B".

Definition trackC : Lavalink.Track := track_of "C".

(** A backend that accepts every update and finds the one track A for
    every search; the random draw is always 0. *)
Definition env_ok : Player.Env :=
  Player.mkEnv (fun _ => Ok tt) (fun _ => Ok (Lavalink.LoadSearch [trackA]))
               (fun _ => 0%nat).

(** A session on a connected node, playing [current] with [pending]
    queued, in the given loop mode, autoplay on, engine fresh. *)
Definition session (current : option Lavalink.Track) (pending : list Lavalink.Track)
  (m : Player.LoopMode) : Player.t :=
  Player.mk (connected_node "a" None None) current 0%Z pending [] [] m true
            AutoPlay.create true 50 [] [].

(** The case tables cut down to ASCII: the letters A to Z are
    lower-cased and every other character is left as it is. Enough for
    the samples, whose strings are ASCII. *)
Definition ascii_table : Unicode :=
  Build_Unicode asciiLowerCase (fun s _ => eq_refl).

(** Options of a node to add, all defaults. *)
Definition fourth_options : NodeOptions := mkNodeOptions "n9" None None None None.

End Samples.
(** * More of the code: the rest of the registry, the queue and the
    playback controls, the metadata cache, the favorites and the
    manager *)

From Stdlib Require Import Permutation.

(** ** Maps with string keys

    A [Map<string, A>] as an association list in insertion order, for
    any type of values. *)

Module StrMap.

Section Ops.

Variable A : Type.

Definition t : Type := list (string * A).

(** [Map.prototype.has]. *)
Definition has (k : string) (m : t) : bool :=
  existsb (fun e => String.eqb (fst e) k) m.

(** [Map.prototype.get]. *)
Definition get (k : string) (m : t) : option A :=
  match find (fun e => String.eqb (fst e) k) m with
  | Some e => Some (snd e)
  | None => None
  end.

(** [Map.prototype.set]: a known key keeps its place and takes the new
    value, a new key goes to the end. *)
Fixpoint set (k : string) (v : A) (m : t) : t :=
  match m with
  | [] => [(k, v)]
  | e :: m' => if String.eqb (fst e) k then (k, v) :: m' else e :: set k v m'
  end.

(** [Map.prototype.delete]. *)
Definition delete (k : string) (m : t) : t :=
  filter (fun e => negb (String.eqb (fst e) k)) m.

(** [Map.prototype.keys], in insertion order. *)
Definition keys (m : t) : list string := map fst m.

(** [Map.prototype.size]. *)
Definition size (m : t) : nat := List.length m.

(** [map.keys().next().value]: the key inserted first, if any. *)
Definition firstKey (m : t) : option string :=
  match m with
  | [] => None
  | e :: _ => Some (fst e)
  end.

End Ops.

End StrMap.

(** ** nodes/NodeManager: the rest of the registry *)

Module Registry.

Import JS Node NodeManager.

(** [getNode(name)]. *)
Definition getNode (k : string) (nm : NodeManager.t) : option Node.t :=
  map_get k (nodes nm).

(** The names in the registry, in registration order. *)
Definition names (nm : NodeManager.t) : list string := map fst (nodes nm).

(** [getNodePenalties()]: the map is filled in registration order. *)
Definition getNodePenalties (nm : NodeManager.t) : StrMap.t number :=
  fold_left
    (fun penalties e =>
       if isConnected (snd e)
       then StrMap.set (fst e) (penaltyFn nm (snd e)) penalties
       else StrMap.set (fst e) Infinity penalties)
    (nodes nm) [].

(** [getNodePenaltyDetails()]. *)
Definition getNodePenaltyDetails (nm : NodeManager.t) : StrMap.t PenaltyDetails :=
  fold_left
    (fun details e => StrMap.set (fst e) (getPenaltyDetails (snd e)) details)
    (nodes nm) [].

(** [disconnectAll()]: every node is disconnected, then the map is
    cleared. *)
Definition disconnectAll (nm : NodeManager.t) : NodeManager.t :=
  set_nodes nm [].

(** [healthCheck()]; [getStats] is what the node's REST endpoint
    answers. Returned with the health map: the nodes whose endpoint was
    asked, in order. *)
Definition healthCheck (getStats : Node.t -> Result string NodeStats)
  (nm : NodeManager.t) : StrMap.t bool * list Node.t :=
  fold_left
    (fun acc e =>
       let '(health, asked) := acc in
       if isConnected (snd e)
       then
         match getStats (snd e) with
         | Ok _ => (StrMap.set (fst e) true health, asked ++ [snd e])
         | Throw _ => (StrMap.set (fst e) false health, asked ++ [snd e])
         end
       else (StrMap.set (fst e) false health, asked))
    (nodes nm) ([], []).

(** Whether a node's stats endpoint answered. *)
Definition endpoint_ok (getStats : Node.t -> Result string NodeStats) (n : Node.t) : bool :=
  match getStats n with
  | Ok _ => true
  | Throw _ => false
  end.

(** The registry's invariant: names are distinct and every node is
    registered under its own name. *)
Definition well_named (nm : NodeManager.t) : Prop :=
  NoDup (names nm)
  /\ forall k n, In (k, n) (nodes nm) -> opt_name (options n) = k.

(** One use of the registry. *)
Inductive Op : Type :=
| Init (clientId : string)
| AddNode (o : NodeOptions) (outcome : SocketOutcome)
| RemoveNode (name : string)
| DisconnectAll.

Definition apply (nm : NodeManager.t) (op : Op) : NodeManager.t :=
  match op with
  | Init id => init id nm
  | AddNode o outcome => snd (addNode o outcome nm)
  | RemoveNode k => snd (removeNode k nm)
  | DisconnectAll => disconnectAll nm
  end.

(** The registry after a sequence of uses of a fresh one. *)
Definition after (ops : list Op) : NodeManager.t :=
  fold_left apply ops NodeManager.empty.

End Registry.


(** ** player/Player: the queue and the playback controls

    Array indices and positions are integers. The reply of the backend
    to a request that carries no track is an argument of the call. *)

Module PlayerControls.

Import JS Lavalink Player.

(** [new Player(options, node, eventEmitter, autoPlay)]. *)
Definition create (node : Node.t) (autoPlay : bool) : Player.t :=
  Player.mk node None 0%Z [] [] [] LoopOff autoPlay AutoPlay.create false 50 [] [].

(** [addTracks(tracks)]: [queue.push(...tracks)]. *)
Definition addTracks (tracks : list Track) (p : Player.t) : Player.t :=
  set_queue p (queue p ++ tracks).

(** [array.splice(i, 1)]: the array without its element at [i]. *)
Definition splice_out (i : nat) (q : list Track) : list Track :=
  firstn i q ++ skipn (S i) q.

(** [array.splice(i, 0, x)]: [x] inserted before the element at [i]. *)
Definition splice_in (i : nat) (x : Track) (q : list Track) : list Track :=
  firstn i q ++ x :: skipn i q.

(** [removeTrack(index)]. *)
Definition removeTrack (index : Z) (p : Player.t) : option Track * Player.t :=
  if (index <? 0)%Z || (Z.of_nat (List.length (queue p)) <=? index)%Z
  then (None, p)
  else
    let i := Z.to_nat index in
    (nth_error (queue p) i, set_queue p (splice_out i (queue p))).

(** [clearQueue()]. *)
Definition clearQueue (p : Player.t) : Player.t := set_queue p [].

(** [getHistory()]: a copy of the history. *)
Definition getHistory (p : Player.t) : list Track := history p.

(** [clearHistory()]. *)
Definition clearHistory (p : Player.t) : Player.t := set_history p [].

(** [moveTrack(from, to)]. Past the range check the element at [from]
    exists; the last case is there for totality only. *)
Definition moveTrack (from to : Z) (p : Player.t) : bool * Player.t :=
  let len := Z.of_nat (List.length (queue p)) in
  if (from <? 0)%Z || (len <=? from)%Z || (to <? 0)%Z || (len <=? to)%Z
  then (false, p)
  else
    match nth_error (queue p) (Z.to_nat from) with
    | Some track =>
        let q := splice_out (Z.to_nat from) (queue p) in
        (true, set_queue p (splice_in (Z.to_nat to) track q))
    | None => (true, p)
    end.

(** [array[i] = x] for an index inside the array. *)
Fixpoint assign (i : nat) (x : Track) (q : list Track) : list Track :=
  match q, i with
  | [], _ => []
  | _ :: rest, O => x :: rest
  | y :: rest, S i' => y :: assign i' x rest
  end.

(** [[q[i], q[j]] = [q[j], q[i]]]: the right-hand side is read first,
    then [q[i]] and [q[j]] are assigned in this order. The shuffle only
    swaps inside the array. *)
Definition swap (i j : nat) (q : list Track) : list Track :=
  match nth_error q i, nth_error q j with
  | Some a, Some b => assign j a (assign i b q)
  | _, _ => q
  end.

(** The loop of [shuffleQueue], from index [i] down to 1; [random n]
    is what [Math.floor(Math.random() * n)] drew, reduced modulo [n],
    the draw being below [n]. *)
Fixpoint shuffle_from (random : nat -> nat) (i : nat) (q : list Track) : list Track :=
  match i with
  | O => q
  | S i' =>
      let j := Nat.modulo (random (i + 1)%nat) (i + 1) in
      shuffle_from random i' (swap i j q)
  end.

(** [shuffleQueue()]. *)
Definition shuffleQueue (env : Env) (p : Player.t) : Player.t :=
  set_queue p (shuffle_from (random env) (List.length (queue p) - 1) (queue p)).

(** [stop()]; [reply] is the backend's answer to the request that
    clears the track. *)
Definition stop (reply : Result string unit) (p : Player.t)
  : Result string unit * Player.t :=
  match reply with
  | Throw e => (Throw e, p)
  | Ok _ => (Ok tt, clearCurrent p)
  end.

(** [seek(position)]; [reply] is the backend's answer to the request. *)
Definition seek (reply : Result string unit) (pos : Z) (p : Player.t)
  : Result string unit * Player.t :=
  match track p with
  | None => (Throw "No track is currently playing"%string, p)
  | Some tr =>
      if (pos <? 0)%Z || (length (info tr) <? pos)%Z
      then (Throw "Position out of bounds"%string, p)
      else
        match reply with
        | Throw e => (Throw e, p)
        | Ok _ => (Ok tt, set_position p pos)
        end
  end.

(** [skip()]. *)
Definition skip (env : Env) (stopReply : Result string unit) (p : Player.t)
  : Result string bool * Player.t :=
  match queue p with
  | [] =>
      match stop stopReply p with
      | (Throw e, p) => (Throw e, p)
      | (Ok _, p) => (Ok false, p)
      end
  | _ :: _ =>
      match play env None p with
      | (Throw e, p) => (Throw e, p)
      | (Ok _, p) => (Ok true, p)
      end
  end.

(** [previous()]: [previousTracks.pop()], then the current track goes
    back to the front of the queue. *)
Definition previous (env : Env) (p : Player.t) : Result string bool * Player.t :=
  match previousTracks p with
  | [] => (Ok false, p)
  | first :: _ =>
      let previousTrack := last (previousTracks p) first in
      let p := set_previousTracks p (removelast (previousTracks p)) in
      let p :=
        match track p with
        | Some tr => set_queue p (tr :: queue p)
        | None => p
        end in
      match play env (Some previousTrack) p with
      | (Throw e, p) => (Throw e, p)
      | (Ok _, p) => (Ok true, p)
      end
  end.

(** The part of a session the track-end records live in. *)
Definition records (p : Player.t) : list Track * list Track * nat :=
  (history p, previousTracks p, historyMaxSize p).

(** The bounds on the records of a session. *)
Definition bounded (p : Player.t) : Prop :=
  (List.length (history p) <= 50)%nat
  /\ (List.length (previousTracks p) <= 10)%nat
  /\ historyMaxSize p = 50%nat.

(** The identifier [handleYouTube] loads: the radio playlist of a
    track. *)
Definition radio_url (id : string) : string :=
  ("https://www.youtube.com/watch?v=" ++ id ++ "&list=RD" ++ id)%string.

(** One call on a session, with what the backend answers during it. *)
Inductive Cmd : Type :=
| AddTrack (tr : Track)
| AddTracks (tracks : list Track)
| RemoveTrack (index : Z)
| ClearQueue
| SetLoopMode (m : LoopMode)
| ClearHistory
| ShuffleQueue (env : Env)
| MoveTrack (from to : Z)
| Play (env : Env) (given : option Track)
| Stop (reply : Result string unit)
| Seek (reply : Result string unit) (pos : Z)
| Skip (env : Env) (stopReply : Result string unit)
| Previous (env : Env)
| TrackEnd (env : Env) (reason : TrackEndReason).

Definition apply (p : Player.t) (c : Cmd) : Player.t :=
  match c with
  | AddTrack tr => addTrack tr p
  | AddTracks tracks => addTracks tracks p
  | RemoveTrack index => snd (removeTrack index p)
  | ClearQueue => clearQueue p
  | SetLoopMode m => setLoopMode m p
  | ClearHistory => clearHistory p
  | ShuffleQueue env => shuffleQueue env p
  | MoveTrack from to => snd (moveTrack from to p)
  | Play env given => snd (play env given p)
  | Stop reply => snd (stop reply p)
  | Seek reply pos => snd (seek reply pos p)
  | Skip env stopReply => snd (skip env stopReply p)
  | Previous env => snd (previous env p)
  | TrackEnd env reason => snd (handleTrackEnd env reason p)
  end.

(** A new session after the calls [cs], oldest first. *)
Definition after (node : Node.t) (autoPlay : bool) (cs : list Cmd) : Player.t :=
  fold_left apply cs (create node autoPlay).

End PlayerControls.

(** ** utils/MetadataCache: cached track metadata

    [Date.now()] is the argument [now] of the calls that read the
    clock; sizes and times are integers. *)

Module MetadataCache.

Import JS Lavalink.

Record CacheEntry : Type := mkCacheEntry {
  cached : Track;
  timestamp : Z
}.

Record t : Type := mk {
  cache : StrMap.t CacheEntry;
  maxSize : Z;
  ttl : Z
}.

(** [constructor(maxSize = 1000, ttl = 3600000)]. *)
Definition create (maxSize ttl : option Z) : t :=
  mk [] (Node.default maxSize 1000%Z) (Node.default ttl 3600000%Z).

Definition set_cache (c : t) (m : StrMap.t CacheEntry) : t :=
  mk m (maxSize c) (ttl c).

(** [now - entry.timestamp > this.ttl]. *)
Definition expired (now : Z) (c : t) (entry : CacheEntry) : bool :=
  (ttl c <? now - timestamp entry)%Z.

(** [get(identifier)]: an expired entry is deleted on the way. *)
Definition get (now : Z) (identifier : string) (c : t) : option Track * t :=
  match StrMap.get identifier (cache c) with
  | None => (None, c)
  | Some entry =>
      if expired now c entry
      then (None, set_cache c (StrMap.delete identifier (cache c)))
      else (Some (cached entry), c)
  end.

(** [set(identifier, track)]. *)
Definition set (now : Z) (identifier : string) (track : Track) (c : t) : t :=
  let c :=
    if (maxSize c <=? Z.of_nat (StrMap.size (cache c)))%Z
    then
      match StrMap.firstKey (cache c) with
      | Some firstKey =>
          if truthy firstKey
          then set_cache c (StrMap.delete firstKey (cache c))
          else c
      | None => c
      end
    else c in
  set_cache c (StrMap.set identifier (mkCacheEntry track now) (cache c)).

(** [has(identifier)]: [this.get(identifier) !== null]. *)
Definition has (now : Z) (identifier : string) (c : t) : bool * t :=
  match get now identifier c with
  | (Some _, c) => (true, c)
  | (None, c) => (false, c)
  end.

(** [cleanup()]: the loop visits the entries the map holds when it
    starts, since the only entry it ever deletes is the one it is
    visiting. *)
Definition cleanup (now : Z) (c : t) : t :=
  fold_left
    (fun c e =>
       if expired now c (snd e)
       then set_cache c (StrMap.delete (fst e) (cache c))
       else c)
    (cache c) c.

(** [clear()]. *)
Definition clear (c : t) : t := set_cache c [].

(** [size()]. *)
Definition size (c : t) : nat := StrMap.size (cache c).

(** One call on a cache. *)
Inductive Op : Type :=
| Get (now : Z) (identifier : string)
| Set_ (now : Z) (identifier : string) (track : Track)
| Has (now : Z) (identifier : string)
| Cleanup (now : Z)
| Clear.

Definition apply (c : t) (op : Op) : t :=
  match op with
  | Get now identifier => snd (get now identifier c)
  | Set_ now identifier track => set now identifier track c
  | Has now identifier => snd (has now identifier c)
  | Cleanup now => cleanup now c
  | Clear => clear c
  end.

(** A new cache after the calls [ops], oldest first. *)
Definition after (maxSize ttl : option Z) (ops : list Op) : t :=
  fold_left apply ops (create maxSize ttl).

(** The identifier a call stores under, if it stores. *)
Definition stores_truthy (op : Op) : Prop :=
  match op with
  | Set_ _ identifier _ => truthy identifier = true
  | _ => True
  end.

(** What every call keeps true of a cache: distinct keys, none of them
    the empty string. *)
Definition well_keyed (c : t) : Prop :=
  NoDup (StrMap.keys (cache c))
  /\ forall k, In k (StrMap.keys (cache c)) -> truthy k = true.

(** A well-keyed cache that holds no more than its bound. *)
Definition within (c : t) : Prop :=
  well_keyed c /\ (Z.of_nat (size c) <= maxSize c)%Z.

End MetadataCache.

(** ** utils/FavoritesManager: favorite tracks of users and guilds

    [Date.now()] is the argument [now] of the calls that read the
    clock; the limits are integers. *)

Module FavoritesManager.

Import JS Lavalink.

Record FavoriteTrack : Type := mkFavoriteTrack {
  favorite : Track;
  addedAt : Z;
  addedBy : option string
}.

Record t : Type := mk {
  userFavorites : StrMap.t (list FavoriteTrack);
  guildFavorites : StrMap.t (list FavoriteTrack);
  maxPerUser : Z;
  maxPerGuild : Z
}.

(** [constructor(maxPerUser = 100, maxPerGuild = 500)]. *)
Definition create (maxPerUser maxPerGuild : option Z) : t :=
  mk [] [] (Node.default maxPerUser 100%Z) (Node.default maxPerGuild 500%Z).

Definition set_userFavorites (fm : t) (m : StrMap.t (list FavoriteTrack)) : t :=
  mk m (guildFavorites fm) (maxPerUser fm) (maxPerGuild fm).

Definition set_guildFavorites (fm : t) (m : StrMap.t (list FavoriteTrack)) : t :=
  mk (userFavorites fm) m (maxPerUser fm) (maxPerGuild fm).

(** [f => f.track.encoded === encoded]. *)
Definition is_track (trackEncoded : string) (f : FavoriteTrack) : bool :=
  String.eqb (encoded (favorite f)) trackEncoded.

(** [addUserFavorite(userId, track)]: the array held by the map is
    changed in place, so the map holds the changed array. *)
Definition addUserFavorite (now : Z) (userId : string) (track : Track) (fm : t)
  : bool * t :=
  let fm :=
    if negb (StrMap.has userId (userFavorites fm))
    then set_userFavorites fm (StrMap.set userId [] (userFavorites fm))
    else fm in
  let favorites := Node.default (StrMap.get userId (userFavorites fm)) [] in
  if existsb (is_track (encoded track)) favorites then (false, fm)
  else
    let favorites :=
      if (maxPerUser fm <=? Z.of_nat (List.length favorites))%Z
      then tl favorites
      else favorites in
    let favorites := favorites ++ [mkFavoriteTrack track now None] in
    (true, set_userFavorites fm (StrMap.set userId favorites (userFavorites fm))).

(** [addGuildFavorite(guildId, track, addedBy)]. *)
Definition addGuildFavorite (now : Z) (guildId : string) (track : Track)
  (by_ : option string) (fm : t) : bool * t :=
  let fm :=
    if negb (StrMap.has guildId (guildFavorites fm))
    then set_guildFavorites fm (StrMap.set guildId [] (guildFavorites fm))
    else fm in
  let favorites := Node.default (StrMap.get guildId (guildFavorites fm)) [] in
  if existsb (is_track (encoded track)) favorites then (false, fm)
  else
    let favorites :=
      if (maxPerGuild fm <=? Z.of_nat (List.length favorites))%Z
      then tl favorites
      else favorites in
    let favorites := favorites ++ [mkFavoriteTrack track now by_] in
    (true, set_guildFavorites fm (StrMap.set guildId favorites (guildFavorites fm))).

(** [favorites.splice(favorites.findIndex(p), 1)] when the index is not
    -1: the list without its first element that satisfies [p]. *)
Fixpoint remove_first (p : FavoriteTrack -> bool) (l : list FavoriteTrack)
  : list FavoriteTrack :=
  match l with
  | [] => []
  | f :: rest => if p f then rest else f :: remove_first p rest
  end.

(** [removeUserFavorite(userId, trackEncoded)]. *)
Definition removeUserFavorite (userId trackEncoded : string) (fm : t) : bool * t :=
  match StrMap.get userId (userFavorites fm) with
  | None => (false, fm)
  | Some favorites =>
      if existsb (is_track trackEncoded) favorites
      then (true,
            set_userFavorites fm
              (StrMap.set userId (remove_first (is_track trackEncoded) favorites)
                          (userFavorites fm)))
      else (false, fm)
  end.

(** [removeGuildFavorite(guildId, trackEncoded)]. *)
Definition removeGuildFavorite (guildId trackEncoded : string) (fm : t) : bool * t :=
  match StrMap.get guildId (guildFavorites fm) with
  | None => (false, fm)
  | Some favorites =>
      if existsb (is_track trackEncoded) favorites
      then (true,
            set_guildFavorites fm
              (StrMap.set guildId (remove_first (is_track trackEncoded) favorites)
                          (guildFavorites fm)))
      else (false, fm)
  end.

(** [getUserFavorites(userId)]: [get(userId) || []]. *)
Definition getUserFavorites (userId : string) (fm : t) : list FavoriteTrack :=
  Node.default (StrMap.get userId (userFavorites fm)) [].

(** [getGuildFavorites(guildId)]. *)
Definition getGuildFavorites (guildId : string) (fm : t) : list FavoriteTrack :=
  Node.default (StrMap.get guildId (guildFavorites fm)) [].

(** [clearUserFavorites(userId)]. *)
Definition clearUserFavorites (userId : string) (fm : t) : t :=
  set_userFavorites fm (StrMap.delete userId (userFavorites fm)).

(** [clearGuildFavorites(guildId)]. *)
Definition clearGuildFavorites (guildId : string) (fm : t) : t :=
  set_guildFavorites fm (StrMap.delete guildId (guildFavorites fm)).

(** The encoded tracks of a list of favorites. *)
Definition encodings (l : list FavoriteTrack) : list string :=
  map (fun f => encoded (favorite f)) l.

(** A list of favorites within a limit: no track twice, and no longer
    than the limit (a limit below 1 still lets one favorite in). *)
Definition tidy (limit : Z) (l : list FavoriteTrack) : Prop :=
  NoDup (encodings l) /\ (Z.of_nat (List.length l) <= Z.max limit 1)%Z.

(** The list [addUserFavorite] and [addGuildFavorite] leave behind
    when the track is new. *)
Definition pushed (limit : Z) (f : FavoriteTrack) (l : list FavoriteTrack)
  : list FavoriteTrack :=
  (if (limit <=? Z.of_nat (List.length l))%Z then tl l else l) ++ [f].

(** What the two [add...Favorite] functions do to the map they work
    on, and what they return. *)
Definition add_to (limit now : Z) (by_ : option string) (key : string) (track : Track)
  (m : StrMap.t (list FavoriteTrack)) : bool * StrMap.t (list FavoriteTrack) :=
  let m := if negb (StrMap.has key m) then StrMap.set key [] m else m in
  let favorites := Node.default (StrMap.get key m) [] in
  if existsb (is_track (encoded track)) favorites then (false, m)
  else (true, StrMap.set key (pushed limit (mkFavoriteTrack track now by_) favorites) m).

(** What the two [remove...Favorite] functions do to the map they work
    on, and what they return. *)
Definition remove_from (key trackEncoded : string)
  (m : StrMap.t (list FavoriteTrack)) : bool * StrMap.t (list FavoriteTrack) :=
  match StrMap.get key m with
  | None => (false, m)
  | Some favorites =>
      if existsb (is_track trackEncoded) favorites
      then (true, StrMap.set key (remove_first (is_track trackEncoded) favorites) m)
      else (false, m)
  end.

(** Every list of a map is [tidy]. *)
Definition all_tidy (limit : Z) (m : StrMap.t (list FavoriteTrack)) : Prop :=
  forall k l, StrMap.get k m = Some l -> tidy limit l.

(** One call on a manager of favorites. *)
Inductive Op : Type :=
| AddUser (now : Z) (userId : string) (track : Track)
| AddGuild (now : Z) (guildId : string) (track : Track) (by_ : option string)
| RemoveUser (userId trackEncoded : string)
| RemoveGuild (guildId trackEncoded : string)
| ClearUser (userId : string)
| ClearGuild (guildId : string).

Definition apply (fm : t) (op : Op) : t :=
  match op with
  | AddUser now userId track => snd (addUserFavorite now userId track fm)
  | AddGuild now guildId track by_ => snd (addGuildFavorite now guildId track by_ fm)
  | RemoveUser userId trackEncoded => snd (removeUserFavorite userId trackEncoded fm)
  | RemoveGuild guildId trackEncoded => snd (removeGuildFavorite guildId trackEncoded fm)
  | ClearUser userId => clearUserFavorites userId fm
  | ClearGuild guildId => clearGuildFavorites guildId fm
  end.

(** A new manager after the calls [ops], oldest first. *)
Definition after (maxPerUser maxPerGuild : option Z) (ops : list Op) : t :=
  fold_left apply ops (create maxPerUser maxPerGuild).

(** What every call keeps true of a manager with limits [mu] and
    [mg]. *)
Definition kept (mu mg : Z) (fm : t) : Prop :=
  maxPerUser fm = mu /\ maxPerGuild fm = mg
  /\ all_tidy mu (userFavorites fm) /\ all_tidy mg (guildFavorites fm).

End FavoritesManager.

(** ** manager/Manager: initialisation and the sessions of the guilds

    The manager works on the registry of nodes (a singleton it shares)
    and keeps one session per guild. The base class of the manager,
    [LavalinkEventEmitter], and the voice forwarder are not among the
    sources: the listeners of the base class are an argument of [init],
    and the constructor of the forwarder is taken to return without an
    effect on the manager. No plugin is registered; the hooks of a
    plugin run inside a try/catch of their own and cannot make [emit]
    throw. The options that play no part here are left out (send,
    shards, defaultSearchPlatform). *)

Module Manager.

Import JS Node.

Record ManagerOptions : Type := mkManagerOptions {
  mo_nodes : list NodeOptions;
  mo_clientId : option string;
  mo_autoPlay : option bool;
  mo_debug : option bool
}.

(** [Required<ManagerOptions>]: the options after the constructor's
    defaults. *)
Record Options : Type := mkOptions {
  opt_nodes : list NodeOptions;
  opt_clientId : string;
  opt_autoPlay : bool;
  opt_debug : bool
}.

Record t : Type := mk {
  options : Options;
  nodeManager : NodeManager.t;
  players : StrMap.t Player.t;
  clientId : option string;
  initialized : bool;
  debugEnabled : bool
}.

(** [constructor(options)]; [registry] is the singleton
    [NodeManager.getInstance()] returns. *)
Definition make (o : ManagerOptions) (registry : NodeManager.t) : t :=
  let debug := default (mo_debug o) false in
  mk (mkOptions (mo_nodes o)
                (default (mo_clientId o) EmptyString)
                (default (mo_autoPlay o) true)
                debug)
     registry [] None false debug.

Definition set_nodeManager (m : t) (nm : NodeManager.t) : t :=
  mk (options m) nm (players m) (clientId m) (initialized m) (debugEnabled m).

Definition set_players (m : t) (ps : StrMap.t Player.t) : t :=
  mk (options m) (nodeManager m) ps (clientId m) (initialized m) (debugEnabled m).

Definition set_clientId (m : t) (id : option string) : t :=
  mk (options m) (nodeManager m) (players m) id (initialized m) (debugEnabled m).

Definition set_initialized (m : t) (b : bool) : t :=
  mk (options m) (nodeManager m) (players m) (clientId m) b (debugEnabled m).

(** The events [init] emits, with their arguments. The node of a
    nodeError event is what [getNode] returned, a node or [undefined];
    an error is given by its message. *)
Inductive Event : Type :=
| Debug (message : string)
| NodeError (node : option Node.t) (error : string).

(** [super.emit(event, ...args)]: what the listeners of the host do
    with an event, return or throw. A listener is taken to leave the
    manager and the registry as they are. The events a node emits from
    its socket and timer callbacks reach the listeners outside the call
    of [init], and what a listener throws there is not thrown by
    [init]. *)
Definition Listeners : Type := Event -> Result string unit.

(** [emit(event, ...args)]: a debug event is dropped unless debug is
    enabled; every other event goes to the listeners. *)
Definition emit (listeners : Listeners) (event : Event) (m : t)
  : Result string unit :=
  match event with
  | Debug _ => if negb (debugEnabled m) then Ok tt else listeners event
  | NodeError _ _ => listeners event
  end.

(** [addNode(options)]; [outcome] is what the new node's socket does. *)
Definition addNode (o : NodeOptions) (outcome : SocketOutcome) (m : t)
  : Result string Node.t * t :=
  if negb (initialized m) then (Throw "Manager not initialized"%string, m)
  else
    match NodeManager.addNode o outcome (nodeManager m) with
    | (r, nm) => (r, set_nodeManager m nm)
    end.

(** [`Failed to connect to node ${nodeOptions.name}: ${error}`], the
    error being an [Error] object with the message [error]. *)
Definition failed_to_connect (nodeOptions : NodeOptions) (error : string) : string :=
  ("Failed to connect to node " ++ name nodeOptions ++ ": Error: " ++ error)%string.

(** The loop of [init] over the configured nodes, each addition inside
    its own [try ... catch]; [outcome i] is what the socket of the node
    at position [i] does. The catch block reports the failure to the
    listeners, and what a listener throws there leaves the loop and
    [init]. *)
Fixpoint addNodes (i : nat) (nodes : list NodeOptions)
  (outcome : nat -> SocketOutcome) (listeners : Listeners) (m : t)
  : Result string unit * t :=
  match nodes with
  | [] => (Ok tt, m)
  | nodeOptions :: rest =>
      match addNode nodeOptions (outcome i) m with
      | (Ok _, m) => addNodes (S i) rest outcome listeners m
      | (Throw error, m) =>
          match emit listeners (Debug (failed_to_connect nodeOptions error)) m with
          | Throw e => (Throw e, m)
          | Ok _ =>
              let node := Registry.getNode (name nodeOptions) (nodeManager m) in
              match emit listeners (NodeError node error) m with
              | Throw e => (Throw e, m)
              | Ok _ => addNodes (S i) rest outcome listeners m
              end
          end
      end
  end.

(** [init(clientId?)]. *)
Definition init (given : option string) (outcome : nat -> SocketOutcome)
  (listeners : Listeners) (m : t) : Result string unit * t :=
  if initialized m then (Throw "Manager already initialized"%string, m)
  else
    let id := default given (opt_clientId (options m)) in
    let m := set_clientId m (Some id) in
    if negb (truthy id) then (Throw "Client ID is required"%string, m)
    else
      let m := set_nodeManager m (NodeManager.init id (nodeManager m)) in
      let m := set_initialized m true in
      match addNodes 0 (opt_nodes (options m)) outcome listeners m with
      | (Throw e, m) => (Throw e, m)
      | (Ok _, m) => (emit listeners (Debug "Manager initialized") m, m)
      end.

(** [create(options)], for the guild of the options: [has] then [get],
    else a new session on the best node. The playerCreate event and
    the voice update sent through the forwarder, which follow the
    registration of a new session, are left out. *)
Definition create {U : Unicode} (guildId : string) (m : t)
  : Result string Player.t * t :=
  if negb (initialized m) then (Throw "Manager not initialized"%string, m)
  else
    match StrMap.get guildId (players m) with
    | Some player => (Ok player, m)
    | None =>
        match NodeManager.getBestNode None (nodeManager m) with
        | Throw e => (Throw e, m)
        | Ok node =>
            let player := PlayerControls.create node (opt_autoPlay (options m)) in
            (Ok player, set_players m (StrMap.set guildId player (players m)))
        end
    end.

(** [get(guildId)]. *)
Definition get (guildId : string) (m : t) : option Player.t :=
  StrMap.get guildId (players m).

(** [has(guildId)]. *)
Definition has (guildId : string) (m : t) : bool :=
  StrMap.has guildId (players m).

(** The names of the configured nodes that get registered when no
    listener throws, in the order of the configuration: those whose
    name is not yet taken (by a node of [taken] or by an earlier one of
    the list) and whose socket opens. *)
Fixpoint reachable (i : nat) (nodes : list NodeOptions)
  (outcome : nat -> SocketOutcome) (taken : list string) : list string :=
  match nodes with
  | [] => []
  | o :: rest =>
      if existsb (String.eqb (name o)) taken
      then reachable (S i) rest outcome taken
      else
        match outcome i with
        | Opens _ => name o :: reachable (S i) rest outcome (taken ++ [name o])
        | _ => reachable (S i) rest outcome taken
        end
  end.

(** No listener throws. *)
Definition quiet (listeners : Listeners) : Prop :=
  forall event, listeners event = Ok tt.

(** What the loop of [init] keeps true: the manager is initialised and
    the registry has its client id. *)
Definition ready (m : t) : Prop :=
  initialized m = true
  /\ truthy_opt (NodeManager.clientId (nodeManager m)) = true.

End Manager.
(** ** More samples *)

Module MoreSamples.

Import JS Node.

(** Options of one more node to add. *)
Definition fifth_options : NodeOptions := mkNodeOptions "n10" None None None None.

(** A registry set up from scratch: two nodes added, both sockets
    opening at time 0. *)
Definition two_added : list Registry.Op :=
  [Registry.Init "client";
   Registry.AddNode Samples.fourth_options (Opens 0);
   Registry.AddNode fifth_options (Opens 0)].

(** A stats endpoint that always fails. *)
Definition endpoint_down (n : Node.t) : Result string NodeStats :=
  Throw "BackendUnavailable"%string.

(** A backend that accepts every update and answers every search with
    the playlist of tracks A and B. *)
Definition env_radio : Player.Env :=
  Player.mkEnv (fun _ => Ok tt)
               (fun _ => Ok (Lavalink.LoadPlaylist [Samples.trackA; Samples.trackB]))
               (fun _ => 0%nat).

(** A track from SoundCloud. *)
Definition trackS : Lavalink.Track :=
  Lavalink.mkTrack "S"
    (Lavalink.mkTrackInfo "S" "author" 1000 "S" (Some "https://soundcloud.com/s"%string)
                          "soundcloud").

(** Three tracks stored one after the other. *)
Definition three_stored : list MetadataCache.Op :=
  [MetadataCache.Set_ 0 "A" Samples.trackA;
   MetadataCache.Set_ 1 "B" Samples.trackB;
   MetadataCache.Set_ 2 "C" Samples.trackC].

(** A cache of bound 2 holding tracks A and B. *)
Definition full_cache : MetadataCache.t :=
  MetadataCache.after (Some 2%Z) None
    [MetadataCache.Set_ 0 "A" Samples.trackA;
     MetadataCache.Set_ 1 "B" Samples.trackB].

(** A manager configured with two nodes and a client id, on a fresh
    registry. *)
Definition new_manager : Manager.t :=
  Manager.make
    (Manager.mkManagerOptions [Samples.fourth_options; fifth_options]
                              (Some "client"%string) None None)
    NodeManager.empty.

(** The socket of the first configured node opens at time 0, the
    others stay silent. *)
Definition first_opens (i : nat) : SocketOutcome :=
  match i with
  | O => Opens 0
  | S _ => Silent
  end.

(** A host without listeners: every event returns. *)
Definition no_listeners : Manager.Listeners := fun _ => Ok tt.

(** The listener of the documentation for nodeError events, which
    reads [node.options.name]: it throws when the node is undefined. *)
Definition documented_listener : Manager.Listeners :=
  fun event =>
    match event with
    | Manager.NodeError None _ =>
        Throw "TypeError: Cannot read properties of undefined"%string
    | _ => Ok tt
    end.

(** No socket opens. *)
Definition none_opens (i : nat) : SocketOutcome := Silent.

(** The manager after its initialisation. *)
Definition manager_up : Manager.t :=
  snd (Manager.init None first_opens no_listeners new_manager).

End MoreSamples.

(** * Properties *)

Unset Implicit Arguments.

(** ** Order of binary64 values

    The scan of [selectBestFromNodes] compares penalties with [<]; what
    it returns rests on [<] being compatible with [<=], also in the
    presence of NaN (which compares false with everything). *)

Section FloatOrder.

Lemma compare_cont_spec (m1 m2 : positive) :
  CompareSpec (m1 = m2) (m1 < m2)%positive (m2 < m1)%positive
              (Pos.compare_cont Eq m1 m2).
Proof.
  change (Pos.compare_cont Eq m1 m2) with (Pos.compare m1 m2).
  destruct (Pos.compare_spec m1 m2); constructor; assumption.
Qed.

Ltac split_compare_hyps :=
  repeat match goal with
  | H : context [Z.compare ?a ?b] |- _ =>
      destruct (Z.compare_spec a b); subst; simpl in H; try discriminate H
  | H : context [Pos.compare_cont Eq ?a ?b] |- _ =>
      destruct (compare_cont_spec a b); subst; simpl in H; try discriminate H
  end.

Ltac split_compare_goal :=
  repeat match goal with
  | |- context [Z.compare ?a ?b] =>
      destruct (Z.compare_spec a b); subst; simpl; try reflexivity; try lia
  | |- context [Pos.compare_cont Eq ?a ?b] =>
      destruct (compare_cont_spec a b); subst; simpl; try reflexivity; try lia
  end; try reflexivity; try lia.

Lemma SFleb_ltb_trans (x y z : spec_float) :
  SFleb x y = true -> SFltb y z = true -> SFltb x z = true.
Proof.
  unfold SFltb, SFleb.
  destruct x as [[]|[]| |[] mx ex], y as [[]|[]| |[] my ey];
    simpl; try discriminate; intros H1;
    destruct z as [[]|[]| |[] mz ez]; simpl; try discriminate;
    try reflexivity; intros H2; split_compare_hyps; split_compare_goal.
Qed.

Lemma SFltb_not_leb (x y : spec_float) :
  SFltb x y = true -> SFleb y x = false.
Proof.
  unfold SFltb, SFleb.
  destruct x as [[]|[]| |[] mx ex], y as [[]|[]| |[] my ey];
    simpl; try discriminate; try reflexivity; intros H1;
    split_compare_hyps; split_compare_goal.
Qed.

Lemma SFleb_total (x y : spec_float) :
  SFltb x y = false -> SFeqb x x = true -> SFeqb y y = true -> SFleb y x = true.
Proof.
  unfold SFltb, SFleb, SFeqb.
  destruct x as [[]|[]| |[] mx ex], y as [[]|[]| |[] my ey];
    simpl; try discriminate; try reflexivity; intros H1 _ _;
    split_compare_hyps; split_compare_goal.
Qed.

Lemma leb_total (x y : float) :
  PrimFloat.ltb x y = false -> JS.is_number x = true -> JS.is_number y = true ->
  PrimFloat.leb y x = true.
Proof.
  unfold JS.is_number. rewrite leb_spec, ltb_spec, !eqb_spec. apply SFleb_total.
Qed.

Lemma leb_ltb_trans (x y z : float) :
  PrimFloat.leb x y = true -> PrimFloat.ltb y z = true -> PrimFloat.ltb x z = true.
Proof. rewrite leb_spec, !ltb_spec. apply SFleb_ltb_trans. Qed.

Lemma ltb_not_leb (x y : float) :
  PrimFloat.ltb x y = true -> PrimFloat.leb y x = false.
Proof. rewrite leb_spec, ltb_spec. apply SFltb_not_leb. Qed.

Lemma ltb_leb (x y : float) :
  PrimFloat.ltb x y = true -> PrimFloat.leb x y = true.
Proof.
  rewrite leb_spec, ltb_spec. unfold SFltb, SFleb.
  destruct (SFcompare (Prim2SF x) (Prim2SF y)) as [[]|]; try discriminate; reflexivity.
Qed.

End FloatOrder.

(** Two closed float expressions with different values are different. *)
Ltac float_discriminate H :=
  match type of H with
  | ?a = ?b =>
      apply (f_equal (fun x => PrimFloat.eqb x b)) in H;
      vm_compute in H; discriminate H
  end.

(** ** The penalty score *)

Section Penalty.

Import JS Node Scorer.

Local Open Scope float_scope.

Lemma isConnected_iff (n : Node.t) :
  isConnected n = true <->
  state n = CONNECTED /\ exists w, ws n = Some w /\ readyState w = WS_OPEN.
Proof.
  unfold isConnected, is_open. split.
  - intros H. apply andb_prop in H. destruct H as [Hs Hw]. split.
    + destruct (state n); simpl in Hs; try discriminate; reflexivity.
    + destruct (ws n) as [w|]; [|discriminate].
      exists w. split; [reflexivity|].
      destruct (readyState w); try discriminate; reflexivity.
  - intros [Hs [w [Hw Hr]]]. rewrite Hs, Hw, Hr. reflexivity.
Qed.

Lemma getPenalty_infinite (n : Node.t) :
  isConnected n = false \/ stats n = None -> getPenalty n = Infinity.
Proof.
  unfold getPenalty. intros [H | H]; rewrite H.
  - reflexivity.
  - destruct (isConnected n); reflexivity.
Qed.

Lemma getPenalty_weighted (n : Node.t) (s : NodeStats) :
  isConnected n = true -> stats n = Some s -> getPenalty n = weightedSum s.
Proof.
  intros Hc Hs. unfold getPenalty, weightedSum, cpuTerm, memoryTerm, usageRatio.
  rewrite Hc, Hs. cbv zeta.
  destruct (gt (cores (cpu s)) 0);
    destruct (gt (used (memory s) / allocated (memory s)) lit_0_8);
    destruct (frameStats s); reflexivity.
Qed.

(** C1 (as amended). The penalty of a node is [Infinity] when the node
    is not connected or has no stats snapshot, where connected means
    what [isConnected()] tests: the state is CONNECTED and the socket
    is open. Otherwise it is the weighted sum of the snapshot, a
    running total that starts from 0: players, plus twice the playing
    players, plus (lavalink load / cores) x 100 when the core count is
    positive, plus (used/allocated - 0.8) x 500 when used/allocated
    exceeds 0.8, and, when frame stats are present, plus deficit x 2
    and then plus nulled, the two added to the total one after the
    other ([weightedSum]). *)
Theorem getPenalty_spec (n : Node.t) :
  (isConnected n = false \/ stats n = None -> getPenalty n = Infinity)
  /\ (forall s, isConnected n = true -> stats n = Some s ->
                getPenalty n = weightedSum s)
  /\ (isConnected n = true <->
      state n = CONNECTED /\ exists w, ws n = Some w /\ readyState w = WS_OPEN).
Proof.
  split; [apply getPenalty_infinite|].
  split; [intros s; apply getPenalty_weighted|].
  apply isConnected_iff.
Qed.

(** C1, an instance: a connected node with one player and an idle
    machine scores 1, and the same node without stats scores Infinity. *)
Lemma getPenalty_spec_witness :
  getPenalty (Samples.connected_node "a" None (Some (Samples.idle_stats 1)))
  = weightedSum (Samples.idle_stats 1)
  /\ getPenalty (Samples.connected_node "a" None None) = Infinity.
Proof.
  split.
  - apply (getPenalty_spec
             (Samples.connected_node "a" None (Some (Samples.idle_stats 1))));
      reflexivity.
  - apply (getPenalty_spec (Samples.connected_node "a" None None)).
    right. reflexivity.
Defined.

(** C1, the statement as worded fails, in two ways. A node whose state
    is CONNECTED and which holds a stats snapshot, but whose socket is
    closing, scores Infinity and not the weighted sum (which is 1
    here). And a connected node under light load, with 1 frame of
    deficit and 2 nulled frames, scores 4.333333333333334, while the
    sum with the frame term (1 x 2 + 2) formed first is
    4.333333333333333. *)
Lemma penalty_by_state_fails :
  ~ penalty_by_state Samples.closing_node
  /\ ~ penalty_by_state Samples.light_node.
Proof.
  split.
  - intros [_ H].
    specialize (H (Samples.idle_stats 1) eq_refl eq_refl).
    float_discriminate H.
  - intros [_ H].
    specialize (H Samples.light_load eq_refl eq_refl).
    float_discriminate H.
Qed.

End Penalty.

(** ** The penalty breakdown against the scalar penalty *)

Section PenaltyDetails.

Import JS Node Scorer.

Local Open Scope float_scope.

Lemma details_infinite (n : Node.t) :
  isConnected n = false \/ stats n = None ->
  total (getPenaltyDetails n) = Infinity /\ getPenalty n = Infinity.
Proof.
  intros H. split; [|apply getPenalty_infinite; exact H].
  unfold getPenaltyDetails. destruct H as [H | H]; rewrite H.
  - reflexivity.
  - destruct (isConnected n); reflexivity.
Qed.

Lemma details_components (n : Node.t) (s : NodeStats) :
  isConnected n = true -> stats n = Some s ->
  let d := getPenaltyDetails n in
  d_players d = players s
  /\ d_playingPlayers d = playingPlayers s * 2
  /\ d_cpu d = (if gt (cores (cpu s)) 0 then cpuTerm s else 0)
  /\ d_memory d = (if gt (usageRatio s) lit_0_8 then memoryTerm s else 0)
  /\ d_frames d = match frameStats s with
                  | Some f => deficit f * 2 + nulled f
                  | None => 0
                  end.
Proof.
  intros Hc Hs. unfold getPenaltyDetails. rewrite Hc, Hs.
  repeat split; reflexivity.
Qed.

(** C10 (as amended). When the node is not connected or has no stats,
    [getPenaltyDetails().total] and [getPenalty()] are both Infinity.
    Otherwise the two add up the same terms, the components the
    breakdown reports, but in different ways: [total] is
    players + playingPlayers + cpu + memory + frames with 0 for a
    component that does not apply and the frame component summed
    beforehand, while [getPenalty] is the running total that starts
    from 0, skips a component that does not apply and adds deficit x 2
    and nulled one after the other. The two sums are the same real
    number and can differ in the last bit as binary64 values. *)
Theorem getPenaltyDetails_total (n : Node.t) :
  (isConnected n = false \/ stats n = None ->
   total (getPenaltyDetails n) = Infinity /\ getPenalty n = Infinity)
  /\ (forall s, isConnected n = true -> stats n = Some s ->
      let d := getPenaltyDetails n in
      total d = d_players d + d_playingPlayers d + d_cpu d + d_memory d + d_frames d
      /\ getPenalty n = runningTotal s d
      /\ d_players d = players s
      /\ d_playingPlayers d = playingPlayers s * 2
      /\ d_cpu d = (if gt (cores (cpu s)) 0 then cpuTerm s else 0)
      /\ d_memory d = (if gt (usageRatio s) lit_0_8 then memoryTerm s else 0)
      /\ d_frames d = match frameStats s with
                      | Some f => deficit f * 2 + nulled f
                      | None => 0
                      end).
Proof.
  split; [apply details_infinite|].
  intros s Hc Hs d.
  split.
  { subst d. unfold getPenaltyDetails. rewrite Hc, Hs. reflexivity. }
  split.
  { rewrite (getPenalty_weighted n s Hc Hs).
    subst d. unfold getPenaltyDetails, runningTotal, weightedSum.
    rewrite Hc, Hs. unfold cpuTerm, memoryTerm, usageRatio.
    cbv beta iota zeta delta [d_players d_playingPlayers d_cpu d_memory].
    destruct (gt (cores (cpu s)) 0);
      destruct (gt (used (memory s) / allocated (memory s)) lit_0_8);
      destruct (frameStats s); reflexivity. }
  apply (details_components n s Hc Hs).
Qed.

(** C10, an instance: a node without stats has total and penalty
    Infinity; the lightly loaded node has the components 0, 0,
    (0.01 / 3) x 100, 0 and 1 x 2 + 2. *)
Lemma getPenaltyDetails_total_witness :
  (total (getPenaltyDetails (Samples.connected_node "a" None None)) = Infinity
   /\ getPenalty (Samples.connected_node "a" None None) = Infinity)
  /\ total (getPenaltyDetails Samples.light_node)
     = 0 + 0 * 2 + (0x1.47ae147ae147bp-7 / 3) * 100 + 0 + (1 * 2 + 2).
Proof.
  split.
  - apply (getPenaltyDetails_total (Samples.connected_node "a" None None)).
    right. reflexivity.
  - pose proof (proj2 (getPenaltyDetails_total Samples.light_node)
                      Samples.light_load eq_refl eq_refl) as H.
    cbv zeta in H. destruct H as [H _]. rewrite H. reflexivity.
Defined.

(** C10, the statement as worded fails: on the lightly loaded node the
    total of the breakdown is 4.333333333333333 and the penalty is
    4.333333333333334. *)
Lemma total_differs_from_penalty :
  total (getPenaltyDetails Samples.light_node) <> getPenalty Samples.light_node.
Proof.
  intros H. float_discriminate H.
Qed.

End PenaltyDetails.

(** ** Selection of the best node *)

Section BestNode.

Import JS Node NodeManager Selection.

Variable f : PenaltyCalculator.

Lemma leb_false_lt_false (x y : float) :
  PrimFloat.leb x y = false -> lt x y = false.
Proof.
  intros H. unfold lt. destruct (PrimFloat.ltb x y) eqn:E; [|reflexivity].
  apply ltb_leb in E. congruence.
Qed.

Lemma lt_irrefl (x : float) : lt x x = false.
Proof.
  unfold lt. destruct (PrimFloat.ltb x x) eqn:E; [|reflexivity].
  pose proof (ltb_leb _ _ E) as H1. pose proof (ltb_not_leb _ _ E) as H2.
  congruence.
Qed.

Lemma scan_step_keeps (seen : list Node.t) (b x : Node.t) :
  first_minimum f seen b ->
  first_minimum f (seen ++ [x]) (fst (scan_step f (b, f b) x))
  /\ snd (scan_step f (b, f b) x) = f (fst (scan_step f (b, f b) x)).
Proof.
  intros (pre & post & Hseen & Hpre & Hpost).
  unfold scan_step. simpl snd. destruct (lt (f x) (f b)) eqn:E; simpl.
  - split; [|reflexivity].
    exists seen, []. split; [reflexivity|]. split; [|intros y []].
    intros y Hy. rewrite Hseen in Hy. apply in_app_or in Hy.
    destruct (PrimFloat.leb (f y) (f x)) eqn:L; [|reflexivity].
    pose proof (leb_ltb_trans _ _ _ L E) as Hyb.
    destruct Hy as [Hy | [Hy | Hy]].
    + apply Hpre in Hy. apply ltb_leb in Hyb. congruence.
    + subst y. pose proof (lt_irrefl (f b)) as Hirr. unfold lt in Hirr. congruence.
    + apply Hpost in Hy. unfold lt in Hy. congruence.
  - split; [|reflexivity].
    exists pre, (post ++ [x]). split.
    + rewrite Hseen, <- app_assoc. reflexivity.
    + split; [exact Hpre|].
      intros y Hy. apply in_app_or in Hy. destruct Hy as [Hy | [Hy | []]].
      * apply Hpost; exact Hy.
      * subst y. exact E.
Qed.

Lemma scan_keeps (rest seen : list Node.t) (b : Node.t) :
  first_minimum f seen b ->
  first_minimum f (seen ++ rest) (fst (fold_left (scan_step f) rest (b, f b))).
Proof.
  revert seen b. induction rest as [|x rest IH]; intros seen b H.
  - rewrite app_nil_r. exact H.
  - simpl fold_left.
    destruct (scan_step_keeps seen b x H) as [H1 H2].
    destruct (scan_step f (b, f b) x) as [b' p'] eqn:E. simpl in H1, H2.
    subst p'. replace (seen ++ x :: rest) with ((seen ++ [x]) ++ rest)
      by (rewrite <- app_assoc; reflexivity).
    apply IH. exact H1.
Qed.

Lemma first_minimum_lowest (seen : list Node.t) (b : Node.t) :
  first_minimum f seen b -> forall x, In x seen -> lt (f x) (f b) = false.
Proof.
  intros (pre & post & Hseen & Hpre & Hpost) x Hx.
  rewrite Hseen in Hx. apply in_app_or in Hx. destruct Hx as [Hx | [Hx | Hx]].
  - apply leb_false_lt_false. apply Hpre. exact Hx.
  - subst x. apply lt_irrefl.
  - apply Hpost. exact Hx.
Qed.

End BestNode.

Section GetBestNode.

Import JS Node NodeManager Selection.

Local Open Scope float_scope.

Lemma selectBestFromNodes_first_minimum (nm : NodeManager.t)
  (first : Node.t) (rest : list Node.t) :
  exists b,
    selectBestFromNodes nm (first :: rest) = Some b
    /\ first_minimum (penaltyFn nm) (first :: rest) b.
Proof.
  unfold selectBestFromNodes.
  eexists. split; [reflexivity|].
  apply (scan_keeps (penaltyFn nm) rest [first] first).
  exists [], []. split; [reflexivity|]. split; intros y [].
Qed.

Lemma candidates_connected {U : Unicode} (hint : option string)
  (nm : NodeManager.t) (x : Node.t) :
  In x (candidates hint nm) -> In x (getConnectedNodes nm).
Proof.
  unfold candidates. destruct hint as [v|]; [|auto].
  destruct (truthy v); [|auto].
  destruct (filter (inRegion v) (getConnectedNodes nm)) as [|n l] eqn:E; [auto|].
  intros H. rewrite <- E in H. apply filter_In in H. tauto.
Qed.

Lemma getBestNode_candidates {U : Unicode} (hint : option string) (nm : NodeManager.t) :
  getBestNode hint nm =
  match getConnectedNodes nm with
  | [] => Throw NO_CONNECTED_NODES
  | _ :: _ => picked (selectBestFromNodes nm (candidates hint nm))
  end.
Proof.
  unfold getBestNode, candidates.
  destruct (getConnectedNodes nm) as [|c cs] eqn:Hc; [reflexivity|].
  destruct hint as [v|]; [|reflexivity].
  destruct (truthy v); [|reflexivity].
  destruct (filter (inRegion v) (c :: cs)); reflexivity.
Qed.

Lemma getBestNode_first_minimum {U : Unicode} (hint : option string)
  (nm : NodeManager.t) (r : Node.t) :
  getBestNode hint nm = Ok r ->
  first_minimum (penaltyFn nm) (candidates hint nm) r.
Proof.
  rewrite getBestNode_candidates.
  destruct (getConnectedNodes nm) as [|c cs] eqn:Hc; [discriminate|].
  destruct (candidates hint nm) as [|first rest] eqn:Hcand; [discriminate|].
  destruct (selectBestFromNodes_first_minimum nm first rest) as (b & Hb & Hmin).
  rewrite Hb. simpl. intros H. injection H as <-. exact Hmin.
Qed.

Lemma first_minimum_In (g : PenaltyCalculator) (l : list Node.t) (b : Node.t) :
  first_minimum g l b -> In b l.
Proof.
  intros (pre & post & -> & _). apply in_or_app. right. left. reflexivity.
Qed.

(** C2 (as amended). On a non-empty list the scan returns a node of the
    list that no node undercuts and that comes first among those
    scoring as little: no node of the list has a penalty below its own
    (so its penalty is at most that of every node, NaN penalties
    apart), and no node before it has a penalty below or equal to its
    own. On three nodes with penalties 5, 2 and 8 it returns the one
    with penalty 2. Whatever [getBestNode] returns is a connected node
    of the set the selection is made from (the connected nodes of the
    hinted region when there are any, all connected nodes otherwise)
    and a first minimum of that set; under the built-in scorer it is a
    stats-less node only when no node of that set has a penalty below
    Infinity. *)
Theorem selectBest_spec {U : Unicode} (nm : NodeManager.t) :
  (forall first rest, exists b,
      selectBestFromNodes nm (first :: rest) = Some b
      /\ first_minimum (penaltyFn nm) (first :: rest) b
      /\ (forall x, In x (first :: rest) ->
                    lt (penaltyFn nm x) (penaltyFn nm b) = false)
      /\ (forall x, In x (first :: rest) ->
                    is_number (penaltyFn nm x) = true ->
                    is_number (penaltyFn nm b) = true ->
                    PrimFloat.leb (penaltyFn nm b) (penaltyFn nm x) = true))
  /\ (forall a b c,
      penaltyFn nm a = 5 -> penaltyFn nm b = 2 -> penaltyFn nm c = 8 ->
      selectBestFromNodes nm [a; b; c] = Some b)
  /\ (forall hint r, getBestNode hint nm = Ok r ->
      In r (candidates hint nm)
      /\ isConnected r = true
      /\ first_minimum (penaltyFn nm) (candidates hint nm) r
      /\ (customPenaltyCalculator nm = None -> stats r = None ->
          forall x, In x (candidates hint nm) -> lt (getPenalty x) Infinity = false)).
Proof.
  split; [|split].
  - intros first rest.
    destruct (selectBestFromNodes_first_minimum nm first rest) as (b & Hb & Hmin).
    exists b. split; [exact Hb|]. split; [exact Hmin|]. split.
    + apply first_minimum_lowest. exact Hmin.
    + intros x Hx Hnx Hnb. apply leb_total; try assumption.
      apply (first_minimum_lowest (penaltyFn nm) _ _ Hmin x Hx).
  - intros a b c Ha Hb Hc. unfold selectBestFromNodes, scan_step. simpl.
    rewrite Ha, Hb, Hc. reflexivity.
  - intros hint r Hr.
    pose proof (getBestNode_first_minimum hint nm r Hr) as Hmin.
    pose proof (first_minimum_In _ _ _ Hmin) as Hin.
    split; [exact Hin|]. split.
    + apply candidates_connected in Hin. unfold getConnectedNodes in Hin.
      apply filter_In in Hin. tauto.
    + split; [exact Hmin|].
      intros Hcustom Hstats x Hx.
      pose proof (first_minimum_lowest _ _ _ Hmin x Hx) as Hlow.
      unfold penaltyFn in Hlow. rewrite Hcustom in Hlow.
      rewrite (getPenalty_infinite r (or_intror Hstats)) in Hlow. exact Hlow.
Qed.

(** C2, an instance: of the three sample nodes scoring 5, 2 and 8 the
    registry picks the one scoring 2. *)
Lemma selectBest_spec_witness :
  selectBestFromNodes Samples.three_nodes
                      [Samples.node5; Samples.node2; Samples.node8]
  = Some Samples.node2
  /\ getBestNode (U := Samples.ascii_table) None Samples.three_nodes
     = Ok Samples.node2.
Proof.
  split.
  - apply (selectBest_spec (U := Samples.ascii_table) Samples.three_nodes);
      reflexivity.
  - reflexivity.
Defined.

End GetBestNode.

(** ** Regional narrowing *)

Section Region.

Import JS Node NodeManager Selection.

Lemma includes_unfold (hay needle : string) :
  includes hay needle =
  String.prefix needle hay
  || match hay with
     | EmptyString => false
     | String _ hay' => includes hay' needle
     end.
Proof. destruct hay; reflexivity. Qed.

Lemma prefix_iff (p s : string) :
  String.prefix p s = true <-> exists post, s = (p ++ post)%string.
Proof.
  revert s. induction p as [|c p IH]; intros s.
  - split; [intros _; exists s; reflexivity|intros _; destruct s; reflexivity].
  - destruct s as [|d s]; simpl.
    + split; [discriminate|intros [post H]; discriminate].
    + destruct (ascii_dec c d) as [->|Hne].
      * rewrite IH. split; intros [post H]; exists post.
        -- rewrite H. reflexivity.
        -- injection H as H. exact H.
      * split; [discriminate|].
        intros [post H]. injection H as H1 H2. congruence.
Qed.

(** [includes] decides occurrence as a contiguous run. *)
Lemma includes_iff (hay needle : string) :
  includes hay needle = true <-> substring_of needle hay.
Proof.
  unfold substring_of. induction hay as [|c hay IH]; rewrite includes_unfold.
  - rewrite orb_false_r, prefix_iff. split.
    + intros [post H]. exists EmptyString, post. exact H.
    + intros [pre [post H]]. destruct pre; [exists post; exact H|discriminate].
  - rewrite orb_true_iff, prefix_iff, IH. split.
    + intros [[post H] | [pre [post H]]].
      * exists EmptyString, post. exact H.
      * exists (String c pre), post. simpl. rewrite H. reflexivity.
    + intros [pre [post H]]. destruct pre as [|d pre].
      * left. exists post. exact H.
      * right. simpl in H. injection H as _ H. exists pre, post. exact H.
Qed.

Lemma matchesRegion_iff {U : Unicode} (nodeRegion voiceRegion : string) :
  matchesRegion nodeRegion voiceRegion = true
  <-> normalized_match nodeRegion voiceRegion.
Proof.
  unfold matchesRegion, normalized_match.
  rewrite orb_true_iff, !includes_iff. reflexivity.
Qed.

Lemma truthy_iff (s : string) : truthy s = true <-> s <> EmptyString.
Proof.
  destruct s; simpl; split; congruence.
Qed.

(** *** Case and separators, character by character *)

Lemma separator_iff (c : ascii) :
  (Ascii.eqb c "-" || Ascii.eqb c "_")%char = true <-> separator c.
Proof.
  unfold separator. rewrite orb_true_iff, !Ascii.eqb_eq. reflexivity.
Qed.

Lemma strip_separator (c : ascii) (s : string) :
  separator c -> strip_separators (String c s) = strip_separators s.
Proof.
  intros H. apply separator_iff in H. simpl. rewrite H. reflexivity.
Qed.

Lemma strip_letter (c : ascii) (s : string) :
  ~ separator c -> strip_separators (String c s) = String c (strip_separators s).
Proof.
  intros H. simpl.
  destruct (Ascii.eqb c "-" || Ascii.eqb c "_")%char eqn:E; [|reflexivity].
  apply separator_iff in E. contradiction.
Qed.

Lemma capital_iff (c : ascii) :
  (Nat.leb 65 (nat_of_ascii c) && Nat.leb (nat_of_ascii c) 90) = true
  <-> (65 <= nat_of_ascii c <= 90)%nat.
Proof.
  rewrite andb_true_iff, !Nat.leb_le. reflexivity.
Qed.

Lemma lower_ascii_capital (c : ascii) :
  (65 <= nat_of_ascii c <= 90)%nat ->
  lower_ascii c = ascii_of_nat (nat_of_ascii c + 32).
Proof.
  intros H. apply capital_iff in H. unfold lower_ascii. cbv zeta.
  rewrite H. reflexivity.
Qed.

Lemma lower_ascii_other (c : ascii) :
  ~ (65 <= nat_of_ascii c <= 90)%nat -> lower_ascii c = c.
Proof.
  intros H. unfold lower_ascii. cbv zeta.
  destruct (Nat.leb 65 (nat_of_ascii c) && Nat.leb (nat_of_ascii c) 90) eqn:E;
    [|reflexivity].
  apply capital_iff in E. contradiction.
Qed.

Lemma separator_code (c : ascii) :
  separator c -> nat_of_ascii c = 45%nat \/ nat_of_ascii c = 95%nat.
Proof.
  intros [-> | ->]; [left|right]; reflexivity.
Qed.

Lemma lower_ascii_separator (c : ascii) : separator c -> lower_ascii c = c.
Proof.
  intros H. apply lower_ascii_other. apply separator_code in H. lia.
Qed.

Lemma lower_ascii_letter (c : ascii) : ~ separator c -> ~ separator (lower_ascii c).
Proof.
  intros Hc Hl.
  destruct (Nat.leb 65 (nat_of_ascii c) && Nat.leb (nat_of_ascii c) 90) eqn:E.
  - apply capital_iff in E. rewrite (lower_ascii_capital c E) in Hl.
    apply separator_code in Hl. rewrite nat_ascii_embedding in Hl; lia.
  - rewrite lower_ascii_other in Hl; [contradiction|].
    intros H. apply capital_iff in H. congruence.
Qed.

Lemma same_letter_lower (c d : ascii) :
  same_letter c d -> lower_ascii c = lower_ascii d.
Proof.
  assert (Hcap : forall a b : ascii,
             (65 <= nat_of_ascii a <= 90)%nat ->
             nat_of_ascii b = (nat_of_ascii a + 32)%nat ->
             lower_ascii a = lower_ascii b).
  { intros a b Ha Hb. rewrite (lower_ascii_capital a Ha).
    rewrite (lower_ascii_other b) by lia.
    rewrite <- Hb. apply ascii_nat_embedding. }
  intros [-> | [[H1 H2] | [H1 H2]]].
  - reflexivity.
  - apply Hcap; assumption.
  - symmetry. apply Hcap; assumption.
Qed.

Lemma same_letter_lowered (c : ascii) : same_letter c (lower_ascii c).
Proof.
  destruct (Nat.leb 65 (nat_of_ascii c) && Nat.leb (nat_of_ascii c) 90) eqn:E.
  - apply capital_iff in E. right. left. split; [exact E|].
    rewrite (lower_ascii_capital c E). apply nat_ascii_embedding. lia.
  - left. symmetry. apply lower_ascii_other.
    intros H. apply capital_iff in H. congruence.
Qed.

(** *** Tokens that read the same *)

Local Abbreviation folded s := (strip_separators (asciiLowerCase s)).

Lemma folded_separator (c : ascii) (s : string) :
  separator c -> folded (String c s) = folded s.
Proof.
  intros H. simpl asciiLowerCase. rewrite (lower_ascii_separator c H).
  apply strip_separator. exact H.
Qed.

Lemma folded_letter (c : ascii) (s : string) :
  ~ separator c -> folded (String c s) = String (lower_ascii c) (folded s).
Proof.
  intros H. simpl asciiLowerCase. apply strip_letter.
  apply lower_ascii_letter. exact H.
Qed.

Lemma folded_app (a b : string) :
  folded (a ++ b) = (folded a ++ folded b)%string.
Proof.
  induction a as [|c a IH]; [reflexivity|].
  change (String c a ++ b)%string with (String c (a ++ b)).
  destruct (Ascii.eqb c "-" || Ascii.eqb c "_")%char eqn:E.
  - apply separator_iff in E. rewrite !(folded_separator _ _ E). exact IH.
  - assert (Hn : ~ separator c).
    { intros H. apply separator_iff in H. congruence. }
    rewrite !(folded_letter _ _ Hn), IH. reflexivity.
Qed.

(** Tokens that read the same fold to the same string. *)
Lemma alike_folded (a b : string) : alike a b -> folded a = folded b.
Proof.
  intros H. induction H as [|c a b Hc _ IH|c a b Hc _ IH|c d a b Hc Hd Hcd _ IH].
  - reflexivity.
  - rewrite (folded_separator _ _ Hc). exact IH.
  - rewrite (folded_separator _ _ Hc). exact IH.
  - rewrite (folded_letter _ _ Hc), (folded_letter _ _ Hd).
    rewrite (same_letter_lower c d Hcd), IH. reflexivity.
Qed.

(** A token reads the same as its folded form. *)
Lemma alike_fold (a : string) : alike a (folded a).
Proof.
  induction a as [|c a IH]; [constructor|].
  destruct (Ascii.eqb c "-" || Ascii.eqb c "_")%char eqn:E.
  - apply separator_iff in E. rewrite (folded_separator _ _ E).
    apply alike_skip_left; assumption.
  - assert (Hn : ~ separator c).
    { intros H. apply separator_iff in H. congruence. }
    rewrite (folded_letter _ _ Hn).
    apply alike_letter; [exact Hn|apply lower_ascii_letter; exact Hn| |exact IH].
    apply same_letter_lowered.
Qed.

Lemma substring_folded (x x' y y' : string) :
  alike x x' -> alike y y' -> substring_of x' y' ->
  substring_of (folded x) (folded y).
Proof.
  intros Hx Hy (pre & post & E).
  rewrite (alike_folded _ _ Hx), (alike_folded _ _ Hy), E, !folded_app.
  exists (folded pre), (folded post). reflexivity.
Qed.

(** The fuzzy match, said on the folded tokens. *)
Lemma fuzzy_match_folded (r v : string) :
  fuzzy_match r v <->
  substring_of (folded v) (folded r) \/ substring_of (folded r) (folded v).
Proof.
  split.
  - intros (r' & v' & Hr & Hv & [H | H]).
    + left. exact (substring_folded _ _ _ _ Hv Hr H).
    + right. exact (substring_folded _ _ _ _ Hr Hv H).
  - intros H. exists (folded r), (folded v).
    split; [apply alike_fold|]. split; [apply alike_fold|exact H].
Qed.

Lemma normalize_ascii {U : Unicode} (s : string) :
  ascii_only s = true -> normalize s = folded s.
Proof.
  intros H. unfold normalize. rewrite (toLowerCase_ascii s H). reflexivity.
Qed.

(** On ASCII tokens [matchesRegion] decides the fuzzy match. *)
Lemma matchesRegion_fuzzy {U : Unicode} (nodeRegion voiceRegion : string) :
  ascii_only nodeRegion = true -> ascii_only voiceRegion = true ->
  matchesRegion nodeRegion voiceRegion = true <-> fuzzy_match nodeRegion voiceRegion.
Proof.
  intros Hr Hv. rewrite matchesRegion_iff, fuzzy_match_folded.
  unfold normalized_match. rewrite (normalize_ascii _ Hr), (normalize_ascii _ Hv).
  reflexivity.
Qed.

(** *** The regional subset *)

Lemma inRegion_iff {U : Unicode} (voiceRegion : string) (n : Node.t) :
  inRegion voiceRegion n = true <->
  exists r, opt_region (options n) = Some r /\ r <> EmptyString
            /\ normalized_match r voiceRegion.
Proof.
  unfold inRegion.
  destruct (opt_region (options n)) as [r|].
  - rewrite andb_true_iff, truthy_iff, matchesRegion_iff. split.
    + intros [H1 H2]. exists r. auto.
    + intros (r' & Hr & H1 & H2). injection Hr as <-. auto.
  - split; [discriminate|]. intros (r & Hr & _). discriminate.
Qed.

Lemma inRegion_fuzzy {U : Unicode} (voiceRegion : string) (n : Node.t) :
  ascii_only voiceRegion = true ->
  (forall r, opt_region (options n) = Some r -> ascii_only r = true) ->
  inRegion voiceRegion n = true <-> region_matches voiceRegion n.
Proof.
  intros Hv Hn. unfold inRegion, region_matches.
  destruct (opt_region (options n)) as [r|].
  - rewrite andb_true_iff, truthy_iff, (matchesRegion_fuzzy r voiceRegion (Hn r eq_refl) Hv).
    split.
    + intros [H1 H2]. exists r. auto.
    + intros (r' & Hr & H1 & H2). injection Hr as <-. auto.
  - split; [discriminate|]. intros (r & Hr & _). discriminate.
Qed.

(** On ASCII tokens the filter does not depend on the case tables. *)
Lemma inRegion_tables (U V : Unicode) (voiceRegion : string) (n : Node.t) :
  ascii_only voiceRegion = true ->
  (forall r, opt_region (options n) = Some r -> ascii_only r = true) ->
  inRegion (U := U) voiceRegion n = inRegion (U := V) voiceRegion n.
Proof.
  intros Hv Hn. unfold inRegion, matchesRegion.
  destruct (opt_region (options n)) as [r|]; [|reflexivity].
  rewrite !(normalize_ascii r (Hn r eq_refl)), !(normalize_ascii voiceRegion Hv).
  reflexivity.
Qed.

Lemma getBestNode_tables (U V : Unicode) (voiceRegion : string) (nm : NodeManager.t) :
  ascii_only voiceRegion = true -> ascii_regions nm ->
  getBestNode (U := U) (Some voiceRegion) nm
  = getBestNode (U := V) (Some voiceRegion) nm.
Proof.
  intros Hv Hnm. unfold getBestNode.
  assert (E : filter (inRegion (U := U) voiceRegion) (getConnectedNodes nm)
              = filter (inRegion (U := V) voiceRegion) (getConnectedNodes nm)).
  { apply filter_ext_in. intros n Hn. apply inRegion_tables; [exact Hv|].
    intros r Hr. apply (Hnm n r); [|exact Hr].
    unfold getConnectedNodes in Hn. apply filter_In in Hn. tauto. }
  cbv zeta. rewrite E. reflexivity.
Qed.

Lemma connected_iff (nm : NodeManager.t) (n : Node.t) :
  In n (getConnectedNodes nm) <->
  In n (getNodes nm) /\ state n = CONNECTED
  /\ exists w, ws n = Some w /\ readyState w = WS_OPEN.
Proof.
  unfold getConnectedNodes. rewrite filter_In, isConnected_iff. reflexivity.
Qed.

Lemma regional_iff {U : Unicode} (voiceRegion : string) (nm : NodeManager.t) (n : Node.t) :
  In n (regional voiceRegion nm) <->
  In n (getConnectedNodes nm)
  /\ exists r, opt_region (options n) = Some r /\ r <> EmptyString
               /\ normalized_match r voiceRegion.
Proof.
  unfold regional. rewrite filter_In, inRegion_iff. reflexivity.
Qed.

Lemma regional_fuzzy {U : Unicode} (voiceRegion : string) (nm : NodeManager.t) (n : Node.t) :
  ascii_only voiceRegion = true -> ascii_regions nm ->
  In n (regional voiceRegion nm) <->
  In n (getConnectedNodes nm) /\ region_matches voiceRegion n.
Proof.
  intros Hv Hnm. unfold regional. rewrite filter_In. split.
  - intros [Hc Hr]. split; [exact Hc|].
    apply (inRegion_fuzzy voiceRegion n Hv); [|exact Hr].
    intros r. apply Hnm. apply connected_iff in Hc. tauto.
  - intros [Hc Hr]. split; [exact Hc|].
    apply (inRegion_fuzzy voiceRegion n Hv); [|exact Hr].
    intros r. apply Hnm. apply connected_iff in Hc. tauto.
Qed.

Lemma candidates_hinted {U : Unicode} (voiceRegion : string) (nm : NodeManager.t) :
  voiceRegion <> EmptyString ->
  candidates (Some voiceRegion) nm =
  match regional voiceRegion nm with
  | [] => getConnectedNodes nm
  | _ :: _ => regional voiceRegion nm
  end.
Proof.
  intros H. apply truthy_iff in H. unfold candidates, regional. rewrite H.
  destruct (filter (inRegion voiceRegion) (getConnectedNodes nm)); reflexivity.
Qed.

Lemma candidates_nonempty {U : Unicode} (hint : option string) (nm : NodeManager.t) :
  getConnectedNodes nm <> [] -> candidates hint nm <> [].
Proof.
  unfold candidates. intros H. destruct hint as [v|]; [|exact H].
  destruct (truthy v); [|exact H].
  destruct (filter (inRegion v) (getConnectedNodes nm)); [exact H|discriminate].
Qed.

Lemma getBestNode_returns {U : Unicode} (hint : option string) (nm : NodeManager.t) :
  getConnectedNodes nm <> [] ->
  exists r, getBestNode hint nm = Ok r
            /\ selectBestFromNodes nm (candidates hint nm) = Some r.
Proof.
  intros H. rewrite getBestNode_candidates.
  pose proof (candidates_nonempty hint nm H) as Hc.
  destruct (getConnectedNodes nm) as [|c cs]; [congruence|].
  destruct (candidates hint nm) as [|first rest]; [congruence|].
  destruct (selectBestFromNodes_first_minimum nm first rest) as (b & Hb & _).
  exists b. rewrite Hb. split; reflexivity.
Qed.

Lemma getBestNode_fails_iff {U : Unicode} (hint : option string) (nm : NodeManager.t) :
  getBestNode hint nm = Throw NO_CONNECTED_NODES <-> getConnectedNodes nm = [].
Proof.
  split.
  - intros H. destruct (getConnectedNodes nm) as [|c cs] eqn:E; [reflexivity|].
    destruct (getBestNode_returns hint nm) as (r & Hr & _); [congruence|].
    congruence.
  - intros H. unfold getBestNode. rewrite H. reflexivity.
Qed.

(** C3 (as amended). For a call with a region hint (a non-empty
    string), the connected set being the nodes of the registry for
    which [isConnected()] holds (state CONNECTED and socket open): the
    call fails with the no-connected-nodes error exactly when the
    connected set is empty, and returns a node otherwise; the regional
    subset holds exactly the nodes of the connected set whose
    configured region token is non-empty and matches the hint once
    both are lower-cased by [toLowerCase] and stripped of hyphens and
    underscores (one occurs in the other); when the hint and the
    configured tokens are ASCII strings, these are exactly the nodes
    whose token fuzzily matches the hint (ignoring letter case and the
    separators hyphen and underscore, one token occurs in the other);
    the node returned is selected from the regional subset when that is
    non-empty and from the connected set otherwise. *)
Theorem getBestNode_regional {U : Unicode} (voiceRegion : string) (nm : NodeManager.t) :
  voiceRegion <> EmptyString ->
  (getBestNode (Some voiceRegion) nm = Throw NO_CONNECTED_NODES
   <-> getConnectedNodes nm = [])
  /\ (getConnectedNodes nm <> [] ->
      exists r, getBestNode (Some voiceRegion) nm = Ok r)
  /\ (forall n, In n (getConnectedNodes nm) <->
                In n (getNodes nm) /\ state n = CONNECTED
                /\ exists w, ws n = Some w /\ readyState w = WS_OPEN)
  /\ (forall n, In n (regional voiceRegion nm) <->
                In n (getConnectedNodes nm)
                /\ exists r, opt_region (options n) = Some r /\ r <> EmptyString
                             /\ normalized_match r voiceRegion)
  /\ (ascii_only voiceRegion = true -> ascii_regions nm ->
      forall n, In n (regional voiceRegion nm) <->
                In n (getConnectedNodes nm) /\ region_matches voiceRegion n)
  /\ (regional voiceRegion nm <> [] ->
      exists r, getBestNode (Some voiceRegion) nm = Ok r
                /\ selectBestFromNodes nm (regional voiceRegion nm) = Some r)
  /\ (regional voiceRegion nm = [] -> getConnectedNodes nm <> [] ->
      exists r, getBestNode (Some voiceRegion) nm = Ok r
                /\ selectBestFromNodes nm (getConnectedNodes nm) = Some r).
Proof.
  intros Hhint.
  split; [apply getBestNode_fails_iff|].
  split.
  { intros H. destruct (getBestNode_returns (Some voiceRegion) nm H) as (r & Hr & _).
    exists r. exact Hr. }
  split; [intros n; apply connected_iff|].
  split; [intros n; apply regional_iff|].
  split; [intros Hv Hnm n; apply regional_fuzzy; assumption|].
  pose proof (candidates_hinted voiceRegion nm Hhint) as Hcand.
  split.
  - intros Hreg.
    assert (Hconn : getConnectedNodes nm <> []).
    { intros E. apply Hreg. unfold regional. rewrite E. reflexivity. }
    destruct (getBestNode_returns (Some voiceRegion) nm Hconn) as (r & Hr & Hs).
    exists r. split; [exact Hr|]. rewrite Hcand in Hs.
    destruct (regional voiceRegion nm); [congruence|exact Hs].
  - intros Hreg Hconn.
    destruct (getBestNode_returns (Some voiceRegion) nm Hconn) as (r & Hr & Hs).
    exists r. split; [exact Hr|]. rewrite Hcand, Hreg in Hs. exact Hs.
Qed.

Lemma two_regions_ascii : ascii_regions Samples.two_regions.
Proof.
  intros n r Hin Hr. simpl in Hin.
  destruct Hin as [<- | [<- | []]]; simpl in Hr; injection Hr as <-; reflexivity.
Defined.

(** C3, an instance: with a node in Europe and a node in the US, the
    hint "US_West" fuzzily matches the region token "us-west" of the
    node in the US, and the call returns that node. *)
Lemma getBestNode_regional_witness :
  getBestNode (U := Samples.ascii_table) (Some "US_West"%string) Samples.two_regions
  = Ok Samples.us_node
  /\ selectBestFromNodes Samples.two_regions
       (regional (U := Samples.ascii_table) "US_West" Samples.two_regions)
     = Some Samples.us_node
  /\ region_matches "US_West" Samples.us_node.
Proof.
  assert (H : "US_West"%string <> EmptyString) by discriminate.
  destruct (getBestNode_regional (U := Samples.ascii_table)
              "US_West" Samples.two_regions H)
    as (_ & _ & _ & _ & Hfuzzy & Hreg & _).
  destruct Hreg as (r & Hr & Hs); [discriminate|].
  assert (E : r = Samples.us_node).
  { assert (Hc : getBestNode (U := Samples.ascii_table)
                   (Some "US_West"%string) Samples.two_regions
                 = Ok Samples.us_node) by reflexivity.
    congruence. }
  subst r. split; [assumption|]. split; [assumption|].
  destruct (proj1 (Hfuzzy eq_refl two_regions_ascii Samples.us_node)) as [_ Hm];
    [left; reflexivity|exact Hm].
Defined.

(** C3, the statement as worded fails: a registry whose only node is in
    state CONNECTED while its socket is closing has a node in the
    CONNECTED state, and the call fails with the no-connected-nodes
    error all the same, whatever the case tables. *)
Lemma fails_by_state_fails :
  ~ exists U : Unicode,
      fails_by_state (U := U) "eu" (Samples.registry_of [Samples.closing_node]).
Proof.
  intros [U [H _]].
  apply (H eq_refl Samples.closing_node); [left; reflexivity|reflexivity].
Qed.

(** C2, the statement as worded fails: with a node in Europe that is
    connected and has stats (penalty 1) and a node in the US that is
    connected but has received no stats yet, a call hinting at the US
    region returns the stats-less node, whatever the case tables. *)
Lemma never_statsless_fails :
  ~ exists U : Unicode,
      never_statsless (U := U) (Some "us-west"%string) Samples.two_regions.
Proof.
  intros [U H].
  assert (E : getBestNode (U := U) (Some "us-west"%string) Samples.two_regions
              = Ok Samples.us_node).
  { rewrite (getBestNode_tables U Samples.ascii_table);
      [reflexivity|reflexivity|exact two_regions_ascii]. }
  destruct (H Samples.us_node E) as [_ Hstats].
  - exists Samples.eu_node. split; [left; reflexivity|].
    split; [reflexivity|discriminate].
  - apply Hstats. reflexivity.
Qed.

End Region.

(** ** Adding a node *)

Section AddNode.

Import JS Node NodeManager.

Lemma map_set_twice (k : string) (v v' : Node.t) (m : list (string * Node.t)) :
  map_set k v' (map_set k v m) = map_set k v' m.
Proof.
  induction m as [|e m IH]; simpl.
  - rewrite String.eqb_refl. reflexivity.
  - destruct (String.eqb (fst e) k) eqn:E; simpl.
    + rewrite String.eqb_refl. reflexivity.
    + rewrite E, IH. reflexivity.
Qed.

Lemma map_set_new (k : string) (v : Node.t) (m : list (string * Node.t)) :
  map_has k m = false -> map_set k v m = m ++ [(k, v)].
Proof.
  unfold map_has. induction m as [|e m IH]; simpl; [reflexivity|].
  intros H. apply orb_false_elim in H. destruct H as [H1 H2].
  rewrite H1, (IH H2). reflexivity.
Qed.

Lemma map_delete_absent (k : string) (m : list (string * Node.t)) :
  map_has k m = false -> map_delete k m = m.
Proof.
  unfold map_has, map_delete. induction m as [|e m IH]; simpl; [reflexivity|].
  intros H. apply orb_false_elim in H. destruct H as [H1 H2].
  rewrite H1, (IH H2). reflexivity.
Qed.

Lemma map_delete_set_new (k : string) (v : Node.t) (m : list (string * Node.t)) :
  map_has k m = false -> map_delete k (map_set k v m) = m.
Proof.
  intros H. rewrite (map_set_new k v m H). unfold map_delete.
  rewrite filter_app. simpl. rewrite String.eqb_refl. simpl.
  rewrite app_nil_r. apply map_delete_absent. exact H.
Qed.

Lemma addNode_duplicate (o : NodeOptions) (outcome : SocketOutcome) (nm : NodeManager.t) :
  map_has (name o) (nodes nm) = true ->
  addNode o outcome nm
  = (Throw ("Node with name " ++ name o ++ " already exists")%string, nm).
Proof. intros H. unfold addNode. rewrite H. reflexivity. Qed.

Lemma addNode_connect_fails (o : NodeOptions) (outcome : SocketOutcome)
  (nm : NodeManager.t) (e : string) :
  map_has (name o) (nodes nm) = false ->
  truthy_opt (clientId nm) = true ->
  fst (connect outcome (create o)) = Throw e ->
  addNode o outcome nm = (Throw e, nm).
Proof.
  intros Hnew Hid Hfail. unfold addNode. rewrite Hnew, Hid. simpl negb. cbv iota.
  destruct (connect outcome (create o)) as [[u|e'] node'] eqn:E; simpl in Hfail;
    [discriminate|].
  injection Hfail as ->. cbv zeta. f_equal.
  destruct nm as [m cid pc]. unfold set_nodes. simpl in *.
  rewrite map_set_twice, (map_delete_set_new _ _ _ Hnew). reflexivity.
Qed.

(** C4. Adding a node whose name is already registered fails with the
    "already exists" error and leaves the manager as it was; when the
    name is new and the connection attempt fails, the error of the
    attempt is passed on and the manager is again as it was before the
    call, the entry put in before the attempt being removed. So after
    any failed add the registry is exactly what it was. (A successful
    add appends the connected node under its name.) *)
Theorem addNode_failure_leaves_registry (o : NodeOptions) (outcome : SocketOutcome)
  (nm : NodeManager.t) :
  (map_has (name o) (nodes nm) = true ->
   addNode o outcome nm
   = (Throw ("Node with name " ++ name o ++ " already exists")%string, nm))
  /\ (forall e, map_has (name o) (nodes nm) = false ->
                truthy_opt (clientId nm) = true ->
                fst (connect outcome (create o)) = Throw e ->
                addNode o outcome nm = (Throw e, nm))
  /\ (forall e nm', addNode o outcome nm = (Throw e, nm') -> nm' = nm)
  /\ (forall node nm', addNode o outcome nm = (Ok node, nm') ->
                nodes nm' = nodes nm ++ [(name o, node)]
                /\ isConnected node = true).
Proof.
  split; [apply addNode_duplicate|].
  split; [intros e; apply addNode_connect_fails|].
  split.
  - intros e nm' H. unfold addNode in H.
    destruct (map_has (name o) (nodes nm)) eqn:Hhas; [congruence|].
    destruct (truthy_opt (clientId nm)) eqn:Hid; simpl in H; [|congruence].
    destruct (connect outcome (create o)) as [[u|e'] node'] eqn:E.
    + discriminate.
    + injection H as _ <-.
      destruct nm as [m cid pc]. unfold set_nodes. simpl in *.
      rewrite map_set_twice, (map_delete_set_new _ _ _ Hhas). reflexivity.
  - intros node nm' H. unfold addNode in H.
    destruct (map_has (name o) (nodes nm)) eqn:Hhas; [discriminate|].
    destruct (truthy_opt (clientId nm)) eqn:Hid; simpl in H; [|discriminate].
    destruct (connect outcome (create o)) as [[u|e'] node'] eqn:E; [|discriminate].
    injection H as <- <-. simpl.
    rewrite map_set_twice, (map_set_new _ _ _ Hhas). split; [reflexivity|].
    unfold connect in E. simpl in E.
    destruct outcome as [now|code reason r|].
    + injection E as _ <-. reflexivity.
    + destruct (state (socketClosed code reason r _)); discriminate.
    + discriminate.
Qed.

(** C4, an instance: on the registry of the three sample nodes, adding
    a fourth one whose socket never answers fails with the timeout
    error and leaves the registry as it was. *)
Lemma addNode_failure_leaves_registry_witness :
  addNode Samples.fourth_options Silent Samples.three_nodes
  = (Throw "Connection timeout"%string, Samples.three_nodes).
Proof.
  apply (addNode_failure_leaves_registry
           Samples.fourth_options Silent Samples.three_nodes);
    reflexivity.
Defined.

End AddNode.

(** ** Reconnection delays *)

Section Reconnect.

Import ExponentialBackoff.

Local Open Scope Q_scope.

Lemma exponential_succ (b : ExponentialBackoff.t) (k : nat) :
  exponential b (S k) == 2 * exponential b k.
Proof.
  unfold exponential. rewrite Nat2Z.inj_succ, Z.pow_succ_r by lia.
  rewrite inject_Z_mult. ring.
Qed.

Lemma exponential_nonneg (b : ExponentialBackoff.t) (k : nat) :
  0 <= baseDelay b -> 0 <= exponential b k.
Proof.
  intros H. unfold exponential. apply Qmult_le_0_compat; [exact H|].
  change 0 with (inject_Z 0). rewrite <- Zle_Qle. apply Z.pow_nonneg. lia.
Qed.

Lemma nominal_uncapped (b : ExponentialBackoff.t) (k : nat) :
  exponential b k <= maxDelay b -> nominal b k = exponential b k.
Proof.
  intros H. unfold nominal, cap.
  apply Qle_bool_iff in H. rewrite H. reflexivity.
Qed.

Lemma jitter_step (N j r r' : Q) :
  0 <= N -> 0 <= j -> j <= 1 # 5 -> -1 <= r -> r <= 1 -> -1 <= r' -> r' <= 1 ->
  N * (1 + j * r) <= (2 * N) * (1 + j * r').
Proof.
  intros HN Hj0 Hj1 Hr0 Hr1 Hr0' Hr1'.
  assert (H1 : j * r <= j) by nra.
  assert (H2 : - j <= j * r') by nra.
  nra.
Qed.

Lemma exponential_mono (b : ExponentialBackoff.t) (k : nat) :
  0 <= baseDelay b -> exponential b k <= exponential b (S k).
Proof.
  intros H. rewrite exponential_succ.
  pose proof (exponential_nonneg b k H). lra.
Qed.

Lemma jittered_step (b : ExponentialBackoff.t) (k : nat) (r r' : Q) :
  0 <= baseDelay b -> 0 <= jitter b -> jitter b <= 1 # 5 ->
  -1 <= r -> r <= 1 -> -1 <= r' -> r' <= 1 ->
  exponential b (S k) <= maxDelay b ->
  jittered b k r <= jittered b (S k) r'.
Proof.
  intros Hb Hj0 Hj1 Hr0 Hr1 Hr0' Hr1' Hcap. unfold jittered.
  rewrite (nominal_uncapped b (S k) Hcap).
  rewrite (nominal_uncapped b k)
    by (eapply Qle_trans; [apply exponential_mono; exact Hb|exact Hcap]).
  rewrite exponential_succ.
  apply jitter_step; try assumption. apply exponential_nonneg. exact Hb.
Qed.

Lemma delays_nth (rs : list Q) (b : ExponentialBackoff.t) (i : nat) :
  (i < List.length rs)%nat ->
  nth i (delays b rs) 0 = jittered b (attempt b + i) (nth i rs 0).
Proof.
  revert b i. induction rs as [|r rs IH]; intros b i Hi; simpl in Hi; [lia|].
  simpl delays. destruct i as [|i]; simpl nth.
  - rewrite Nat.add_0_r. reflexivity.
  - rewrite IH by lia. simpl attempt.
    replace (S (attempt b) + i)%nat with (attempt b + S i)%nat by lia.
    reflexivity.
Qed.

Lemma exponential_mono_le (b : ExponentialBackoff.t) (i k : nat) :
  0 <= baseDelay b -> (i <= k)%nat -> exponential b i <= exponential b k.
Proof.
  intros H Hik. induction Hik as [|k Hik IH]; [apply Qle_refl|].
  eapply Qle_trans; [exact IH|apply exponential_mono; exact H].
Qed.

Lemma cap_mono (b : ExponentialBackoff.t) (x y : Q) :
  x <= y -> cap b x <= cap b y.
Proof.
  intros H. unfold cap.
  destruct (Qle_bool x (maxDelay b)) eqn:Ex; destruct (Qle_bool y (maxDelay b)) eqn:Ey.
  - exact H.
  - apply Qle_bool_iff. exact Ex.
  - apply Qle_bool_iff in Ey.
    assert (Hx : x <= maxDelay b) by (eapply Qle_trans; eassumption).
    apply Qle_bool_iff in Hx. congruence.
  - apply Qle_refl.
Qed.

Lemma scheduleReconnect_delay (r : Q) (n : Node.t) :
  hasReachedMaxAttempts (Node.backoff n) = false ->
  Node.reconnectTimeout (Node.scheduleReconnect r n)
  = Some (jittered (Node.backoff n) (attempt (Node.backoff n)) r)
  /\ attempt (Node.backoff (Node.scheduleReconnect r n))
     = S (attempt (Node.backoff n))
  /\ Node.state (Node.scheduleReconnect r n) = Node.RECONNECTING.
Proof.
  intros H. unfold Node.scheduleReconnect. rewrite H. repeat split.
Qed.

(** C5. Of a node whose backoff has a non-negative base delay and a
    jitter of at most 20% (the node's constructor sets the base to the
    configured reconnect delay, 5000 by default, the cap to 60000 and
    the jitter to 20%): the delay of an attempt is at most the delay of
    the next attempt, whatever the two random draws, as long as the
    next attempt's exponential delay has not passed the cap; hence the
    delays of consecutive attempts counted from a reset are
    non-decreasing up to the cap. Were the jitter applied before the
    cap, the same would hold of every attempt. Each scheduled
    reconnection takes the backoff's next delay and advances the
    attempt counter. After a successful connect ([onOpen]) the counter
    is 0, so the next delay is the jittered delay of attempt 0, whose
    value before jitter is the base delay. *)
Theorem reconnect_delays (n : Node.t) :
  0 <= baseDelay (Node.backoff n) ->
  0 <= jitter (Node.backoff n) -> jitter (Node.backoff n) <= 1 # 5 ->
  (forall k r r', in_range r -> in_range r' ->
     exponential (Node.backoff n) (S k) <= maxDelay (Node.backoff n) ->
     jittered (Node.backoff n) k r <= jittered (Node.backoff n) (S k) r')
  /\ (forall rs i, Forall in_range rs -> (S i < List.length rs)%nat ->
     exponential (Node.backoff n) (List.length rs - 1) <= maxDelay (Node.backoff n) ->
     nth i (delays (reset (Node.backoff n)) rs) 0
     <= nth (S i) (delays (reset (Node.backoff n)) rs) 0)
  /\ (forall k r r', in_range r -> in_range r' ->
     jittered_then_capped (Node.backoff n) k r
     <= jittered_then_capped (Node.backoff n) (S k) r')
  /\ (forall r, hasReachedMaxAttempts (Node.backoff n) = false ->
     Node.reconnectTimeout (Node.scheduleReconnect r n)
     = Some (jittered (Node.backoff n) (attempt (Node.backoff n)) r)
     /\ attempt (Node.backoff (Node.scheduleReconnect r n))
        = S (attempt (Node.backoff n))
     /\ Node.state (Node.scheduleReconnect r n) = Node.RECONNECTING)
  /\ (forall now r,
     attempt (Node.backoff (Node.onOpen now n)) = 0%nat
     /\ fst (next (Node.backoff (Node.onOpen now n)) r)
        = jittered (Node.backoff n) 0 r
     /\ (baseDelay (Node.backoff n) <= maxDelay (Node.backoff n) ->
         nominal (Node.backoff n) 0 == baseDelay (Node.backoff n)))
  /\ (forall o,
     Node.backoff (Node.create o)
     = ExponentialBackoff.create
         (inject_Z (Node.default (Node.reconnectDelay o) 5000%Z))
         (inject_Z 60000)
         (Node.default (Node.maxReconnectAttempts o) 3%Z)
         (2 # 10)).
Proof.
  intros Hb Hj0 Hj1. repeat apply conj.
  - intros k r r' [Hr0 Hr1] [Hr0' Hr1'] Hcap.
    apply jittered_step; assumption.
  - intros rs i Hrs Hi Hcap.
    rewrite !delays_nth by lia. simpl attempt. simpl Nat.add.
    rewrite Forall_forall in Hrs.
    destruct (Hrs (nth i rs 0)) as [Hr0 Hr1]; [apply nth_In; lia|].
    destruct (Hrs (nth (S i) rs 0)) as [Hr0' Hr1']; [apply nth_In; lia|].
    apply (jittered_step (reset (Node.backoff n))); try assumption.
    eapply Qle_trans; [|exact Hcap].
    apply (exponential_mono_le (reset (Node.backoff n))); [exact Hb|lia].
  - intros k r r' [Hr0 Hr1] [Hr0' Hr1']. unfold jittered_then_capped.
    apply cap_mono. rewrite exponential_succ.
    apply jitter_step; try assumption. apply exponential_nonneg. exact Hb.
  - intros r. apply scheduleReconnect_delay.
  - intros now r. split; [reflexivity|]. split; [reflexivity|].
    intros Hcap. unfold nominal, cap.
    assert (E : exponential (Node.backoff n) 0 == baseDelay (Node.backoff n)).
    { unfold exponential. simpl. ring. }
    destruct (Qle_bool _ _) eqn:L; [exact E|].
    rewrite <- E in Hcap. apply Qle_bool_iff in Hcap. congruence.
  - intros o. reflexivity.
Qed.

(** C5, an instance: for a node with default options (base 5000, cap
    60000, jitter 20%), the longest first delay, 6000, is below the
    shortest second delay, 8000. *)
Lemma reconnect_delays_witness :
  jittered (Node.backoff Samples.opened_node) 0 1
  <= jittered (Node.backoff Samples.opened_node) 1 (-1).
Proof.
  apply (reconnect_delays Samples.opened_node);
    try (unfold Qle; simpl; lia);
    try (split; unfold Qle; simpl; lia).
Defined.

(** At the cap the jittered delays need not grow: attempts 4 and 5 of
    the default backoff are both capped at 60000, and a draw of +1
    followed by a draw of -1 gives 72000 and then 48000. *)
Remark capped_delays_fluctuate :
  jittered (Node.backoff Samples.opened_node) 5 (-1)
  < jittered (Node.backoff Samples.opened_node) 4 1.
Proof. unfold Qlt. simpl. lia. Qed.

End Reconnect.

(** ** The heartbeat monitor *)

Section HeartbeatMonitor.

Import JS Node Heartbeat.

Local Open Scope Z_scope.

Lemma socketOpened_monitored (now : Z) (n : Node.t) :
  monitored (socketOpened now n) /\ lastHeartbeat (socketOpened now n) = now.
Proof. repeat split. Qed.

Lemma tick_alive (now : Z) (n : Node.t) :
  now - lastHeartbeat n <= HEARTBEAT_TIMEOUT -> heartbeatTick now n = n.
Proof.
  intros H. unfold heartbeatTick, heartbeatCheck.
  destruct (heartbeatInterval n); [|reflexivity].
  destruct (Z.ltb_spec HEARTBEAT_TIMEOUT (now - lastHeartbeat n)); [lia|reflexivity].
Qed.

Lemma tick_dead (now : Z) (n : Node.t) :
  monitored n -> HEARTBEAT_TIMEOUT < now - lastHeartbeat n ->
  ws (heartbeatTick now n)
  = Some (mkWebSocket WS_CLOSING (Some (HEARTBEAT_CLOSE_CODE, "Heartbeat timeout"%string)))
  /\ state (heartbeatTick now n) = CONNECTED
  /\ emitted (heartbeatTick now n) = emitted n ++ [OnError "Heartbeat timeout"]
  /\ backoff (heartbeatTick now n) = backoff n
  /\ options (heartbeatTick now n) = options n
  /\ reconnectTimeout (heartbeatTick now n) = reconnectTimeout n.
Proof.
  intros [Hc Hi] H. unfold heartbeatTick, heartbeatCheck. rewrite Hi.
  apply Z.ltb_lt in H. rewrite H.
  apply isConnected_iff in Hc. destruct Hc as (Hs & w & Hw & _).
  unfold ws_close. simpl. rewrite Hw. simpl. repeat split. exact Hs.
Qed.

Lemma close_schedules (code : Z) (reason : string) (r : Q) (n : Node.t) :
  code <> NORMAL_CLOSURE ->
  opt_maxReconnectAttempts (options n) <> 0 ->
  ExponentialBackoff.hasReachedMaxAttempts (backoff n) = false ->
  state (socketClosed code reason r n) = RECONNECTING
  /\ reconnectTimeout (socketClosed code reason r n)
     = Some (ExponentialBackoff.jittered (backoff n)
               (ExponentialBackoff.attempt (backoff n)) r)
  /\ heartbeatInterval (socketClosed code reason r n) = None.
Proof.
  intros Hcode Hmax Hreach. unfold socketClosed, onClose.
  apply Z.eqb_neq in Hcode. apply Z.eqb_neq in Hmax.
  destruct n as [o st ss sid w b rt lh hi em]. simpl in *.
  unfold clearHeartbeatInterval, scheduleReconnect.
  destruct hi; simpl; rewrite Hcode, Hmax; simpl; rewrite Hreach; simpl; repeat split.
Qed.

Lemma close_gives_up (code : Z) (reason : string) (r : Q) (n : Node.t) :
  opt_maxReconnectAttempts (options n) = 0 ->
  state (socketClosed code reason r n) = DISCONNECTED
  /\ reconnectTimeout (socketClosed code reason r n) = reconnectTimeout n.
Proof.
  intros Hmax. unfold socketClosed, onClose.
  destruct n as [o st ss sid w b rt lh hi em]. simpl in *.
  unfold clearHeartbeatInterval.
  destruct hi; simpl; rewrite Hmax; simpl; rewrite andb_false_r; repeat split.
Qed.

Lemma some_tick_in_window (opened last : Z) :
  opened <= last ->
  exists k, 0 <= k
            /\ last + HEARTBEAT_TIMEOUT < opened + HEARTBEAT_PERIOD * k
            /\ opened + HEARTBEAT_PERIOD * k <= last + HEARTBEAT_TIMEOUT + HEARTBEAT_PERIOD.
Proof.
  unfold HEARTBEAT_TIMEOUT, HEARTBEAT_PERIOD. intros H.
  exists ((last + 60000 - opened) / 15000 + 1).
  pose proof (Z.div_mod (last + 60000 - opened) 15000 ltac:(lia)) as E.
  pose proof (Z.mod_pos_bound (last + 60000 - opened) 15000 ltac:(lia)) as B.
  assert (0 <= (last + 60000 - opened) / 15000) by (apply Z.div_pos; lia).
  lia.
Qed.

Lemma handshake_after_tick (now : Z) (r : Q) (n : Node.t) :
  monitored n -> HEARTBEAT_TIMEOUT < now - lastHeartbeat n ->
  closeHandshakeDone r (heartbeatTick now n)
  = socketClosed HEARTBEAT_CLOSE_CODE "Heartbeat timeout" r (heartbeatTick now n).
Proof.
  intros Hm H. destruct (tick_dead now n Hm H) as (Hw & _).
  unfold closeHandshakeDone. rewrite Hw. reflexivity.
Qed.

(** C6 (as amended). The monitor starts when the socket opens, with
    the liveness timestamp set to that moment; every player-update
    event sets the timestamp to its arrival time (a stats event does
    not). A check that finds at most 60 s since the timestamp changes
    nothing; a check that finds more than 60 s closes the socket with
    code 4000, which is not the normal-closure code, and once the close
    has come through a reconnection is scheduled with the backoff's
    next delay, provided reconnection is enabled (maxReconnectAttempts
    is not 0) and the backoff has attempts left; with
    maxReconnectAttempts = 0 the node stays DISCONNECTED and nothing is
    scheduled. Checks being 15 s apart, one of them falls within the
    15 s that follow the timeout and closes the socket. *)
Theorem heartbeat_monitor (n : Node.t) :
  monitored n ->
  (forall opened n0,
      monitored (socketOpened opened n0)
      /\ lastHeartbeat (socketOpened opened n0) = opened)
  /\ (forall now guildId,
      lastHeartbeat (handlePlayerUpdateEvent now guildId n) = now
      /\ monitored (handlePlayerUpdateEvent now guildId n))
  /\ (forall s, lastHeartbeat (handleStatsEvent s n) = lastHeartbeat n)
  /\ (forall now, now - lastHeartbeat n <= HEARTBEAT_TIMEOUT ->
      heartbeatTick now n = n)
  /\ (forall now r, HEARTBEAT_TIMEOUT < now - lastHeartbeat n ->
      let closing := heartbeatTick now n in
      let closed := closeHandshakeDone r closing in
      ws closing
      = Some (mkWebSocket WS_CLOSING
                (Some (HEARTBEAT_CLOSE_CODE, "Heartbeat timeout"%string)))
      /\ HEARTBEAT_CLOSE_CODE <> NORMAL_CLOSURE
      /\ (opt_maxReconnectAttempts (options n) <> 0 ->
          ExponentialBackoff.hasReachedMaxAttempts (backoff n) = false ->
          state closed = RECONNECTING
          /\ reconnectTimeout closed
             = Some (ExponentialBackoff.jittered (backoff n)
                       (ExponentialBackoff.attempt (backoff n)) r))
      /\ (opt_maxReconnectAttempts (options n) = 0 ->
          state closed = DISCONNECTED
          /\ reconnectTimeout closed = reconnectTimeout n))
  /\ (forall opened, opened <= lastHeartbeat n ->
      exists k, 0 <= k
        /\ lastHeartbeat n + HEARTBEAT_TIMEOUT < opened + HEARTBEAT_PERIOD * k
        /\ opened + HEARTBEAT_PERIOD * k
           <= lastHeartbeat n + HEARTBEAT_TIMEOUT + HEARTBEAT_PERIOD
        /\ is_open (ws (heartbeatTick (opened + HEARTBEAT_PERIOD * k) n)) = false).
Proof.
  intros Hm.
  split; [intros opened n0; apply socketOpened_monitored|].
  split.
  { intros now guildId. split; [reflexivity|].
    destruct Hm as [Hc Hi]. split; assumption. }
  split; [reflexivity|].
  split; [intros now; apply tick_alive|].
  split.
  - intros now r H. cbv zeta.
    destruct (tick_dead now n Hm H) as (Hw & Hs & He & Hb & Ho & Hr).
    split; [exact Hw|]. split; [discriminate|].
    rewrite (handshake_after_tick now r n Hm H).
    split.
    + intros Hmax Hreach. rewrite <- Hb.
      destruct (close_schedules HEARTBEAT_CLOSE_CODE "Heartbeat timeout" r
                                (heartbeatTick now n)) as (H1 & H2 & _).
      * discriminate.
      * rewrite Ho. exact Hmax.
      * rewrite Hb. exact Hreach.
      * split; assumption.
    + intros Hmax. rewrite <- Hr.
      apply close_gives_up. rewrite Ho. exact Hmax.
  - intros opened Hopen.
    destruct (some_tick_in_window opened (lastHeartbeat n) Hopen) as (k & Hk & Hlo & Hhi).
    exists k. repeat split; try assumption.
    destruct (tick_dead (opened + HEARTBEAT_PERIOD * k) n Hm) as (Hw & _); [lia|].
    rewrite Hw. reflexivity.
Qed.

(** C6, an instance: a node with default options whose socket opened at
    time 0 and that received nothing since is left alone by the check
    at 60 s, and closed by the check at 75 s, after which it is
    RECONNECTING. *)
Lemma heartbeat_monitor_witness :
  state (closeHandshakeDone 0%Q (heartbeatTick 75000 Samples.opened_node))
  = RECONNECTING
  /\ heartbeatTick 60000 Samples.opened_node = Samples.opened_node.
Proof.
  assert (Hm : monitored Samples.opened_node) by (split; reflexivity).
  destruct (heartbeat_monitor Samples.opened_node Hm)
    as (_ & _ & _ & Halive & Hdead & _).
  split.
  - destruct (Hdead 75000 0%Q eq_refl) as (_ & _ & Hre & _).
    apply Hre; [discriminate|reflexivity].
  - apply Halive. discriminate.
Defined.

(** C6, the statement as worded fails: a node configured with
    maxReconnectAttempts = 0 has its socket closed by the monitor but
    stays DISCONNECTED afterwards, no reconnection being scheduled. *)
Lemma heartbeat_reconnects_fails :
  ~ heartbeat_reconnects Samples.no_reconnect_node.
Proof.
  intros H. destruct (H 60001 0%Q eq_refl) as (_ & Hstate & _).
  discriminate Hstate.
Qed.

End HeartbeatMonitor.

(** ** Autoplay: fallback and failure *)

Section AutoPlayFacts.

Import JS Lavalink AutoPlay.


Variable P : Type.
Variable ops : PlayerOps P.

Lemma availableTracks_fallback (a : AutoPlay.t) (tracks : list Track) :
  (filter (fresh a) tracks = [] -> availableTracks a tracks = tracks)
  /\ (filter (fresh a) tracks <> [] ->
      availableTracks a tracks = filter (fresh a) tracks).
Proof.
  unfold availableTracks.
  destruct (filter (fresh a) tracks); split; congruence.
Qed.

Lemma availableTracks_nonempty (a : AutoPlay.t) (tracks : list Track) :
  tracks <> [] -> availableTracks a tracks <> [].
Proof.
  unfold availableTracks. intros H.
  destruct (filter (fresh a) tracks); [exact H|discriminate].
Qed.

Lemma availableTracks_incl (a : AutoPlay.t) (tracks : list Track) (tr : Track) :
  In tr (availableTracks a tracks) -> In tr tracks.
Proof.
  unfold availableTracks.
  destruct (filter (fresh a) tracks) as [|x l] eqn:E; [auto|].
  rewrite <- E. intros H. apply filter_In in H. tauto.
Qed.

Lemma playRandom_plays (candidates : list Track) (player : P) :
  candidates <> [] ->
  exists tr, In tr candidates
    /\ playRandom ops candidates player
       = match play ops (addTrack ops tr player) with
         | (Ok _, player') => (Ok true, player')
         | (Throw e, player') => (Throw e, player')
         end.
Proof.
  intros H. destruct candidates as [|first rest]; [congruence|].
  unfold playRandom.
  exists (nth (Nat.modulo (pick ops (List.length (first :: rest)))
                          (List.length (first :: rest)))
              (first :: rest) first).
  split; [|reflexivity].
  apply nth_In. apply Nat.mod_upper_bound. discriminate.
Qed.

Lemma execute_never_throws (a : AutoPlay.t) (player : P) (prev : option Track) :
  exists b, snd (fst (execute ops a player prev)) = Ok b.
Proof.
  unfold execute. destruct prev as [tr|]; [|exists false; reflexivity].
  destruct (nodeIsConnected ops player); simpl; [|exists false; reflexivity].
  destruct (dispatch ops (remember (trackId tr) a) player tr) as [[b|e] p'].
  - exists b. reflexivity.
  - exists false. reflexivity.
Qed.

Lemma execute_catches (a : AutoPlay.t) (player : P) (tr : Track) (e : string) :
  nodeIsConnected ops player = true ->
  fst (dispatch ops (remember (trackId tr) a) player tr) = Throw e ->
  snd (fst (execute ops a player (Some tr))) = Ok false.
Proof.
  intros Hc Hd. unfold execute. rewrite Hc. simpl.
  destruct (dispatch ops (remember (trackId tr) a) player tr) as [[b|e'] p'];
    simpl in Hd; [discriminate|reflexivity].
Qed.

(** C7. The candidates a strategy picks from are the tracks left by
    the already-played filter, and all the tracks of the result when
    the filter leaves none; each of the three strategies picks from
    these candidates, and on a non-empty result enqueues one of the
    result's tracks and plays it, so the YouTube strategy reports
    success whenever the search returns tracks and playing succeeds,
    also when every track has been played before.
    Whatever happens inside, [execute] returns a boolean: a throw of
    the search or of the playback is caught and reported as [false]. *)
Theorem autoplay_falls_back_and_never_throws :
  (forall a tracks,
      (filter (fresh a) tracks = [] -> availableTracks a tracks = tracks)
      /\ (filter (fresh a) tracks <> [] ->
          availableTracks a tracks = filter (fresh a) tracks))
  /\ (forall a tracks player, tracks <> [] ->
      exists tr, In tr tracks
        /\ playRandom ops (availableTracks a tracks) player
           = match play ops (addTrack ops tr player) with
             | (Ok _, player') => (Ok true, player')
             | (Throw e, player') => (Throw e, player')
             end)
  /\ (forall a player prev q tracks,
      truthy (identifier (info prev)) = true ->
      (search ops player q "ytsearch" = Ok (LoadSearch tracks) \/
       search ops player q "ytsearch" = Ok (LoadPlaylist tracks)) ->
      q = ("https://www.youtube.com/watch?v=" ++ identifier (info prev)
           ++ "&list=RD" ++ identifier (info prev))%string ->
      handleYouTube ops a player prev
      = playRandom ops (availableTracks a tracks) player)
  /\ (forall a player prev tracks,
      truthy_opt (uri (info prev)) = true ->
      search ops player (title (info prev) ++ " " ++ author (info prev)) "scsearch"
      = Ok (LoadSearch tracks) ->
      handleSoundCloud ops a player prev
      = playRandom ops (availableTracks a tracks) player)
  /\ (forall a player prev tracks,
      truthy (title (info prev)) = true -> truthy (author (info prev)) = true ->
      search ops player (author (info prev)) "spsearch" = Ok (LoadSearch tracks) ->
      handleSpotify ops a player prev
      = playRandom ops (availableTracks a tracks) player)
  /\ (forall a player prev tracks,
      truthy (identifier (info prev)) = true ->
      (forall q, search ops player q "ytsearch" = Ok (LoadSearch tracks)) ->
      tracks <> [] ->
      (forall p, fst (play ops p) = Ok tt) ->
      fst (handleYouTube ops a player prev) = Ok true)
  /\ (forall a player prev b,
      snd (fst (execute ops a player prev)) = b -> exists r, b = Ok r)
  /\ (forall a player tr e,
      nodeIsConnected ops player = true ->
      fst (dispatch ops (remember (trackId tr) a) player tr) = Throw e ->
      snd (fst (execute ops a player (Some tr))) = Ok false).
Proof.
  split; [apply availableTracks_fallback|].
  split.
  { intros a tracks player H.
    destruct (playRandom_plays (availableTracks a tracks) player
                (availableTracks_nonempty a tracks H)) as (tr & Hin & Heq).
    exists tr. split; [|exact Heq].
    apply (availableTracks_incl a tracks tr Hin). }
  split.
  { intros a player prev q tracks Hid Hs Hq. subst q.
    unfold handleYouTube. rewrite Hid. simpl negb. cbv iota.
    destruct Hs as [Hs | Hs]; rewrite Hs; reflexivity. }
  split.
  { intros a player prev tracks Huri Hs.
    unfold handleSoundCloud. rewrite Huri, Hs. reflexivity. }
  split.
  { intros a player prev tracks Ht Ha Hs.
    unfold handleSpotify. rewrite Ht, Ha, Hs. simpl.
    destruct tracks; reflexivity. }
  split.
  { intros a player prev tracks Hid Hs Hne Hplay.
    unfold handleYouTube. rewrite Hid, Hs. simpl negb. cbv iota.
    destruct (playRandom_plays (availableTracks a tracks) player
                (availableTracks_nonempty a tracks Hne)) as (tr & _ & Heq).
    rewrite Heq. specialize (Hplay (addTrack ops tr player)).
    destruct (play ops (addTrack ops tr player)) as [[u|e] p'];
      simpl in Hplay; [reflexivity|discriminate]. }
  split.
  { intros a player prev b <-. apply execute_never_throws. }
  apply execute_catches.
Qed.

End AutoPlayFacts.

(** C7, an instance: the engine has already played track A and the
    search finds nothing but A; the attempt still succeeds, with A
    playing again. When the search throws, the attempt reports false. *)
Lemma autoplay_falls_back_and_never_throws_witness :
  (let '(_, r, p) :=
     AutoPlay.execute (Player.ops Samples.env_ok) AutoPlay.create
             (Samples.session None [] Player.LoopOff) (Some Samples.trackA) in
   r = JS.Ok true /\ Player.track p = Some Samples.trackA)
  /\ snd (fst (AutoPlay.execute
                 (Player.ops (Player.mkEnv (fun _ => JS.Ok tt)
                                           (fun _ => JS.Throw "Timeout"%string)
                                           (fun _ => 0%nat)))
                 AutoPlay.create (Samples.session None [] Player.LoopOff)
                 (Some Samples.trackA)))
     = JS.Ok false.
Proof.
  split; [split; reflexivity|].
  apply (autoplay_falls_back_and_never_throws Player.t) with (e := "Timeout"%string);
    reflexivity.
Defined.

(** ** Autoplay: the bounded set of played identifiers *)

Section PlayedHistory.

Import JS Lavalink AutoPlay AutoPlayRuns.

Lemma set_has_iff (x : string) (s : list string) :
  set_has x s = true <-> In x s.
Proof.
  unfold set_has. rewrite existsb_exists. split.
  - intros (y & Hy & E). apply String.eqb_eq in E. subst y. exact Hy.
  - intros H. exists x. split; [exact H|apply String.eqb_refl].
Qed.

Lemma set_delete_absent (x : string) (s : list string) :
  ~ In x s -> set_delete x s = s.
Proof.
  unfold set_delete. induction s as [|z s IH]; simpl; [reflexivity|].
  intros Hnot. destruct (String.eqb_spec x z) as [->|Hne].
  - exfalso. apply Hnot. left. reflexivity.
  - simpl. rewrite IH; [reflexivity|]. intros Hin. apply Hnot. right. exact Hin.
Qed.

Lemma remember_known (id : string) (a : AutoPlay.t) :
  well_formed a -> In id (playedIdentifiers a) ->
  remember (Some id) a = a.
Proof.
  intros (Hmax & Hlen & Hnd & Htr) Hin. unfold remember.
  rewrite Forall_forall in Htr. rewrite (Htr id Hin).
  unfold set_add. rewrite (proj2 (set_has_iff id _) Hin).
  rewrite Hmax. destruct (Nat.ltb_spec 50 (List.length (playedIdentifiers a))); [lia|].
  destruct a; simpl in *. subst. reflexivity.
Qed.

Lemma remember_new (id : string) (a : AutoPlay.t) :
  well_formed a -> truthy id = true -> ~ In id (playedIdentifiers a) ->
  playedIdentifiers (remember (Some id) a)
  = if Nat.eqb (List.length (playedIdentifiers a)) 50
    then tl (playedIdentifiers a) ++ [id]
    else playedIdentifiers a ++ [id].
Proof.
  intros (Hmax & Hlen & Hnd & Htr) Hid Hnew. unfold remember. rewrite Hid.
  unfold set_add.
  destruct (set_has id (playedIdentifiers a)) eqn:E;
    [apply set_has_iff in E; contradiction|].
  rewrite Hmax, length_app. simpl List.length.
  destruct (Nat.eqb_spec (List.length (playedIdentifiers a)) 50) as [Hfull|Hroom].
  - destruct (Nat.ltb_spec 50 (List.length (playedIdentifiers a) + 1)); [|lia].
    destruct (playedIdentifiers a) as [|x l] eqn:El; [simpl in Hfull; lia|].
    simpl app. rewrite Forall_forall in Htr.
    rewrite (Htr x (or_introl eq_refl)). simpl playedIdentifiers.
    rewrite String.eqb_refl. simpl.
    apply set_delete_absent.
    intros Hin. apply in_app_or in Hin. destruct Hin as [Hin | [Hin | []]].
    + inversion Hnd; contradiction.
    + subst x. apply Hnew. left. reflexivity.
  - destruct (Nat.ltb_spec 50 (List.length (playedIdentifiers a) + 1)); [lia|].
    reflexivity.
Qed.

Lemma well_formed_create : well_formed create.
Proof.
  repeat split; simpl; try lia; constructor.
Qed.

Lemma remember_well_formed (identifier : option string) (a : AutoPlay.t) :
  well_formed a -> well_formed (remember identifier a).
Proof.
  intros Hwf. destruct identifier as [id|]; [|exact Hwf].
  destruct (truthy id) eqn:Hid; [|unfold remember; rewrite Hid; exact Hwf].
  destruct (in_dec string_dec id (playedIdentifiers a)) as [Hin|Hnew].
  - rewrite (remember_known id a Hwf Hin). exact Hwf.
  - pose proof (remember_new id a Hwf Hid Hnew) as E.
    destruct Hwf as (Hmax & Hlen & Hnd & Htr).
    assert (Hm : maxHistorySize (remember (Some id) a) = 50%nat).
    { unfold remember. rewrite Hid.
      destruct (Nat.ltb _ _); [|exact Hmax].
      destruct (set_add id (playedIdentifiers a)); [exact Hmax|].
      destruct (truthy s); exact Hmax. }
    split; [exact Hm|]. rewrite E.
    destruct (Nat.eqb_spec (List.length (playedIdentifiers a)) 50) as [Hfull|Hroom].
    + destruct (playedIdentifiers a) as [|x l]; [simpl in Hfull; lia|]. simpl tl.
      inversion Hnd as [|y l' Hx Hl]; subst. inversion Htr as [|y l' Hx' Hl']; subst.
      split; [rewrite length_app; simpl in *; lia|]. split.
      * apply NoDup_app; [exact Hl|repeat constructor; intros []|].
        intros y Hy [Hy' | []]. subst y. apply Hnew. right. exact Hy.
      * apply Forall_app. split; [exact Hl'|]. repeat constructor. exact Hid.
    + split; [rewrite length_app; simpl; lia|]. split.
      * apply NoDup_app; [exact Hnd|repeat constructor; intros []|].
        intros y Hy [Hy' | []]. subst y. apply Hnew. exact Hy.
      * apply Forall_app. split; [exact Htr|]. repeat constructor. exact Hid.
Qed.

Lemma execute_engine (P : Type) (ops : PlayerOps P) (a : AutoPlay.t)
  (player : P) (prev : option Track) :
  fst (fst (execute ops a player prev))
  = match prev with
    | Some tr => if nodeIsConnected ops player then remember (trackId tr) a else a
    | None => a
    end.
Proof.
  unfold execute. destruct prev as [tr|]; [|reflexivity].
  destruct (nodeIsConnected ops player); [|reflexivity]. simpl.
  destruct (dispatch ops (remember (trackId tr) a) player tr) as [[b|e] p']; reflexivity.
Qed.

Lemma engine_after_call_well_formed (a : AutoPlay.t) (c : Call) :
  well_formed a -> well_formed (engine_after_call a c).
Proof.
  intros H. destruct c as [env player prev|]; unfold engine_after_call.
  - rewrite execute_engine. destruct prev as [tr|]; [|exact H].
    destruct (nodeIsConnected (Player.ops env) player); [|exact H].
    apply remember_well_formed. exact H.
  - destruct H as (Hmax & _).
    repeat split; simpl; try lia; try constructor; try exact Hmax.
Qed.

Lemma fold_well_formed (calls : list Call) (a : AutoPlay.t) :
  well_formed a -> well_formed (fold_left engine_after_call calls a).
Proof.
  revert a. induction calls as [|c calls IH]; intros a H; [exact H|].
  simpl. apply IH. apply engine_after_call_well_formed. exact H.
Qed.

(** C8. After any sequence of calls on a fresh engine the set of
    played identifiers holds at most 50 entries, each once. A call
    that brings in a new identifier while the set holds 50 removes the
    oldest one and puts the new one last; while the set holds fewer,
    the new one is put last and nothing is removed. *)
Theorem played_history_bounded (calls : list Call) :
  (getHistorySize (engine_after calls) <= 50)%nat
  /\ NoDup (playedIdentifiers (engine_after calls))
  /\ (forall env player tr id,
      Node.isConnected (Player.node player) = true ->
      trackId tr = Some id -> truthy id = true ->
      ~ In id (playedIdentifiers (engine_after calls)) ->
      getHistorySize (engine_after calls) = 50%nat ->
      playedIdentifiers (engine_after (calls ++ [Execute env player (Some tr)]))
      = tl (playedIdentifiers (engine_after calls)) ++ [id])
  /\ (forall env player tr id,
      Node.isConnected (Player.node player) = true ->
      trackId tr = Some id -> truthy id = true ->
      ~ In id (playedIdentifiers (engine_after calls)) ->
      (getHistorySize (engine_after calls) < 50)%nat ->
      playedIdentifiers (engine_after (calls ++ [Execute env player (Some tr)]))
      = playedIdentifiers (engine_after calls) ++ [id]).
Proof.
  pose proof (fold_well_formed calls create well_formed_create) as Hwf.
  fold (engine_after calls) in Hwf.
  split; [apply Hwf|]. split; [apply Hwf|].
  assert (Hstep : forall env player tr id,
             Node.isConnected (Player.node player) = true ->
             trackId tr = Some id ->
             engine_after (calls ++ [Execute env player (Some tr)])
             = remember (Some id) (engine_after calls)).
  { intros env player tr id Hc Hid. unfold engine_after.
    rewrite fold_left_app. cbn [fold_left]. unfold engine_after_call at 1.
    rewrite execute_engine. cbn [nodeIsConnected Player.ops].
    rewrite Hc, Hid. reflexivity. }
  split; intros env player tr id Hc Hid Htruthy Hnew Hsize;
    rewrite (Hstep env player tr id Hc Hid),
            (remember_new id (engine_after calls) Hwf Htruthy Hnew);
    unfold getHistorySize in Hsize.
  - rewrite Hsize. reflexivity.
  - destruct (Nat.eqb_spec (List.length (playedIdentifiers (engine_after calls))) 50);
      [lia|reflexivity].
Qed.

(** C8, an instance: after the engine has executed for tracks A and B,
    the set holds A then B; a third call at that point, the set not
    being full, puts C last. *)
Lemma played_history_bounded_witness :
  playedIdentifiers
    (engine_after
       ([Execute Samples.env_ok (Samples.session None [] Player.LoopOff)
                 (Some Samples.trackA);
         Execute Samples.env_ok (Samples.session None [] Player.LoopOff)
                 (Some Samples.trackB)]
        ++ [Execute Samples.env_ok (Samples.session None [] Player.LoopOff)
                    (Some Samples.trackC)]))
  = ["A"; "B"; "C"]%string.
Proof.
  pose proof (played_history_bounded
                [Execute Samples.env_ok (Samples.session None [] Player.LoopOff)
                         (Some Samples.trackA);
                 Execute Samples.env_ok (Samples.session None [] Player.LoopOff)
                         (Some Samples.trackB)]) as (_ & _ & _ & Hroom).
  rewrite (Hroom Samples.env_ok (Samples.session None [] Player.LoopOff)
                 Samples.trackC "C"%string);
    try reflexivity.
  - intros [H | [H | []]]; discriminate.
  - vm_compute. lia.
Defined.

End PlayedHistory.

(** ** Track end and the queue loop *)

Section TrackEnd.

Import JS Lavalink Player.

Lemma recordEnded_frame (p : Player.t) :
  track (recordEnded p) = track p
  /\ queue (recordEnded p) = queue p
  /\ loopMode (recordEnded p) = loopMode p
  /\ requests (recordEnded p) = requests p.
Proof.
  unfold recordEnded. destruct (track p) eqn:E; simpl; repeat split; auto.
Qed.

Lemma play_next (env : Env) (p : Player.t) (tr : Track) (rest : list Track) :
  queue p = tr :: rest ->
  track (snd (play env None p)) = Some tr
  /\ queue (snd (play env None p)) = rest
  /\ requests (snd (play env None p)) = requests p ++ [tr].
Proof.
  intros Hq. unfold play. rewrite Hq.
  destruct (updatePlayer env tr); repeat split.
Qed.

Lemma queue_loop_finished (env : Env) (p : Player.t) (tr : Track) :
  loopMode p = LoopQueue -> track p = Some tr ->
  let appended := requeueEnded finished (Some tr) (recordEnded p) in
  let after := snd (handleTrackEnd env finished p) in
  queue appended = queue p ++ [tr]
  /\ track after = Some (hd tr (queue p ++ [tr]))
  /\ queue after = tl (queue p ++ [tr])
  /\ requests after = requests p ++ [hd tr (queue p ++ [tr])].
Proof.
  intros Hloop Htrack.
  destruct (recordEnded_frame p) as (Ht & Hq & Hl & Hr).
  cbv zeta. split.
  { unfold requeueEnded. simpl is_finished. rewrite Hl, Hloop.
    simpl. rewrite Hq. reflexivity. }
  unfold handleTrackEnd. cbv zeta. simpl is_finished. rewrite Hl, Hloop, Ht, Htrack.
  unfold selectNext, requeueEnded. simpl is_finished. rewrite Hl, Hloop. cbv zeta.
  remember (clearCurrent (set_queue (recordEnded p) (queue (recordEnded p) ++ [tr]))) as p1 eqn:E1.
  assert (Hq1 : queue p1 = queue p ++ [tr]) by (subst p1; simpl; rewrite Hq; reflexivity).
  assert (Hr1 : requests p1 = requests p) by (subst p1; simpl; exact Hr).
  destruct (queue p ++ [tr]) as [|x rest] eqn:Eq.
  { destruct (queue p); discriminate. }
  rewrite Hq1.
  destruct (play_next env p1 x rest Hq1) as (H1 & H2 & H3).
  simpl hd. simpl tl. rewrite H1, H2, H3, Hr1. repeat split.
Qed.

Lemma not_finished_no_loop (env : Env) (reason : TrackEndReason) (p : Player.t) :
  reason <> finished ->
  let after := snd (handleTrackEnd env reason p) in
  fst (handleTrackEnd env reason p) = Ok tt
  /\ queue after = queue p
  /\ track after = None
  /\ requests after = requests p.
Proof.
  intros Hr.
  assert (Hf : is_finished reason = false) by (destruct reason; congruence || reflexivity).
  destruct (recordEnded_frame p) as (Ht & Hq & Hl & Hreq).
  unfold handleTrackEnd. cbv zeta. rewrite Hf.
  unfold requeueEnded, selectNext, tryAutoPlay. rewrite Hf. cbv zeta.
  destruct (autoPlay (clearCurrent (recordEnded p))); simpl;
    rewrite Hq; destruct (queue p); simpl; rewrite ?Hq, ?Hreq; repeat split; auto.
Qed.

(** C9. With loop mode [queue], when the current track ends with
    reason [finished] it is appended to the tail of the queue before
    the next track is selected, and the next track is then the head of
    that queue: with A current and B, C pending, the queue is B, C, A
    when the selection starts, B is played next, and C, A stay
    pending. With any other end reason, whatever the loop mode, nothing
    is appended or replayed: the queue is unchanged, no track is
    current and nothing is sent to the backend. *)
Theorem queue_loop (env : Env) (p : Player.t) :
  (forall tr, loopMode p = LoopQueue -> track p = Some tr ->
     queue (requeueEnded finished (Some tr) (recordEnded p)) = queue p ++ [tr]
     /\ track (snd (handleTrackEnd env finished p)) = Some (hd tr (queue p ++ [tr]))
     /\ queue (snd (handleTrackEnd env finished p)) = tl (queue p ++ [tr])
     /\ requests (snd (handleTrackEnd env finished p))
        = requests p ++ [hd tr (queue p ++ [tr])])
  /\ (forall A B C, loopMode p = LoopQueue -> track p = Some A -> queue p = [B; C] ->
     queue (requeueEnded finished (Some A) (recordEnded p)) = [B; C; A]
     /\ track (snd (handleTrackEnd env finished p)) = Some B
     /\ queue (snd (handleTrackEnd env finished p)) = [C; A])
  /\ (forall reason, reason <> finished ->
     fst (handleTrackEnd env reason p) = Ok tt
     /\ queue (snd (handleTrackEnd env reason p)) = queue p
     /\ track (snd (handleTrackEnd env reason p)) = None
     /\ requests (snd (handleTrackEnd env reason p)) = requests p).
Proof.
  split; [|split].
  - intros tr Hloop Htrack. apply (queue_loop_finished env p tr Hloop Htrack).
  - intros A B C Hloop Htrack Hq.
    destruct (queue_loop_finished env p A Hloop Htrack) as (H1 & H2 & H3 & _).
    rewrite Hq in H1, H2, H3. simpl in H1, H2, H3. auto.
  - intros reason Hr. apply (not_finished_no_loop env reason p Hr).
Qed.

(** C9, an instance: the session playing A with B and C pending, in
    queue loop mode. *)
Lemma queue_loop_witness :
  queue (requeueEnded finished (Some Samples.trackA)
           (recordEnded (Samples.session (Some Samples.trackA)
                           [Samples.trackB; Samples.trackC] LoopQueue)))
  = [Samples.trackB; Samples.trackC; Samples.trackA]
  /\ track (snd (handleTrackEnd Samples.env_ok finished
                   (Samples.session (Some Samples.trackA)
                      [Samples.trackB; Samples.trackC] LoopQueue)))
     = Some Samples.trackB
  /\ queue (snd (handleTrackEnd Samples.env_ok finished
                   (Samples.session (Some Samples.trackA)
                      [Samples.trackB; Samples.trackC] LoopQueue)))
     = [Samples.trackC; Samples.trackA].
Proof.
  apply (queue_loop Samples.env_ok
           (Samples.session (Some Samples.trackA)
              [Samples.trackB; Samples.trackC] LoopQueue));
    reflexivity.
Defined.

End TrackEnd.

(** * Further properties of the code *)

(** ** Maps with string keys *)

Section StrMapFacts.

Variable A : Type.

Implicit Types (m : StrMap.t A) (k : string) (v : A).

Lemma strmap_has_keys k m : StrMap.has k m = true <-> In k (StrMap.keys m).
Proof.
  unfold StrMap.has, StrMap.keys. rewrite existsb_exists, in_map_iff. split.
  - intros (e & He & E). apply String.eqb_eq in E. exists e. auto.
  - intros (e & E & He). exists e. split; [exact He|]. apply String.eqb_eq. exact E.
Qed.

Lemma strmap_get_none k m : StrMap.get k m = None <-> ~ In k (StrMap.keys m).
Proof.
  unfold StrMap.get, StrMap.keys. induction m as [|e m IH]; simpl.
  - tauto.
  - destruct (String.eqb_spec (fst e) k) as [E|E].
    + split; [discriminate|]. intros H. exfalso. apply H. left. exact E.
    + rewrite IH. tauto.
Qed.

Lemma strmap_keys_set k v m :
  StrMap.keys (StrMap.set k v m)
  = if StrMap.has k m then StrMap.keys m else StrMap.keys m ++ [k].
Proof.
  unfold StrMap.keys, StrMap.has. induction m as [|e m IH]; simpl; [reflexivity|].
  destruct (String.eqb_spec (fst e) k) as [E|E]; simpl.
  - rewrite E. reflexivity.
  - rewrite IH. destruct (existsb _ m); reflexivity.
Qed.

Lemma strmap_get_set_same k v m : StrMap.get k (StrMap.set k v m) = Some v.
Proof.
  unfold StrMap.get. induction m as [|e m IH]; simpl.
  - rewrite String.eqb_refl. reflexivity.
  - destruct (String.eqb (fst e) k) eqn:E; simpl.
    + rewrite String.eqb_refl. reflexivity.
    + rewrite E. exact IH.
Qed.

Lemma strmap_get_set_other k k' v m :
  k' <> k -> StrMap.get k' (StrMap.set k v m) = StrMap.get k' m.
Proof.
  intros Hne. unfold StrMap.get. induction m as [|e m IH]; simpl.
  - destruct (String.eqb_spec k k'); [congruence|reflexivity].
  - destruct (String.eqb_spec (fst e) k) as [E|E]; simpl.
    + destruct (String.eqb_spec k k'); [congruence|].
      rewrite E. destruct (String.eqb_spec k k'); [congruence|reflexivity].
    + destruct (String.eqb (fst e) k'); [reflexivity|exact IH].
Qed.

Lemma strmap_get_delete_same k m : StrMap.get k (StrMap.delete k m) = None.
Proof.
  apply strmap_get_none. unfold StrMap.keys, StrMap.delete.
  rewrite in_map_iff. intros (e & E & He). apply filter_In in He.
  destruct He as [_ He]. rewrite E, String.eqb_refl in He. discriminate.
Qed.

Lemma strmap_get_delete_other k k' m :
  k' <> k -> StrMap.get k' (StrMap.delete k m) = StrMap.get k' m.
Proof.
  intros Hne. unfold StrMap.get, StrMap.delete.
  induction m as [|e m IH]; simpl; [reflexivity|].
  destruct (String.eqb_spec (fst e) k) as [E|E]; simpl.
  - destruct (String.eqb_spec (fst e) k'); [congruence|exact IH].
  - destruct (String.eqb (fst e) k'); [reflexivity|exact IH].
Qed.

Lemma strmap_keys_delete k m :
  StrMap.keys (StrMap.delete k m)
  = filter (fun x => negb (String.eqb x k)) (StrMap.keys m).
Proof.
  unfold StrMap.keys, StrMap.delete. induction m as [|e m IH]; simpl; [reflexivity|].
  destruct (String.eqb (fst e) k); simpl; rewrite IH; reflexivity.
Qed.

Lemma NoDup_filter_keeps (B : Type) (f : B -> bool) (l : list B) :
  NoDup l -> NoDup (filter f l).
Proof.
  induction 1 as [|x l Hx Hl IH]; simpl; [constructor|].
  destruct (f x); [|exact IH]. constructor; [|exact IH].
  intros H. apply filter_In in H. tauto.
Qed.

Lemma strmap_NoDup_set k v m :
  NoDup (StrMap.keys m) -> NoDup (StrMap.keys (StrMap.set k v m)).
Proof.
  intros H. rewrite strmap_keys_set. destruct (StrMap.has k m) eqn:E; [exact H|].
  apply NoDup_app; [exact H|repeat constructor; intros []|].
  intros x Hx [<- | []]. apply strmap_has_keys in Hx. congruence.
Qed.

Lemma strmap_NoDup_delete k m :
  NoDup (StrMap.keys m) -> NoDup (StrMap.keys (StrMap.delete k m)).
Proof.
  intros H. rewrite strmap_keys_delete. apply NoDup_filter_keeps. exact H.
Qed.

End StrMapFacts.

(** ** The registry of nodes *)

Section RegistryFacts.

Import JS Node NodeManager Registry.

Lemma node_map_is_strmap :
  (forall k m, map_has k m = StrMap.has k m)
  /\ (forall k m, map_get k m = StrMap.get k m)
  /\ (forall k v m, map_set k v m = StrMap.set k v m)
  /\ (forall k m, map_delete k m = StrMap.delete k m).
Proof. repeat split. Qed.

Lemma connect_options (outcome : SocketOutcome) (n : Node.t) :
  options (snd (connect outcome n)) = options n.
Proof.
  unfold connect. destruct (state n); try reflexivity;
    destruct outcome as [now|code reason r|]; try reflexivity; simpl;
    match goal with
    | |- options (snd (match state ?x with _ => _ end)) = _ =>
        assert (Ho : options x = options n);
        [|destruct (state x); simpl; exact Ho]
    end;
    unfold socketClosed, onClose, scheduleReconnect, clearHeartbeatInterval; simpl;
    repeat match goal with
           | |- context [if ?b then _ else _] => destruct b; simpl
           end; reflexivity.
Qed.

Lemma connect_ok_iff (outcome : SocketOutcome) (n : Node.t) :
  (exists u, fst (connect outcome n) = Ok u) <->
  (state n = DISCONNECTED \/ state n = RECONNECTING) /\ exists now, outcome = Opens now.
Proof.
  unfold connect. split.
  - intros [u H].
    destruct (state n) eqn:Es; try discriminate;
      (split; [auto|]);
      destruct outcome as [now|code reason r|]; try discriminate;
      try (exists now; reflexivity);
      simpl in H;
      match type of H with
      | fst (match state ?x with _ => _ end) = _ => destruct (state x); discriminate
      end.
  - intros [[Hs | Hs] [now ->]]; rewrite Hs; exists tt; reflexivity.
Qed.

Lemma connect_ok_connected (outcome : SocketOutcome) (n : Node.t) (u : unit) :
  fst (connect outcome n) = Ok u -> isConnected (snd (connect outcome n)) = true.
Proof.
  intros H. destruct (proj1 (connect_ok_iff outcome n) (ex_intro _ u H))
    as [Hs [now ->]].
  unfold connect. destruct Hs as [Hs | Hs]; rewrite Hs; reflexivity.
Qed.

(** What [addNode] does, by cases. *)
Lemma addNode_cases (o : NodeOptions) (outcome : SocketOutcome) (nm : NodeManager.t) :
  (exists e, addNode o outcome nm = (Throw e, nm))
  \/ (exists node,
        addNode o outcome nm
        = (Ok node, set_nodes nm (nodes nm ++ [(name o, node)]))
        /\ map_has (name o) (nodes nm) = false
        /\ opt_name (options node) = name o
        /\ isConnected node = true).
Proof.
  unfold addNode.
  destruct (map_has (name o) (nodes nm)) eqn:Hhas; [left; eexists; reflexivity|].
  destruct (truthy_opt (clientId nm)); simpl; [|left; eexists; reflexivity].
  pose proof (connect_options outcome (create o)) as Hopt.
  pose proof (connect_ok_connected outcome (create o)) as Hconn.
  destruct (connect outcome (create o)) as [[u|e] node'] eqn:E;
    destruct nm as [m cid pc]; unfold set_nodes; cbn [nodes clientId customPenaltyCalculator] in *;
    rewrite map_set_twice.
  - right. exists node'. rewrite (map_set_new _ _ _ Hhas).
    split; [reflexivity|]. split; [reflexivity|]. split.
    + cbn [snd] in Hopt. rewrite Hopt. reflexivity.
    + apply (Hconn u). reflexivity.
  - left. exists e. rewrite (map_delete_set_new _ _ _ Hhas). reflexivity.
Qed.

Lemma apply_well_named (nm : NodeManager.t) (op : Op) :
  well_named nm -> well_named (apply nm op).
Proof.
  intros [Hnd Hown]. destruct op as [id|o outcome|k|]; simpl.
  - split; assumption.
  - destruct (addNode_cases o outcome nm) as [[e H] | (node & H & Hnew & Hname & _)];
      rewrite H; simpl; [split; assumption|].
    unfold well_named, names. simpl. rewrite map_app. simpl. split.
    + apply NoDup_app; [exact Hnd|repeat constructor; intros []|].
      intros x Hx [<- | []].
      apply (strmap_has_keys Node.t) in Hx.
      change (StrMap.has (name o) (nodes nm)) with (map_has (name o) (nodes nm)) in Hx.
      congruence.
    + intros k n Hin. apply in_app_or in Hin. destruct Hin as [Hin | [Hin | []]].
      * apply Hown. exact Hin.
      * injection Hin as <- <-. exact Hname.
  - unfold removeNode. destruct (map_get k (nodes nm)); simpl; [|split; assumption].
    split.
    + apply (strmap_NoDup_delete Node.t). exact Hnd.
    + intros k' n Hin. apply filter_In in Hin. apply Hown. tauto.
  - split; [constructor|intros k n []].
Qed.

Lemma registry_invariant (ops : list Op) : well_named (after ops).
Proof.
  unfold after.
  assert (H : well_named NodeManager.empty) by (split; [constructor|intros k n []]).
  revert H. generalize NodeManager.empty.
  induction ops as [|op ops IH]; intros nm H; [exact H|].
  simpl. apply IH. apply apply_well_named. exact H.
Qed.

(** X1. Whatever sequence of init, addNode, removeNode and
    disconnectAll calls a fresh registry goes through, the names in it
    are distinct and every node is registered under the name in its own
    options. *)
Theorem registry_well_named (ops : list Op) : well_named (after ops).
Proof.
  destruct (registry_invariant ops) as [Hnd Hown]. split.
  - exact Hnd.
  - intros k n Hin. apply Hown. exact Hin.
Qed.

(** X2. [removeNode] of a name that is not registered returns false and
    changes nothing; of a registered name it returns true, after which
    the name is no longer found, every other name is found as before
    and the remaining names keep their order. *)
Theorem removeNode_spec (k : string) (nm : NodeManager.t) :
  (getNode k nm = None -> removeNode k nm = (false, nm))
  /\ (forall n, getNode k nm = Some n ->
      fst (removeNode k nm) = true
      /\ getNode k (snd (removeNode k nm)) = None
      /\ (forall k', k' <> k ->
            getNode k' (snd (removeNode k nm)) = getNode k' nm)
      /\ names (snd (removeNode k nm))
         = filter (fun x => negb (String.eqb x k)) (names nm)).
Proof.
  unfold getNode, removeNode. split.
  - intros H. rewrite H. reflexivity.
  - intros n H. rewrite H. simpl. split; [reflexivity|]. split.
    + apply (strmap_get_delete_same Node.t).
    + split.
      * intros k' Hne. apply (strmap_get_delete_other Node.t). exact Hne.
      * apply (strmap_keys_delete Node.t).
Qed.

Lemma get_app_new (k : string) (v : Node.t) (m : list (string * Node.t)) :
  map_has k m = false ->
  map_get k (m ++ [(k, v)]) = Some v
  /\ forall k', k' <> k -> map_get k' (m ++ [(k, v)]) = map_get k' m.
Proof.
  intros H. rewrite <- (map_set_new k v m H). split.
  - apply (strmap_get_set_same Node.t).
  - intros k' Hne. apply (strmap_get_set_other Node.t). exact Hne.
Qed.

(** X3. After a successful [addNode] the node is found under its name,
    which was not registered before and now comes last; every other
    name is found as before; and removing the node again gives back
    the registry as it was before the add. *)
Theorem addNode_then_lookup (o : NodeOptions) (outcome : SocketOutcome)
  (nm : NodeManager.t) (node : Node.t) (nm' : NodeManager.t) :
  addNode o outcome nm = (Ok node, nm') ->
  getNode (name o) nm = None
  /\ getNode (name o) nm' = Some node
  /\ (forall k', k' <> name o -> getNode k' nm' = getNode k' nm)
  /\ names nm' = names nm ++ [name o]
  /\ removeNode (name o) nm' = (true, nm).
Proof.
  intros H.
  destruct (addNode_cases o outcome nm) as [[e He] | (node0 & H0 & Hnew & _)];
    [congruence|].
  rewrite H0 in H. injection H as <- <-.
  destruct (get_app_new (name o) node0 (nodes nm) Hnew) as [Hget Hother].
  unfold getNode, names. simpl. split.
  { apply (strmap_get_none Node.t). intros Hin.
    apply (strmap_has_keys Node.t) in Hin.
    change (StrMap.has (name o) (nodes nm)) with (map_has (name o) (nodes nm)) in Hin.
    congruence. }
  split; [exact Hget|]. split; [exact Hother|]. split.
  { rewrite map_app. reflexivity. }
  unfold removeNode. simpl. rewrite Hget. f_equal.
  destruct nm as [m cid pc]. unfold set_nodes. simpl in *.
  rewrite <- (map_set_new _ node0 _ Hnew), (map_delete_set_new _ _ _ Hnew).
  reflexivity.
Qed.

(** X4. In a registry built by init, addNode, removeNode and
    disconnectAll calls, once a name has been removed [getBestNode]
    never returns a node of that name, with or without a region hint. *)
Theorem removed_never_selected {U : Unicode} (ops : list Op) (k : string)
  (hint : option string) (r : Node.t) :
  getBestNode hint (snd (removeNode k (after ops))) = Ok r ->
  opt_name (options r) <> k.
Proof.
  intros H.
  pose proof (registry_invariant (ops ++ [RemoveNode k])) as [_ Hown].
  unfold after in Hown. rewrite fold_left_app in Hown. simpl in Hown.
  fold (after ops) in Hown.
  pose proof (getBestNode_first_minimum hint _ r H) as Hmin.
  apply first_minimum_In, candidates_connected in Hmin.
  unfold getConnectedNodes in Hmin. apply filter_In in Hmin.
  destruct Hmin as [Hin _]. unfold getNodes in Hin. apply in_map_iff in Hin.
  destruct Hin as ([k' n] & E & Hin). simpl in E. subst n.
  rewrite (Hown k' r Hin).
  unfold removeNode in Hin.
  destruct (map_get k (nodes (after ops))) eqn:Eg; simpl in Hin.
  - apply filter_In in Hin. destruct Hin as [_ Hne]. simpl in Hne.
    destruct (String.eqb_spec k' k); [discriminate|assumption].
  - intros ->.
    apply (strmap_get_none Node.t) in Eg. apply Eg.
    unfold StrMap.keys. apply in_map_iff. exists (k, r). auto.
Qed.

Lemma fold_set_fresh (B C : Type) (g : string * B -> C)
  (l : list (string * B)) (init : StrMap.t C) :
  NoDup (StrMap.keys init ++ map fst l) ->
  fold_left (fun acc e => StrMap.set (fst e) (g e) acc) l init
  = init ++ map (fun e => (fst e, g e)) l.
Proof.
  revert init. induction l as [|e l IH]; intros init H; simpl.
  - rewrite app_nil_r. reflexivity.
  - assert (Hnew : StrMap.has (fst e) init = false).
    { destruct (StrMap.has (fst e) init) eqn:E; [|reflexivity].
      apply strmap_has_keys in E. simpl in H.
      apply NoDup_remove_2 in H. exfalso. apply H.
      apply in_or_app. left. exact E. }
    assert (Hset : StrMap.set (fst e) (g e) init = init ++ [(fst e, g e)]).
    { clear -Hnew. unfold StrMap.has in Hnew.
      induction init as [|x init IH]; simpl in *; [reflexivity|].
      apply orb_false_elim in Hnew. destruct Hnew as [H1 H2].
      rewrite H1, (IH H2). reflexivity. }
    rewrite Hset, IH.
    + rewrite <- app_assoc. reflexivity.
    + unfold StrMap.keys in *. rewrite map_app. simpl.
      rewrite <- app_assoc. simpl.
      simpl in H. exact H.
Qed.

Lemma fold_left_same (B C : Type) (f g : C -> B -> C) (l : list B) (a : C) :
  (forall x e, f x e = g x e) -> fold_left f l a = fold_left g l a.
Proof.
  intros H. revert a. induction l as [|e l IH]; intros a; simpl; [reflexivity|].
  rewrite H. apply IH.
Qed.

Lemma get_map_entry (B C : Type) (g : string * B -> C) (l : list (string * B))
  (k : string) (v : B) :
  NoDup (map fst l) -> In (k, v) l ->
  StrMap.get k (map (fun e => (fst e, g e)) l) = Some (g (k, v)).
Proof.
  unfold StrMap.get. induction l as [|e l IH]; intros Hnd Hin; [destruct Hin|].
  simpl in *. inversion Hnd as [|x l' Hx Hl]; subst.
  destruct Hin as [-> | Hin].
  - simpl. rewrite String.eqb_refl. reflexivity.
  - destruct (String.eqb_spec (fst e) k) as [Ek|Ek].
    + exfalso. apply Hx. rewrite Ek. apply in_map_iff. exists (k, v). auto.
    + apply IH; assumption.
Qed.

(** X5. With distinct names, [getNodePenalties] lists the registered
    names in registration order, each with Infinity when the node is
    not connected and with the scorer's value otherwise; with the
    built-in scorer this is the node's own [getPenalty] for every
    node. *)
Theorem getNodePenalties_spec (nm : NodeManager.t) :
  NoDup (names nm) ->
  getNodePenalties nm
  = map (fun e => (fst e,
                   if isConnected (snd e) then penaltyFn nm (snd e) else Infinity))
        (nodes nm)
  /\ StrMap.keys (getNodePenalties nm) = names nm
  /\ (forall k n, In (k, n) (nodes nm) -> isConnected n = false ->
        StrMap.get k (getNodePenalties nm) = Some Infinity)
  /\ (customPenaltyCalculator nm = None ->
      forall k n, In (k, n) (nodes nm) ->
        StrMap.get k (getNodePenalties nm) = Some (getPenalty n)).
Proof.
  intros Hnd.
  assert (E : getNodePenalties nm
              = map (fun e => (fst e,
                     if isConnected (snd e) then penaltyFn nm (snd e) else Infinity))
                    (nodes nm)).
  { unfold getNodePenalties.
    pose proof (fold_set_fresh Node.t number
                  (fun e => if isConnected (snd e) then penaltyFn nm (snd e)
                            else Infinity) (nodes nm) [] Hnd) as F.
    simpl in F. rewrite <- F.
    apply fold_left_same. intros acc e.
    destruct (isConnected (snd e)); reflexivity. }
  assert (Hget : forall k n (g : string * Node.t -> number),
             In (k, n) (nodes nm) ->
             StrMap.get k (map (fun e => (fst e, g e)) (nodes nm)) = Some (g (k, n))).
  { intros k n g. apply get_map_entry. exact Hnd. }
  split; [exact E|]. rewrite E. split.
  { unfold StrMap.keys, names. rewrite map_map. reflexivity. }
  split.
  - intros k n Hin Hc. rewrite (Hget k n _ Hin). simpl. rewrite Hc. reflexivity.
  - intros Hcustom k n Hin. rewrite (Hget k n _ Hin). simpl.
    unfold penaltyFn. rewrite Hcustom.
    destruct (isConnected n) eqn:Hc; [reflexivity|].
    rewrite (getPenalty_infinite n (or_introl Hc)). reflexivity.
Qed.

Lemma healthCheck_fold (getStats : Node.t -> Result string NodeStats)
  (l : list (string * Node.t)) (health : StrMap.t bool) (asked : list Node.t) :
  fold_left
    (fun acc e =>
       let '(health, asked) := acc in
       if isConnected (snd e)
       then
         match getStats (snd e) with
         | Ok _ => (StrMap.set (fst e) true health, asked ++ [snd e])
         | Throw _ => (StrMap.set (fst e) false health, asked ++ [snd e])
         end
       else (StrMap.set (fst e) false health, asked))
    l (health, asked)
  = (fold_left (fun acc e =>
                  StrMap.set (fst e)
                    (isConnected (snd e) && endpoint_ok getStats (snd e)) acc)
               l health,
     asked ++ filter isConnected (map snd l)).
Proof.
  revert health asked. induction l as [|e l IH]; intros health asked; simpl.
  - rewrite app_nil_r. reflexivity.
  - assert (Eok : endpoint_ok getStats (snd e)
                  = match getStats (snd e) with Ok _ => true | Throw _ => false end)
      by reflexivity.
    destruct (isConnected (snd e)) eqn:Ec; [destruct (getStats (snd e)) eqn:Eg|];
      rewrite IH; cbn [andb]; rewrite ?Eok, <- ?app_assoc; reflexivity.
Qed.

(** X6. With distinct names, [healthCheck] reports every registered
    node, healthy exactly when it is connected and its stats endpoint
    answers; the endpoints asked are those of the connected nodes, in
    registration order, so a node that is not connected is reported
    unhealthy without a request. *)
Theorem healthCheck_spec (getStats : Node.t -> Result string NodeStats)
  (nm : NodeManager.t) :
  NoDup (names nm) ->
  fst (healthCheck getStats nm)
  = map (fun e => (fst e, isConnected (snd e) && endpoint_ok getStats (snd e)))
        (nodes nm)
  /\ snd (healthCheck getStats nm) = getConnectedNodes nm
  /\ (forall n, In n (snd (healthCheck getStats nm)) -> isConnected n = true).
Proof.
  intros Hnd. unfold healthCheck. rewrite healthCheck_fold. simpl.
  split; [|split].
  - apply (fold_set_fresh Node.t bool
             (fun e => isConnected (snd e) && endpoint_ok getStats (snd e))
             (nodes nm) []). exact Hnd.
  - reflexivity.
  - intros n Hin. apply filter_In in Hin. tauto.
Qed.

(** X3, an instance: a fourth node added to the three sample nodes is
    found under its name, and removing it gives the three back. *)
Lemma addNode_then_lookup_witness :
  removeNode "n9" (snd (addNode Samples.fourth_options (Opens 0) Samples.three_nodes))
  = (true, Samples.three_nodes).
Proof.
  epose proof (addNode_then_lookup Samples.fourth_options (Opens 0)
                 Samples.three_nodes _ _ eq_refl) as (_ & _ & _ & _ & H).
  exact H.
Defined.

(** X4, an instance: two nodes are added, the first is removed; the
    node selected afterwards is the second. *)
Lemma removed_never_selected_witness :
  opt_name (options (socketOpened 0 (create MoreSamples.fifth_options)))
  <> "n9"%string.
Proof.
  apply (removed_never_selected (U := Samples.ascii_table)
           MoreSamples.two_added "n9" None).
  reflexivity.
Defined.

(** X5, an instance: the penalties of the three sample nodes. *)
Lemma getNodePenalties_spec_witness :
  StrMap.keys (getNodePenalties Samples.three_nodes) = ["n5"; "n2"; "n8"]%string.
Proof.
  apply (getNodePenalties_spec Samples.three_nodes).
  repeat constructor; simpl; intuition discriminate.
Defined.

(** X6, an instance: with every endpoint down, the nodes asked are the
    three connected sample nodes. *)
Lemma healthCheck_spec_witness :
  snd (healthCheck MoreSamples.endpoint_down Samples.three_nodes)
  = [Samples.node5; Samples.node2; Samples.node8].
Proof.
  apply (healthCheck_spec MoreSamples.endpoint_down Samples.three_nodes).
  repeat constructor; simpl; intuition discriminate.
Defined.

End RegistryFacts.

(** ** The queue of a session *)

Section QueueFacts.

Import JS Lavalink Player PlayerControls.

Lemma nth_error_parts (q : list Track) (i : nat) (x : Track) :
  nth_error q i = Some x ->
  q = firstn i q ++ x :: skipn (S i) q /\ List.length (firstn i q) = i.
Proof.
  revert i. induction q as [|y q IH]; intros [|i] H; simpl in *; try discriminate.
  - inversion H. auto.
  - destruct (IH i H) as [E L]. split; [f_equal; exact E|f_equal; exact L].
Qed.

Lemma splice_out_app (before after : list Track) (x : Track) :
  splice_out (List.length before) (before ++ x :: after) = before ++ after.
Proof.
  unfold splice_out. induction before as [|y before IH]; simpl.
  - reflexivity.
  - f_equal. exact IH.
Qed.

Lemma in_range (index : Z) (q : list Track) :
  (index <? 0)%Z || (Z.of_nat (List.length q) <=? index)%Z = false <->
  (0 <= index < Z.of_nat (List.length q))%Z.
Proof.
  rewrite orb_false_iff, Z.ltb_ge, Z.leb_gt. tauto.
Qed.

(** X10. [removeTrack] with an index outside the queue returns nothing
    and changes nothing; with an index inside it returns the track at
    that index and the queue keeps the tracks before and after it, in
    order. *)
Theorem removeTrack_spec (index : Z) (p : Player.t) :
  ((index < 0 \/ Z.of_nat (List.length (queue p)) <= index)%Z ->
   removeTrack index p = (None, p))
  /\ ((0 <= index < Z.of_nat (List.length (queue p)))%Z ->
      exists before tr after,
        queue p = before ++ tr :: after
        /\ Z.of_nat (List.length before) = index
        /\ removeTrack index p = (Some tr, set_queue p (before ++ after))).
Proof.
  unfold removeTrack. split.
  - intros H.
    destruct ((index <? 0)%Z || (Z.of_nat (List.length (queue p)) <=? index)%Z) eqn:E;
      [reflexivity|].
    apply in_range in E. lia.
  - intros H. rewrite (proj2 (in_range index (queue p)) H).
    destruct (nth_error (queue p) (Z.to_nat index)) as [tr|] eqn:En.
    + destruct (nth_error_parts _ _ _ En) as [Eq Hl].
      exists (firstn (Z.to_nat index) (queue p)), tr, (skipn (S (Z.to_nat index)) (queue p)).
      split; [exact Eq|split; [rewrite Hl; lia|reflexivity]].
    + apply nth_error_None in En. lia.
Qed.

Lemma splice_in_parts (to : nat) (x : Track) (q : list Track) :
  (to <= List.length q)%nat ->
  nth_error (splice_in to x q) to = Some x
  /\ splice_out to (splice_in to x q) = q
  /\ Permutation (splice_in to x q) (x :: q).
Proof.
  intros H. unfold splice_in.
  assert (L : List.length (firstn to q) = to) by (rewrite length_firstn; lia).
  repeat split.
  - rewrite nth_error_app2 by lia. rewrite L, Nat.sub_diag. reflexivity.
  - rewrite <- L at 1. rewrite splice_out_app. apply firstn_skipn.
  - symmetry. rewrite <- (firstn_skipn to q) at 1. apply Permutation_middle.
Qed.

Lemma splice_out_parts (i : nat) (x : Track) (q : list Track) :
  nth_error q i = Some x ->
  Permutation q (x :: splice_out i q) /\ S (List.length (splice_out i q)) = List.length q.
Proof.
  intros H. destruct (nth_error_parts _ _ _ H) as [E L]. unfold splice_out. split.
  - rewrite E at 1. symmetry. apply Permutation_middle.
  - rewrite E at 3. rewrite !length_app. simpl. lia.
Qed.

Lemma moveTrack_perm (from to : Z) (p : Player.t) :
  Permutation (queue (snd (moveTrack from to p))) (queue p).
Proof.
  unfold moveTrack. cbv zeta.
  match goal with |- context [if ?c then _ else _] => destruct c eqn:E; [reflexivity|] end.
  rewrite !orb_false_iff, !Z.ltb_ge, !Z.leb_gt in E.
  destruct (nth_error (queue p) (Z.to_nat from)) as [tr|] eqn:En; [|reflexivity].
  destruct (splice_out_parts _ _ _ En) as [Hp Hl].
  assert (Hto : (Z.to_nat to <= List.length (splice_out (Z.to_nat from) (queue p)))%nat) by lia.
  destruct (splice_in_parts _ tr _ Hto) as (H1 & H2 & H3).
  simpl. rewrite H3. symmetry. exact Hp.
Qed.

(** X11. [moveTrack] with an index outside the queue returns false and
    changes nothing; otherwise it returns true, the track that was at
    [from] is at [to], the other tracks keep their relative order, and
    the queue holds the same tracks as before. *)
Theorem moveTrack_spec (from to : Z) (p : Player.t) :
  let len := Z.of_nat (List.length (queue p)) in
  ((from < 0 \/ len <= from \/ to < 0 \/ len <= to)%Z -> moveTrack from to p = (false, p))
  /\ ((0 <= from < len /\ 0 <= to < len)%Z ->
      exists tr,
        fst (moveTrack from to p) = true
        /\ nth_error (queue p) (Z.to_nat from) = Some tr
        /\ nth_error (queue (snd (moveTrack from to p))) (Z.to_nat to) = Some tr
        /\ splice_out (Z.to_nat to) (queue (snd (moveTrack from to p)))
           = splice_out (Z.to_nat from) (queue p)
        /\ Permutation (queue (snd (moveTrack from to p))) (queue p)).
Proof.
  intros len. subst len. unfold moveTrack. cbv zeta. split.
  - intros H.
    destruct ((from <? 0)%Z || (Z.of_nat (List.length (queue p)) <=? from)%Z
              || (to <? 0)%Z || (Z.of_nat (List.length (queue p)) <=? to)%Z) eqn:E;
      [reflexivity|].
    rewrite !orb_false_iff, !Z.ltb_ge, !Z.leb_gt in E. lia.
  - intros [Hf Ht].
    replace ((from <? 0)%Z || (Z.of_nat (List.length (queue p)) <=? from)%Z
             || (to <? 0)%Z || (Z.of_nat (List.length (queue p)) <=? to)%Z) with false.
    2:{ symmetry. rewrite !orb_false_iff, !Z.ltb_ge, !Z.leb_gt. lia. }
    destruct (nth_error (queue p) (Z.to_nat from)) as [tr|] eqn:En.
    + exists tr. destruct (splice_out_parts _ _ _ En) as [Hp Hl].
      assert (Hto : (Z.to_nat to <= List.length (splice_out (Z.to_nat from) (queue p)))%nat) by lia.
      destruct (splice_in_parts _ tr _ Hto) as (H1 & H2 & H3).
      simpl. repeat split; auto.
      rewrite H3. symmetry. exact Hp.
    + apply nth_error_None in En. lia.
Qed.

Lemma assign_perm (j : nat) (a b : Track) (l : list Track) :
  nth_error l j = Some b -> Permutation (b :: assign j a l) (a :: l).
Proof.
  revert j. induction l as [|y l IH]; intros [|j] H; simpl in *; try discriminate.
  - inversion H. subst. apply perm_swap.
  - apply perm_trans with (y :: b :: assign j a l); [apply perm_swap|].
    apply perm_trans with (y :: a :: l); [|apply perm_swap].
    apply perm_skip. apply IH. exact H.
Qed.

Lemma swap_perm (i j : nat) (q : list Track) : Permutation (swap i j q) q.
Proof.
  revert i j. induction q as [|y q IH]; intros i j.
  - unfold swap. destruct i, j; reflexivity.
  - unfold swap. destruct i as [|i], j as [|j]; simpl.
    + reflexivity.
    + destruct (nth_error q j) as [b|] eqn:E; [|reflexivity].
      apply assign_perm. exact E.
    + destruct (nth_error q i) as [a|] eqn:E; [|reflexivity].
      apply assign_perm. exact E.
    + specialize (IH i j). unfold swap in IH.
      destruct (nth_error q i) as [a|]; [|reflexivity].
      destruct (nth_error q j) as [b|]; [|reflexivity].
      apply perm_skip. exact IH.
Qed.

Lemma shuffle_from_perm (random : nat -> nat) (i : nat) (q : list Track) :
  Permutation (shuffle_from random i q) q.
Proof.
  revert q. induction i as [|i IH]; intros q; simpl.
  - reflexivity.
  - apply perm_trans with (swap (S i) (random (S i + 1)%nat mod (S i + 1)) q).
    + apply IH.
    + apply swap_perm.
Qed.

(** X12. [shuffleQueue] rearranges the queue: whatever the random
    draws, the queue afterwards is a permutation of the queue before,
    and nothing else of the session changes. *)
Theorem shuffleQueue_permutes (env : Env) (p : Player.t) :
  Permutation (queue (shuffleQueue env p)) (queue p)
  /\ List.length (queue (shuffleQueue env p)) = List.length (queue p)
  /\ (forall tr, In tr (queue (shuffleQueue env p)) <-> In tr (queue p))
  /\ shuffleQueue env p = set_queue p (queue (shuffleQueue env p)).
Proof.
  assert (H : Permutation (queue (shuffleQueue env p)) (queue p)).
  { unfold shuffleQueue. simpl. apply shuffle_from_perm. }
  repeat split.
  - exact H.
  - apply Permutation_length. exact H.
  - apply Permutation_in. exact H.
  - apply Permutation_in. symmetry. exact H.
Qed.

End QueueFacts.

(** ** Playback controls *)

Section PlaybackFacts.

Import JS Lavalink Player PlayerControls.

Lemma play_given (env : Env) (tr : Track) (p : Player.t) :
  snd (play env (Some tr) p)
  = (if match updatePlayer env tr with Ok _ => true | Throw _ => false end
     then startPositionUpdate else fun x => x)
      (add_request (set_track p (Some tr)) tr)
  /\ fst (play env (Some tr) p)
     = match updatePlayer env tr with Ok _ => Ok tt | Throw e => Throw e end.
Proof.
  unfold play. destruct (updatePlayer env tr); split; reflexivity.
Qed.

Lemma play_frame (env : Env) (given : option Track) (p : Player.t) :
  history (snd (play env given p)) = history p
  /\ previousTracks (snd (play env given p)) = previousTracks p
  /\ historyMaxSize (snd (play env given p)) = historyMaxSize p
  /\ emitted (snd (play env given p)) = emitted p
  /\ loopMode (snd (play env given p)) = loopMode p
  /\ autoPlay (snd (play env given p)) = autoPlay p.
Proof.
  unfold play. destruct given as [tr|]; [|destruct (queue p) as [|tr rest]];
    try destruct (updatePlayer env tr); simpl; repeat split; reflexivity.
Qed.

Lemma last_app_one (l : list Track) (x d : Track) : last (l ++ [x]) d = x.
Proof.
  induction l as [|y l IH]; simpl; [reflexivity|].
  destruct (l ++ [x]) eqn:E; [destruct l; discriminate|exact IH].
Qed.

Lemma removelast_app_one (l : list Track) (x : Track) : removelast (l ++ [x]) = l.
Proof.
  induction l as [|y l IH]; simpl; [reflexivity|].
  destruct (l ++ [x]) eqn:E; [destruct l; discriminate|f_equal; exact IH].
Qed.

Lemma previous_step (env : Env) (p : Player.t) :
  (previousTracks p = [] -> previous env p = (Ok false, p))
  /\ (forall older tr,
        previousTracks p = older ++ [tr] ->
        let p' := snd (previous env p) in
        track p' = Some tr
        /\ previousTracks p' = older
        /\ queue p' = match track p with
                      | Some current => current :: queue p
                      | None => queue p
                      end
        /\ requests p' = requests p ++ [tr]
        /\ history p' = history p
        /\ fst (previous env p)
           = match updatePlayer env tr with
             | Ok _ => Ok true
             | Throw e => Throw e
             end).
Proof.
  split.
  - intros H. unfold previous. rewrite H. reflexivity.
  - intros older tr H p'. subst p'. unfold previous. rewrite H.
    destruct (older ++ [tr]) as [|first rest] eqn:E; [destruct older; discriminate|].
    rewrite <- E. rewrite last_app_one, removelast_app_one. cbv zeta.
    unfold play. cbn [track set_previousTracks].
    destruct (track p) as [current|]; destruct (updatePlayer env tr);
      simpl; repeat split; reflexivity.
Qed.

(** X14. [previous] with no previous track returns false and changes
    nothing. Otherwise it takes the most recent previous track off the
    stack, puts the current track, if any, back at the front of the
    queue, makes the previous track current and asks the backend to
    play it; it returns true unless the backend refuses. The history
    is not touched. *)
Theorem previous_spec (env : Env) (p : Player.t) :
  (previousTracks p = [] -> previous env p = (Ok false, p))
  /\ (forall older tr,
        previousTracks p = older ++ [tr] ->
        let p' := snd (previous env p) in
        track p' = Some tr
        /\ previousTracks p' = older
        /\ queue p' = match track p with
                      | Some current => current :: queue p
                      | None => queue p
                      end
        /\ requests p' = requests p ++ [tr]
        /\ history p' = history p
        /\ fst (previous env p)
           = match updatePlayer env tr with
             | Ok _ => Ok true
             | Throw e => Throw e
             end).
Proof.
  split.
  - apply (proj1 (previous_step env p)).
  - intros older tr H. exact (proj2 (previous_step env p) older tr H).
Qed.

Lemma push_capped_cases (cap : nat) (tr : Track) (l : list Track) :
  push_capped cap tr l
  = if Nat.ltb (List.length l) cap then l ++ [tr] else tl (l ++ [tr]).
Proof.
  unfold push_capped. rewrite length_app. simpl.
  destruct (Nat.ltb_spec cap (List.length l + 1)), (Nat.ltb_spec (List.length l) cap);
    try reflexivity; lia.
Qed.

Lemma push_capped_length (cap : nat) (tr : Track) (l : list Track) :
  (List.length l <= cap)%nat -> (List.length (push_capped cap tr l) <= cap)%nat.
Proof.
  intros H. rewrite push_capped_cases.
  destruct (Nat.ltb_spec (List.length l) cap).
  - rewrite length_app. simpl. lia.
  - destruct l as [|y l]; simpl in *; [lia|]. rewrite length_app. simpl. lia.
Qed.

Lemma push_capped_last (cap : nat) (tr : Track) (l : list Track) :
  (0 < cap)%nat ->
  exists older, push_capped cap tr l = older ++ [tr]
    /\ older = if Nat.ltb (List.length l) cap then l else tl l.
Proof.
  intros H. rewrite push_capped_cases.
  destruct (Nat.ltb_spec (List.length l) cap).
  - exists l. split; reflexivity.
  - destruct l as [|y l]; simpl in *; [lia|]. exists l. split; reflexivity.
Qed.

Lemma track_end_next (env : Env) (p : Player.t) (a b : Track) (rest : list Track) :
  track p = Some a -> queue p = b :: rest -> loopMode p = LoopOff ->
  let p1 := snd (handleTrackEnd env finished p) in
  track p1 = Some b
  /\ queue p1 = rest
  /\ requests p1 = requests p ++ [b]
  /\ history p1 = push_capped (historyMaxSize p) a (history p)
  /\ previousTracks p1 = push_capped 10 a (previousTracks p).
Proof.
  intros Ht Hq Hl p1. subst p1.
  destruct p as [nd tk pos q pv h lm ap eng pu hm rq em]. simpl in Ht, Hq, Hl. subst.
  unfold handleTrackEnd, recordEnded, requeueEnded, selectNext, clearCurrent,
    clearPositionUpdate, play. cbn.
  destruct (updatePlayer env b); simpl; repeat split; reflexivity.
Qed.

(** X15. [previous] undoes a track end: when the current track
    finishes with loop mode off and a track pending, and [previous] is
    called next, the track that finished is current again and the
    queue is what it was; the backend was asked to play the pending
    track and then the finished one, which stays in the history. *)
Theorem previous_undoes_track_end (env env' : Env) (p : Player.t)
  (a b : Track) (rest : list Track) :
  track p = Some a -> queue p = b :: rest -> loopMode p = LoopOff ->
  let p' := snd (previous env' (snd (handleTrackEnd env finished p))) in
  track p' = Some a
  /\ queue p' = b :: rest
  /\ requests p' = requests p ++ [b; a]
  /\ previousTracks p'
     = (if Nat.ltb (List.length (previousTracks p)) 10
        then previousTracks p else tl (previousTracks p))
  /\ history p' = push_capped (historyMaxSize p) a (history p).
Proof.
  intros Ht Hq Hl p'. subst p'.
  destruct (track_end_next env p a b rest Ht Hq Hl) as (T1 & Q1 & R1 & H1 & P1).
  destruct (push_capped_last 10 a (previousTracks p)) as (older & Eo & Ho); [lia|].
  rewrite Eo in P1.
  destruct (proj2 (previous_step env' (snd (handleTrackEnd env finished p))) older a P1)
    as (T2 & P2 & Q2 & R2 & H2 & _).
  rewrite T2, P2, Q2, R2, H2, T1, Q1, R1, H1, Ho, <- app_assoc.
  repeat split; reflexivity.
Qed.

(** X15, an instance: track A finishes with B and C pending, then
    [previous] is called; A is current again with B and C pending. *)
Lemma previous_undoes_track_end_witness :
  track (snd (previous Samples.env_ok
                (snd (handleTrackEnd Samples.env_ok finished
                        (Samples.session (Some Samples.trackA)
                           [Samples.trackB; Samples.trackC] LoopOff)))))
  = Some Samples.trackA
  /\ queue (snd (previous Samples.env_ok
                   (snd (handleTrackEnd Samples.env_ok finished
                           (Samples.session (Some Samples.trackA)
                              [Samples.trackB; Samples.trackC] LoopOff)))))
     = [Samples.trackB; Samples.trackC].
Proof.
  destruct (previous_undoes_track_end Samples.env_ok Samples.env_ok
              (Samples.session (Some Samples.trackA)
                 [Samples.trackB; Samples.trackC] LoopOff)
              Samples.trackA Samples.trackB [Samples.trackC]
              eq_refl eq_refl eq_refl) as (H1 & H2 & _).
  split; assumption.
Defined.

End PlaybackFacts.

(** ** What autoplay and the controls leave alone *)

Section AutoPlayFrame.

Import JS Lavalink AutoPlay.

Variable P : Type.
Variable X : Type.
Variable ops : PlayerOps P.
Variable f : P -> X.
Hypothesis f_addTrack : forall tr p, f (addTrack ops tr p) = f p.
Hypothesis f_play : forall p, f (snd (play ops p)) = f p.

Lemma playRandom_frame (candidates : list Track) (player : P) :
  f (snd (playRandom ops candidates player)) = f player.
Proof.
  unfold playRandom. destruct candidates as [|first rest]; [reflexivity|].
  cbv zeta.
  match goal with |- context [play ops ?x] =>
    pose proof (f_play x) as H; destruct (play ops x) as [[u|e] p'] end;
    simpl in *; rewrite H; apply f_addTrack.
Qed.

Lemma dispatch_frame (a : AutoPlay.t) (player : P) (prev : Track) :
  f (snd (dispatch ops a player prev)) = f player.
Proof.
  unfold dispatch, handleYouTube, handleSoundCloud, handleSpotify. cbv zeta.
  repeat match goal with
         | |- context [if ?c then _ else _] => destruct c
         end; try reflexivity;
    match goal with
    | |- context [search ops ?p ?q ?pl] => destruct (search ops p q pl) as [[tr|ts|ts| |m]|e]
    end; try reflexivity; try apply playRandom_frame;
    try (destruct ts; [reflexivity|apply playRandom_frame]).
Qed.

Lemma execute_frame (a : AutoPlay.t) (player : P) (prev : option Track) :
  f (snd (execute ops a player prev)) = f player.
Proof.
  unfold execute. destruct prev as [prev|]; [|reflexivity].
  destruct (nodeIsConnected ops player); [|reflexivity]. simpl.
  pose proof (dispatch_frame (remember (trackId prev) a) player prev) as H.
  destruct (dispatch ops (remember (trackId prev) a) player prev) as [[b|e] p']; exact H.
Qed.

End AutoPlayFrame.

Section BoundedHistory.

Import JS Lavalink Player PlayerControls.

Lemma play_records (env : Env) (given : option Track) (p : Player.t) :
  records (snd (play env given p)) = records p.
Proof.
  unfold play, records. destruct given as [tr|]; [|destruct (queue p) as [|tr rest]];
    try destruct (updatePlayer env tr); reflexivity.
Qed.

Lemma tryAutoPlay_records (env : Env) (reason : TrackEndReason)
  (prev : option Track) (p : Player.t) :
  records (snd (tryAutoPlay env reason prev p)) = records p.
Proof.
  unfold tryAutoPlay.
  destruct (autoPlay p), (is_finished reason), (queue p), prev as [prev|]; try reflexivity.
  pose proof (execute_frame Player.t _ (ops env) records
                (fun tr p => eq_refl) (play_records env None)
                (autoPlayEngine p) p (Some prev)) as H.
  destruct (AutoPlay.execute (ops env) (autoPlayEngine p) p (Some prev)) as [[a [b|e]] p'];
    simpl in *; exact H.
Qed.

Lemma selectNext_records (env : Env) (reason : TrackEndReason)
  (prev : option Track) (p : Player.t) :
  records (snd (selectNext env reason prev p)) = records p.
Proof.
  unfold selectNext. cbv zeta.
  assert (Hc : records (clearCurrent p) = records p) by reflexivity.
  pose proof (tryAutoPlay_records env reason prev (clearCurrent p)) as H.
  destruct (is_finished reason); [destruct (queue (clearCurrent p)) eqn:Eq|].
  - destruct (tryAutoPlay env reason prev (clearCurrent p)) as [success p2].
    simpl in H. destruct success; [|destruct (queue p2)]; simpl; rewrite <- Hc, <- H;
      reflexivity.
  - rewrite play_records. exact Hc.
  - destruct (tryAutoPlay env reason prev (clearCurrent p)) as [success p2].
    simpl in H. destruct success; [|destruct (queue p2)]; simpl; rewrite <- Hc, <- H;
      reflexivity.
Qed.

Lemma recordEnded_bounded (p : Player.t) :
  (List.length (history p) <= historyMaxSize p)%nat ->
  (List.length (previousTracks p) <= 10)%nat ->
  (List.length (history (recordEnded p)) <= historyMaxSize p)%nat
  /\ (List.length (previousTracks (recordEnded p)) <= 10)%nat
  /\ historyMaxSize (recordEnded p) = historyMaxSize p.
Proof.
  intros Hh Hp. unfold recordEnded. destruct (track p) as [tr|]; simpl.
  - repeat split; [apply push_capped_length; exact Hh|apply push_capped_length; exact Hp].
  - repeat split; assumption.
Qed.

Lemma handleTrackEnd_records (env : Env) (reason : TrackEndReason) (p : Player.t) :
  records (snd (handleTrackEnd env reason p)) = records (recordEnded p).
Proof.
  unfold handleTrackEnd. cbv zeta.
  destruct (is_finished reason) eqn:Ef, (loopMode (recordEnded p)) eqn:El,
    (track (recordEnded p)) as [tr|] eqn:Et;
    try apply play_records;
    rewrite selectNext_records; unfold requeueEnded; rewrite ?Ef, ?El; reflexivity.
Qed.

Lemma bounded_records (p p' : Player.t) :
  records p' = records p -> bounded p -> bounded p'.
Proof.
  unfold records, bounded. intros H. inversion H as [[H1 H2 H3]].
  rewrite H1, H2, H3. tauto.
Qed.

Lemma apply_bounded (p : Player.t) (c : Cmd) : bounded p -> bounded (apply p c).
Proof.
  intros Hb. destruct c; simpl;
    try (apply (bounded_records p); [reflexivity|exact Hb]).
  - apply (bounded_records p); [|exact Hb]. unfold removeTrack.
    match goal with |- context [if ?c then _ else _] => destruct c end; reflexivity.
  - destruct Hb as (H1 & H2 & H3). unfold bounded, clearHistory. simpl.
    repeat split; try assumption. lia.
  - apply (bounded_records p); [|exact Hb]. unfold moveTrack. cbv zeta.
    match goal with |- context [if ?c then _ else _] => destruct c end; [reflexivity|].
    destruct (nth_error (queue p) (Z.to_nat from)); reflexivity.
  - apply (bounded_records p); [|exact Hb]. apply play_records.
  - apply (bounded_records p); [|exact Hb]. unfold stop. destruct reply; reflexivity.
  - apply (bounded_records p); [|exact Hb]. unfold seek.
    destruct (track p); [|reflexivity].
    match goal with |- context [if ?c then _ else _] => destruct c end; [reflexivity|].
    destruct reply; reflexivity.
  - apply (bounded_records p); [|exact Hb]. unfold skip, stop.
    destruct (queue p) eqn:Eq.
    + destruct stopReply; reflexivity.
    + pose proof (play_records env None p) as H.
      destruct (play env None p) as [[u|e] p']; exact H.
  - unfold previous.
    destruct (previousTracks p) as [|first rest] eqn:Ep; [exact Hb|].
    cbv zeta.
    match goal with |- bounded (snd (match play env ?g ?x with _ => _ end)) =>
      pose proof (play_records env g x) as H;
      assert (Hx : bounded x);
      [|destruct (play env g x) as [[u|e] p']; simpl in *;
        (apply (bounded_records x); [exact H|exact Hx])]
    end.
    destruct Hb as (H1 & H2 & H3).
    assert (Hr : (List.length (removelast (first :: rest)) <= 10)%nat).
    { rewrite Ep in H2.
      assert (G : forall l : list Track,
                 (List.length (removelast l) <= List.length l)%nat).
      { induction l as [|y l IH]; simpl; [lia|]. destruct l; simpl in *; lia. }
      specialize (G (first :: rest)). lia. }
    cbn [track set_previousTracks].
    destruct (track p); unfold bounded; cbn; repeat split; assumption.
  - assert (H := handleTrackEnd_records env reason p).
    destruct Hb as (H1 & H2 & H3).
    destruct (recordEnded_bounded p) as (B1 & B2 & B3); [lia|lia|].
    apply (bounded_records (recordEnded p)); [exact H|].
    unfold bounded. rewrite B3, H3 in *. repeat split; assumption.
Qed.

Lemma run_bounded (cs : list Cmd) (p : Player.t) :
  bounded p -> bounded (fold_left apply cs p).
Proof.
  revert p. induction cs as [|c cs IH]; intros p H; simpl; [exact H|].
  apply IH. apply apply_bounded. exact H.
Qed.

(** X16. Whatever calls a new session goes through, its history never
    holds more than 50 tracks and its stack of previous tracks never
    more than 10. *)
Theorem histories_bounded (node : Node.t) (autoPlay : bool) (cs : list Cmd) :
  (List.length (getHistory (after node autoPlay cs)) <= 50)%nat
  /\ (List.length (previousTracks (after node autoPlay cs)) <= 10)%nat.
Proof.
  assert (H : bounded (after node autoPlay cs)).
  { apply run_bounded. unfold bounded, create. simpl. repeat split; lia. }
  destruct H as (H1 & H2 & _). split; assumption.
Qed.



End BoundedHistory.

(** ** Track end, seek and skip *)

Section MorePlayback.

Import JS Lavalink Player PlayerControls.

Lemma tryAutoPlay_off (env : Env) (reason : TrackEndReason)
  (prev : option Track) (p : Player.t) :
  autoPlay p = false \/ reason <> finished ->
  tryAutoPlay env reason prev p = (false, p).
Proof.
  intros H. unfold tryAutoPlay.
  destruct (autoPlay p); [|reflexivity].
  destruct reason; try reflexivity.
  destruct H as [H | H]; [discriminate|]. exfalso. apply H. reflexivity.
Qed.

(** X17. When autoplay is off or the track did not end by finishing,
    [handleTrackEnd] announces the end of the queue exactly when the
    queue is empty and the ended track is not replayed (the reason is
    not [finished], or loop mode is off, or there was no track); the
    session is then idle: no current track, empty queue, no request
    sent. *)
Theorem queueEnd_announced (env : Env) (reason : TrackEndReason) (p : Player.t) :
  autoPlay p = false \/ reason <> finished ->
  let p' := snd (handleTrackEnd env reason p) in
  let idle := queue p = []
              /\ (reason <> finished \/ loopMode p = LoopOff \/ track p = None) in
  (idle -> emitted p' = emitted p ++ [QueueEnd]
           /\ track p' = None /\ queue p' = [] /\ requests p' = requests p)
  /\ (~ idle -> emitted p' = emitted p).
Proof.
  intros Ha p' idle. subst p' idle.
  destruct p as [nd tk pos q pv h lm ap eng pu hm rq em]. simpl in Ha.
  assert (Hoff : forall prev p0, autoPlay p0 = ap ->
                   tryAutoPlay env reason prev p0 = (false, p0)).
  { intros prev p0 E. apply tryAutoPlay_off. rewrite E. exact Ha. }
  unfold handleTrackEnd, recordEnded, requeueEnded, selectNext,
    clearCurrent, clearPositionUpdate, play.
  split.
  - intros [Hq Hc]. simpl in Hq, Hc. subst q.
    destruct reason, lm, tk as [tr|]; cbn -[tryAutoPlay];
      rewrite ?Hoff by reflexivity; cbn;
      try (repeat split; reflexivity);
      exfalso; destruct Hc as [Hc|[Hc|Hc]]; try discriminate; apply Hc; reflexivity.
  - intros Hn. simpl in Hn.
    destruct q as [|b rest].
    + destruct reason, lm, tk as [tr|]; cbn -[tryAutoPlay];
        rewrite ?Hoff by reflexivity; cbn;
        try (exfalso; apply Hn; split; [reflexivity|];
             first [left; discriminate | right; left; reflexivity | right; right; reflexivity]);
        try (destruct (updatePlayer env tr); reflexivity).
    + destruct reason, lm, tk as [tr|]; cbn -[tryAutoPlay];
        rewrite ?Hoff by reflexivity; cbn;
        try (destruct (updatePlayer env b); reflexivity);
        try (destruct (updatePlayer env tr); reflexivity);
        reflexivity.
Qed.

(** X17, an instance: track A is stopped with nothing pending; the end
    of the queue is announced. *)
Lemma queueEnd_announced_witness :
  emitted (snd (handleTrackEnd Samples.env_ok stopped
                  (Samples.session (Some Samples.trackA) [] LoopOff)))
  = [QueueEnd].
Proof.
  apply (queueEnd_announced Samples.env_ok stopped
           (Samples.session (Some Samples.trackA) [] LoopOff)).
  - right. discriminate.
  - split; [reflexivity|]. left. discriminate.
Defined.

(** X18. [seek] succeeds exactly when a track is current, the position
    lies between 0 and the track's length, and the backend accepts;
    the position is then the one asked for. In every other case it
    throws and the session is unchanged. *)
Theorem seek_spec (reply : Result string unit) (pos : Z) (p : Player.t) :
  (fst (seek reply pos p) = Ok tt <->
   exists tr, track p = Some tr
     /\ (0 <= pos <= length (info tr))%Z
     /\ reply = Ok tt)
  /\ (fst (seek reply pos p) = Ok tt -> snd (seek reply pos p) = set_position p pos)
  /\ (fst (seek reply pos p) <> Ok tt -> snd (seek reply pos p) = p)
  /\ (track p = None ->
      fst (seek reply pos p) = Throw "No track is currently playing"%string).
Proof.
  unfold seek. destruct (track p) as [tr|] eqn:Et.
  - destruct ((pos <? 0)%Z || (length (info tr) <? pos)%Z) eqn:Eb.
    + simpl. repeat split; try discriminate; try reflexivity.
      intros (tr' & E & Hr & _). inversion E. subst tr'.
      rewrite orb_true_iff, Z.ltb_lt, Z.ltb_lt in Eb. lia.
    + rewrite orb_false_iff, Z.ltb_ge, Z.ltb_ge in Eb.
      destruct reply as [[]|e]; simpl; repeat split; try discriminate; try reflexivity.
      * intros _. exists tr. repeat split; try reflexivity; lia.
      * intros H. exfalso. apply H. reflexivity.
      * intros (tr' & _ & _ & H). discriminate.
  - simpl. repeat split; try discriminate; try reflexivity.
    intros (tr' & E & _). discriminate.
Qed.

(** X19. [skip] with an empty queue stops playback and returns false;
    with a pending track it makes the head of the queue current, asks
    the backend to play it and returns true unless the backend
    refuses. In no case does it record the skipped track in the
    history or in the previous tracks. *)
Theorem skip_spec (env : Env) (stopReply : Result string unit) (p : Player.t) :
  (queue p = [] ->
   skip env stopReply p
   = match stopReply with
     | Ok _ => (Ok false, clearCurrent p)
     | Throw e => (Throw e, p)
     end)
  /\ (forall next rest,
        queue p = next :: rest ->
        let p' := snd (skip env stopReply p) in
        track p' = Some next
        /\ queue p' = rest
        /\ requests p' = requests p ++ [next]
        /\ fst (skip env stopReply p)
           = match updatePlayer env next with
             | Ok _ => Ok true
             | Throw e => Throw e
             end)
  /\ history (snd (skip env stopReply p)) = history p
  /\ previousTracks (snd (skip env stopReply p)) = previousTracks p.
Proof.
  unfold skip, stop, play. repeat split.
  - intros H. rewrite H. destruct stopReply; reflexivity.
  - rewrite H. simpl. destruct (updatePlayer env next); reflexivity.
  - rewrite H. simpl. destruct (updatePlayer env next); reflexivity.
  - rewrite H. simpl. destruct (updatePlayer env next); reflexivity.
  - rewrite H. simpl. destruct (updatePlayer env next); reflexivity.
  - destruct (queue p) as [|next rest].
    + destruct stopReply; reflexivity.
    + destruct (updatePlayer env next); reflexivity.
  - destruct (queue p) as [|next rest].
    + destruct stopReply; reflexivity.
    + destruct (updatePlayer env next); reflexivity.
Qed.

End MorePlayback.

(** ** What autoplay picks *)

Section AutoPlayChoice.

Import JS Lavalink AutoPlay Player.

Lemma playRandom_unplayed (env : Env) (a : AutoPlay.t) (tracks : list Track) (p : Player.t) :
  queue p = [] ->
  (exists t, In t tracks /\ fresh a t = true) ->
  exists tr,
    In tr tracks /\ fresh a tr = true
    /\ playRandom (ops env) (availableTracks a tracks) p
       = (match updatePlayer env tr with
          | Ok _ => Ok true
          | Throw e => Throw e
          end,
          (if match updatePlayer env tr with Ok _ => true | Throw _ => false end
           then startPositionUpdate else fun x => x)
            (add_request (set_track p (Some tr)) tr)).
Proof.
  intros Hq (t & Hin & Hf).
  assert (Hne : filter (fresh a) tracks <> []).
  { intros E. assert (H : In t (filter (fresh a) tracks)) by (apply filter_In; auto).
    rewrite E in H. exact H. }
  pose proof (proj2 (availableTracks_fallback a tracks) Hne) as Ea.
  destruct (playRandom_plays Player.t (ops env) (availableTracks a tracks) p) as (tr & Hi & Ep).
  { rewrite Ea. exact Hne. }
  exists tr. rewrite Ea in Hi. apply filter_In in Hi. destruct Hi as [Hi1 Hi2].
  split; [exact Hi1|]. split; [exact Hi2|].
  rewrite Ep. unfold ops, AutoPlay.play, AutoPlay.addTrack, play, addTrack. simpl.
  rewrite Hq. simpl.
  destruct p as [nd tk pos q pv h lm ap eng pu hm rq em]. simpl in *. subst q.
  destruct (updatePlayer env tr); reflexivity.
Qed.

(** X20. When a YouTube track finishes with an empty queue, loop mode
    off, autoplay on and the node connected, and the radio playlist of
    the track holds a track the engine has not played, the session
    starts such a track: the new current track comes from the playlist
    and its identifier is not among the played ones. *)
Theorem autoplay_starts_unplayed (env : Env) (p : Player.t) (prev : Track)
  (tracks : list Track) :
  autoPlay p = true -> queue p = [] -> loopMode p = LoopOff -> track p = Some prev ->
  Node.isConnected (node p) = true ->
  sourceName (info prev) = "youtube"%string ->
  truthy (identifier (info prev)) = true ->
  loadTracks env (PlayerControls.radio_url (identifier (info prev))) = Ok (LoadPlaylist tracks) ->
  (exists t, In t tracks
     /\ fresh (remember (trackId prev) (autoPlayEngine p)) t = true) ->
  let p' := snd (handleTrackEnd env finished p) in
  exists tr,
    In tr tracks
    /\ fresh (remember (trackId prev) (autoPlayEngine p)) tr = true
    /\ track p' = Some tr
    /\ queue p' = []
    /\ requests p' = requests p ++ [tr]
    /\ autoPlayEngine p' = remember (trackId prev) (autoPlayEngine p).
Proof.
  intros Hap Hq Hl Ht Hc Hs Hid Hload Hex p'. subst p'.
  set (engine := remember (trackId prev) (autoPlayEngine p)) in *.
  set (p0 := clearCurrent (recordEnded p)).
  assert (Hq0 : queue p0 = []).
  { unfold p0, recordEnded. rewrite Ht. simpl. exact Hq. }
  destruct (playRandom_unplayed env engine tracks p0 Hq0 Hex) as (tr & Hin & Hf & Ep).
  exists tr. split; [exact Hin|]. split; [exact Hf|].
  assert (E : handleTrackEnd env finished p
              = (Ok tt, set_autoPlayEngine
                          ((if match updatePlayer env tr with Ok _ => true | Throw _ => false end
                            then startPositionUpdate else fun x => x)
                             (add_request (set_track p0 (Some tr)) tr)) engine)
              \/ handleTrackEnd env finished p
              = (Ok tt, emit (set_autoPlayEngine
                          ((if match updatePlayer env tr with Ok _ => true | Throw _ => false end
                            then startPositionUpdate else fun x => x)
                             (add_request (set_track p0 (Some tr)) tr)) engine) QueueEnd)).
  { unfold handleTrackEnd. cbv zeta.
    assert (R1 : loopMode (recordEnded p) = LoopOff).
    { unfold recordEnded. rewrite Ht. exact Hl. }
    assert (R2 : track (recordEnded p) = Some prev).
    { unfold recordEnded. rewrite Ht. exact Ht. }
    rewrite R1, R2. cbn [is_finished]. unfold requeueEnded. rewrite R1. cbn [is_finished].
    unfold selectNext. fold p0. rewrite Hq0. cbn [is_finished].
    unfold tryAutoPlay.
    assert (A1 : autoPlay p0 = true) by (unfold p0, recordEnded; rewrite Ht; exact Hap).
    assert (A2 : autoPlayEngine p0 = autoPlayEngine p)
      by (unfold p0, recordEnded; rewrite Ht; reflexivity).
    assert (A3 : Node.isConnected (node p0) = true)
      by (unfold p0, recordEnded; rewrite Ht; exact Hc).
    rewrite A1, Hq0, A2. cbn [is_finished].
    unfold AutoPlay.execute. cbn [nodeIsConnected ops]. rewrite A3. cbn [negb].
    fold engine. unfold dispatch. rewrite Hs. cbn [String.eqb Ascii.eqb Bool.eqb].
    unfold handleYouTube. rewrite Hid. cbn [negb].
    cbn [AutoPlay.search ops]. unfold search.
    replace (isUrl _) with true by reflexivity.
    fold (PlayerControls.radio_url (identifier (info prev))). rewrite Hload.
    rewrite Ep.
    assert (R3 : queue (recordEnded p) = []).
    { unfold recordEnded. rewrite Ht. exact Hq. }
    destruct (updatePlayer env tr); simpl; rewrite ?R3; [left|right]; reflexivity. }
  destruct E as [E | E]; rewrite E; simpl;
    destruct (updatePlayer env tr); simpl;
    destruct (recordEnded_frame p) as (_ & F2 & _ & F4); rewrite ?F2, ?F4;
    repeat split; try reflexivity; exact Hq.
Qed.

(** X20, an instance: track A finishes with nothing pending and the
    radio playlist holds A and B; a track of the playlist that the
    engine has not played becomes current. *)
Lemma autoplay_starts_unplayed_witness :
  exists tr,
    In tr [Samples.trackA; Samples.trackB]
    /\ fresh (remember (trackId Samples.trackA) AutoPlay.create) tr = true
    /\ track (snd (handleTrackEnd MoreSamples.env_radio finished
                     (Samples.session (Some Samples.trackA) [] LoopOff)))
       = Some tr.
Proof.
  destruct (autoplay_starts_unplayed MoreSamples.env_radio
              (Samples.session (Some Samples.trackA) [] LoopOff)
              Samples.trackA [Samples.trackA; Samples.trackB]
              eq_refl eq_refl eq_refl eq_refl eq_refl eq_refl eq_refl eq_refl)
    as (tr & H1 & H2 & H3 & _).
  - exists Samples.trackB. split; [right; left; reflexivity|reflexivity].
  - exists tr. repeat split; assumption.
Defined.

(** X21. A playlist reply is used by the YouTube strategy only: when
    the backend answers every search with a playlist, the SoundCloud
    and the Spotify strategy report failure and leave the player as it
    is, so [execute] returns false for a track of these sources. *)
Theorem playlist_reply_ignored (P : Type) (ops : PlayerOps P) (a : AutoPlay.t)
  (player : P) (prev : Track) :
  (forall query platform, exists tracks,
      AutoPlay.search ops player query platform = Ok (LoadPlaylist tracks)) ->
  handleSoundCloud ops a player prev = (Ok false, player)
  /\ handleSpotify ops a player prev = (Ok false, player)
  /\ (sourceName (info prev) = "soundcloud"%string
      \/ sourceName (info prev) = "spotify"%string ->
      AutoPlay.execute ops a player (Some prev)
      = (if nodeIsConnected ops player then remember (trackId prev) a else a,
         Ok false, player)).
Proof.
  intros H.
  assert (Hsc : forall a', handleSoundCloud ops a' player prev = (Ok false, player)).
  { intros a'. unfold handleSoundCloud.
    destruct (negb (truthy_opt (uri (info prev)))); [reflexivity|]. cbv zeta.
    match goal with |- context [AutoPlay.search ops player ?q ?pl] =>
      destruct (H q pl) as [ts E]; rewrite E end.
    reflexivity. }
  assert (Hsp : forall a', handleSpotify ops a' player prev = (Ok false, player)).
  { intros a'. unfold handleSpotify. cbv zeta.
    match goal with |- context [if ?c then _ else _] => destruct c; [reflexivity|] end.
    match goal with |- context [AutoPlay.search ops player ?q ?pl] =>
      destruct (H q pl) as [ts E]; rewrite E end.
    reflexivity. }
  split; [apply Hsc|]. split; [apply Hsp|].
  intros Hs. unfold AutoPlay.execute.
  destruct (nodeIsConnected ops player); [|reflexivity]. simpl.
  unfold dispatch. destruct Hs as [Hs | Hs]; rewrite Hs; simpl.
  - rewrite Hsc. reflexivity.
  - rewrite Hsp. reflexivity.
Qed.

(** X21, an instance: a SoundCloud track finishes on a session whose
    backend answers every search with a playlist; autoplay reports
    failure. *)
Lemma playlist_reply_ignored_witness :
  snd (fst (AutoPlay.execute (ops MoreSamples.env_radio) AutoPlay.create
              (Samples.session None [] LoopOff) (Some MoreSamples.trackS)))
  = Ok false.
Proof.
  destruct (playlist_reply_ignored Player.t (ops MoreSamples.env_radio) AutoPlay.create
              (Samples.session None [] LoopOff) MoreSamples.trackS) as (_ & _ & H).
  - intros query platform. exists [Samples.trackA; Samples.trackB].
    unfold AutoPlay.search, ops, search. simpl. destruct (isUrl query); reflexivity.
  - rewrite H; [reflexivity|]. left. reflexivity.
Defined.

End AutoPlayChoice.

(** ** The metadata cache *)

Section CacheFacts.

Import JS Lavalink MetadataCache.

Lemma set_shape (now : Z) (id : string) (tr : Track) (c : MetadataCache.t) :
  exists m,
    set now id tr c
    = mk (StrMap.set id (mkCacheEntry tr now) m) (maxSize c) (ttl c)
    /\ ((Z.of_nat (StrMap.size (cache c)) < maxSize c)%Z /\ m = cache c
        \/ (exists k, StrMap.firstKey (cache c) = Some k /\ truthy k = true
                      /\ (maxSize c <= Z.of_nat (StrMap.size (cache c)))%Z
                      /\ m = StrMap.delete k (cache c))
        \/ ((maxSize c <= Z.of_nat (StrMap.size (cache c)))%Z
            /\ (StrMap.firstKey (cache c) = None
                \/ exists k, StrMap.firstKey (cache c) = Some k /\ truthy k = false)
            /\ m = cache c)).
Proof.
  unfold set.
  destruct (Z.leb_spec (maxSize c) (Z.of_nat (StrMap.size (cache c)))) as [Hfull|Hroom].
  - destruct (StrMap.firstKey (cache c)) as [k|] eqn:Ek.
    + destruct (truthy k) eqn:Et.
      * exists (StrMap.delete k (cache c)). split; [reflexivity|].
        right. left. exists k. auto.
      * exists (cache c). split; [reflexivity|]. right. right.
        split; [exact Hfull|]. split; [|reflexivity]. right. exists k. auto.
    + exists (cache c). split; [reflexivity|]. right. right. auto.
  - exists (cache c). split; [reflexivity|left; auto].
Qed.

(** X22. A track stored in the cache is returned for its identifier
    exactly as long as it is not older than the time to live; [has]
    agrees; a lookup in time leaves the cache as it is, and a lookup
    after expiry removes the entry. *)
Theorem cache_set_then_get (now now' : Z) (id : string) (tr : Track)
  (c : MetadataCache.t) :
  let c1 := set now id tr c in
  fst (get now' id c1) = (if (now' - now <=? ttl c)%Z then Some tr else None)
  /\ fst (has now' id c1) = (now' - now <=? ttl c)%Z
  /\ ((now' - now <= ttl c)%Z -> snd (get now' id c1) = c1)
  /\ ((ttl c < now' - now)%Z ->
      StrMap.get id (cache (snd (get now' id c1))) = None).
Proof.
  intros c1. subst c1. destruct (set_shape now id tr c) as (m & E & _). rewrite E.
  unfold has, get, expired. cbn [cache ttl].
  rewrite strmap_get_set_same. cbn [timestamp cached].
  destruct (Z.ltb_spec (ttl c) (now' - now)), (Z.leb_spec (now' - now) (ttl c));
    try lia; repeat split; try reflexivity; try lia; intros _.
  cbn [cache set_cache]. apply strmap_get_delete_same.
Qed.

Lemma strmap_size_set (A : Type) (k : string) (v : A) (m : StrMap.t A) :
  StrMap.size (StrMap.set k v m)
  = if StrMap.has k m then StrMap.size m else S (StrMap.size m).
Proof.
  unfold StrMap.size, StrMap.has. induction m as [|e m IH]; simpl; [reflexivity|].
  destruct (String.eqb (fst e) k); simpl; [reflexivity|].
  rewrite IH. destruct (existsb _ m); reflexivity.
Qed.

Lemma strmap_size_delete (A : Type) (k : string) (m : StrMap.t A) :
  (StrMap.size (StrMap.delete k m) <= StrMap.size m)%nat
  /\ (In k (StrMap.keys m) -> (StrMap.size (StrMap.delete k m) < StrMap.size m)%nat).
Proof.
  unfold StrMap.size, StrMap.delete, StrMap.keys. induction m as [|e m IH]; simpl.
  - split; [lia|intros []].
  - destruct IH as [IH1 IH2]. destruct (String.eqb_spec (fst e) k) as [E|E]; simpl.
    + split; [lia|intros _; lia].
    + split; [lia|]. intros [H|H]; [congruence|]. specialize (IH2 H). lia.
Qed.

Lemma delete_well_keyed (k : string) (c : MetadataCache.t) :
  well_keyed c -> well_keyed (set_cache c (StrMap.delete k (cache c))).
Proof.
  intros [Hn Ht]. split; cbn [cache set_cache].
  - apply strmap_NoDup_delete. exact Hn.
  - intros x Hx. rewrite strmap_keys_delete in Hx. apply filter_In in Hx.
    apply Ht. tauto.
Qed.

Lemma delete_within (k : string) (c : MetadataCache.t) :
  within c -> within (set_cache c (StrMap.delete k (cache c))).
Proof.
  intros [Hw Hs]. split; [apply delete_well_keyed; exact Hw|].
  unfold size in *. cbn [cache set_cache maxSize].
  pose proof (proj1 (strmap_size_delete _ k (cache c))). lia.
Qed.

Lemma get_within (now : Z) (id : string) (c : MetadataCache.t) :
  within c -> within (snd (get now id c)).
Proof.
  intros H. unfold get. destruct (StrMap.get id (cache c)) as [e|]; [|exact H].
  destruct (expired now c e); [|exact H]. apply delete_within. exact H.
Qed.

Lemma cleanup_fold_within (now : Z) (es : list (string * CacheEntry))
  (c : MetadataCache.t) :
  within c ->
  within (fold_left
            (fun c e =>
               if expired now c (snd e)
               then set_cache c (StrMap.delete (fst e) (cache c))
               else c) es c).
Proof.
  revert c. induction es as [|e es IH]; intros c H; simpl; [exact H|].
  apply IH. destruct (expired now c (snd e)); [|exact H]. apply delete_within. exact H.
Qed.

Lemma firstKey_in (A : Type) (m : StrMap.t A) (k : string) :
  StrMap.firstKey m = Some k -> In k (StrMap.keys m).
Proof.
  destruct m as [|e m]; simpl; [discriminate|]. intros H. inversion H. left. reflexivity.
Qed.

Lemma set_within (now : Z) (id : string) (tr : Track) (c : MetadataCache.t) :
  (1 <= maxSize c)%Z -> truthy id = true -> within c -> within (set now id tr c).
Proof.
  intros Hmax Hid [[Hn Ht] Hs].
  destruct (set_shape now id tr c) as (m & E & Hm). rewrite E.
  unfold within, well_keyed, size in *. cbn [cache maxSize].
  assert (Hm' : NoDup (StrMap.keys m)
                /\ (forall k, In k (StrMap.keys m) -> truthy k = true)
                /\ (Z.of_nat (StrMap.size m) < maxSize c)%Z).
  { destruct Hm as [[Hroom ->] | [(k & Ek & Etk & Hfull & ->) | (Hfull & Hk & ->)]].
    - auto.
    - split; [apply strmap_NoDup_delete; exact Hn|]. split.
      + intros x Hx. rewrite strmap_keys_delete in Hx. apply filter_In in Hx.
        apply Ht. tauto.
      + pose proof (proj2 (strmap_size_delete _ k (cache c)) (firstKey_in _ _ _ Ek)). lia.
    - exfalso. destruct Hk as [Hk | (k & Hk & Hf)].
      + destruct (cache c); [simpl in *; lia|discriminate].
      + rewrite (Ht k (firstKey_in _ _ _ Hk)) in Hf. discriminate. }
  destruct Hm' as (Hn' & Ht' & Hs'). repeat split.
  - apply strmap_NoDup_set. exact Hn'.
  - intros k Hk. rewrite strmap_keys_set in Hk.
    destruct (StrMap.has id m); [apply Ht'; exact Hk|].
    apply in_app_or in Hk. destruct Hk as [Hk | [<- | []]]; [apply Ht'; exact Hk|exact Hid].
  - rewrite strmap_size_set. destruct (StrMap.has id m); lia.
Qed.

Lemma apply_within (c : MetadataCache.t) (op : Op) :
  (1 <= maxSize c)%Z -> stores_truthy op -> within c ->
  within (apply c op) /\ maxSize (apply c op) = maxSize c.
Proof.
  intros Hmax Hop H. destruct op as [now id|now id tr|now id|now|]; cbn [apply];
    cbn [stores_truthy] in Hop.
  - split; [apply get_within; exact H|].
    unfold get. destruct (StrMap.get id (cache c)) as [e|]; [|reflexivity].
    destruct (expired now c e); reflexivity.
  - split; [apply set_within; assumption|].
    destruct (set_shape now id tr c) as (m & E & _). rewrite E. reflexivity.
  - unfold has. pose proof (get_within now id c H) as G.
    assert (M : maxSize (snd (get now id c)) = maxSize c).
    { unfold get. destruct (StrMap.get id (cache c)) as [e|]; [|reflexivity].
      destruct (expired now c e); reflexivity. }
    destruct (get now id c) as [[t|] c']; simpl in *; auto.
  - split; [apply cleanup_fold_within; exact H|].
    unfold cleanup. generalize (cache c) at 1. intros es. revert c Hmax H.
    induction es as [|e es IH]; intros c Hmax H; simpl; [reflexivity|].
    destruct (expired now c (snd e)).
    + rewrite IH; [reflexivity|exact Hmax|apply delete_within; exact H].
    + apply IH; assumption.
  - split; [|reflexivity]. unfold within, well_keyed, clear, size. cbn.
    repeat split; [constructor|intros k []|lia].
Qed.

(** X23. With a bound of at least 1 and no track stored under the
    empty identifier, the cache never holds more entries than its
    bound, whatever calls it goes through. *)
Theorem cache_size_bounded (maxSize ttl : option Z) (ops : list Op) :
  (1 <= MetadataCache.maxSize (create maxSize ttl))%Z ->
  Forall stores_truthy ops ->
  (Z.of_nat (size (after maxSize ttl ops)) <= MetadataCache.maxSize (create maxSize ttl))%Z.
Proof.
  intros Hmax Hops. unfold after.
  assert (H : within (create maxSize ttl)).
  { unfold within, well_keyed, create, size. cbn. repeat split; [constructor|intros k []|].
    cbn in Hmax. lia. }
  revert H Hmax. generalize (create maxSize ttl). intros c H Hmax.
  assert (G : within (fold_left apply ops c)
              /\ MetadataCache.maxSize (fold_left apply ops c) = MetadataCache.maxSize c).
  { revert c H Hmax. induction Hops as [|op ops Hop Hops IH]; intros c H Hmax; simpl.
    - auto.
    - destruct (apply_within c op Hmax Hop H) as [W M].
      destruct (IH (apply c op) W) as [W' M']; [rewrite M; exact Hmax|].
      split; [exact W'|]. rewrite M'. exact M. }
  destruct G as [[_ G] M]. rewrite M in G. exact G.
Qed.

(** X24. Storing into a full cache drops the entry inserted first
    (when its key is not empty), also when the identifier stored is
    already cached; every other entry stays. *)
Theorem set_on_full_cache (now : Z) (id : string) (tr : Track)
  (c : MetadataCache.t) (oldest : string) :
  (MetadataCache.maxSize c <= Z.of_nat (size c))%Z ->
  StrMap.firstKey (cache c) = Some oldest ->
  truthy oldest = true ->
  oldest <> id ->
  StrMap.get oldest (cache (set now id tr c)) = None
  /\ (forall k, k <> oldest -> k <> id ->
        StrMap.get k (cache (set now id tr c)) = StrMap.get k (cache c)).
Proof.
  intros Hfull Hk Ht Hne. unfold size in Hfull.
  destruct (set_shape now id tr c) as (m & E & Hm). rewrite E. cbn [cache].
  destruct Hm as [[Hroom _] | [(k & Ek & _ & _ & ->) | (_ & Hc & _)]].
  - lia.
  - rewrite Hk in Ek. inversion Ek. subst k. split.
    + rewrite strmap_get_set_other by exact Hne. apply strmap_get_delete_same.
    + intros k Hk1 Hk2. rewrite strmap_get_set_other by exact Hk2.
      apply strmap_get_delete_other. exact Hk1.
  - exfalso. destruct Hc as [Hc | (k & Hc & Hf)]; rewrite Hk in Hc; [discriminate|].
    inversion Hc. subst k. congruence.
Qed.

Lemma filter_twice (B : Type) (f g : B -> bool) (l : list B) :
  filter f (filter g l) = filter (fun x => g x && f x) l.
Proof.
  induction l as [|x l IH]; simpl; [reflexivity|].
  destruct (g x); simpl; [|exact IH]. destruct (f x); [f_equal|]; exact IH.
Qed.

Lemma cleanup_fold (now : Z) (es : list (string * CacheEntry)) (c : MetadataCache.t) :
  fold_left
    (fun c e =>
       if expired now c (snd e)
       then set_cache c (StrMap.delete (fst e) (cache c))
       else c) es c
  = set_cache c
      (filter (fun e' => negb (existsb (fun e => expired now c (snd e)
                                               && String.eqb (fst e') (fst e)) es))
              (cache c)).
Proof.
  revert c. induction es as [|e es IH]; intros c; simpl.
  - destruct c as [m ms tl]. unfold set_cache. cbn. f_equal.
    induction m as [|x m IHm]; simpl; [reflexivity|]. f_equal. exact IHm.
  - rewrite IH. destruct (expired now c (snd e)) eqn:Ee.
    + unfold set_cache. cbn [cache maxSize ttl]. f_equal.
      unfold StrMap.delete. rewrite filter_twice.
      apply filter_ext. intros x.
      change (expired now {| cache := filter (fun e0 => negb (String.eqb (fst e0) (fst e))) (cache c);
                             maxSize := maxSize c; ttl := ttl c |})
        with (expired now c).
      cbn [andb]. rewrite negb_orb, (String.eqb_sym (fst x) (fst e)).
      reflexivity.
    + reflexivity.
Qed.

Lemma cleanup_filter (now : Z) (c : MetadataCache.t) :
  NoDup (StrMap.keys (cache c)) ->
  cleanup now c
  = set_cache c (filter (fun e => negb (expired now c (snd e))) (cache c)).
Proof.
  intros Hn. unfold cleanup. rewrite cleanup_fold. f_equal.
  apply filter_ext_in. intros x Hx. f_equal.
  unfold StrMap.keys in Hn. revert Hn Hx. generalize (cache c) as m.
  induction m as [|e m IH]; intros Hn Hx; [destruct Hx|].
  simpl in *. inversion Hn as [|? ? Hnotin Hn']. subst.
  destruct Hx as [-> | Hx].
  - rewrite String.eqb_refl, andb_true_r.
    destruct (expired now c (snd x)); [reflexivity|]. simpl.
    apply not_true_is_false. intros H. apply existsb_exists in H.
    destruct H as (y & Hy & H). apply andb_prop in H. destruct H as [_ H].
    apply String.eqb_eq in H. apply Hnotin. rewrite H. apply in_map. exact Hy.
  - destruct (String.eqb_spec (fst x) (fst e)) as [E|E].
    + exfalso. apply Hnotin. rewrite <- E. apply in_map. exact Hx.
    + rewrite andb_false_r. simpl. apply IH; assumption.
Qed.

Lemma get_filter (A : Type) (keep : string * A -> bool) (k : string) (m : StrMap.t A) :
  NoDup (StrMap.keys m) ->
  StrMap.get k (filter keep m)
  = match StrMap.get k m with
    | Some v => if keep (k, v) then Some v else None
    | None => None
    end.
Proof.
  unfold StrMap.get, StrMap.keys. induction m as [|e m IH]; intros Hn; simpl; [reflexivity|].
  inversion Hn as [|? ? Hnotin Hn']. subst.
  destruct (String.eqb_spec (fst e) k) as [E|E].
  - destruct e as [k0 v]. simpl in *. subst k0.
    destruct (keep (k, v)) eqn:Ek; simpl.
    + rewrite String.eqb_refl. reflexivity.
    + assert (G : find (fun e => String.eqb (fst e) k) (filter keep m) = None).
      { destruct (find _ (filter keep m)) as [y|] eqn:Ef; [|reflexivity].
        apply find_some in Ef. destruct Ef as [Hy Ey]. apply filter_In in Hy.
        apply String.eqb_eq in Ey. exfalso. apply Hnotin. rewrite <- Ey.
        apply in_map. tauto. }
      rewrite G. reflexivity.
  - destruct (keep e); simpl.
    + destruct (String.eqb_spec (fst e) k); [congruence|]. apply IH. exact Hn'.
    + apply IH. exact Hn'.
Qed.

Lemma NoDup_keys_filter (A : Type) (keep : string * A -> bool) (m : StrMap.t A) :
  NoDup (StrMap.keys m) -> NoDup (StrMap.keys (filter keep m)).
Proof.
  unfold StrMap.keys. induction m as [|e m IH]; intros Hn; simpl; [constructor|].
  inversion Hn as [|? ? Hnotin Hn']. subst.
  destruct (keep e); simpl; [|apply IH; exact Hn'].
  constructor; [|apply IH; exact Hn'].
  intros H. apply Hnotin. apply in_map_iff in H. destruct H as (y & Ey & Hy).
  apply filter_In in Hy. rewrite <- Ey. apply in_map. tauto.
Qed.

Lemma get_after_cleanup (now : Z) (k : string) (c : MetadataCache.t) :
  NoDup (StrMap.keys (cache c)) ->
  get now k (cleanup now c)
  = (fst (get now k c), cleanup now c).
Proof.
  intros Hn. rewrite cleanup_filter by exact Hn.
  unfold get. cbn [cache set_cache].
  rewrite get_filter by exact Hn. cbn [snd].
  change (expired now (set_cache c (filter (fun e => negb (expired now c (snd e))) (cache c))))
    with (expired now c).
  destruct (StrMap.get k (cache c)) as [v|]; [|reflexivity].
  destruct (expired now c v) eqn:Ev; cbn [negb]; [reflexivity|].
  rewrite Ev. reflexivity.
Qed.

(** X25. [cleanup] keeps exactly the entries that have not expired, in
    their order; running it twice at the same time changes nothing
    more; and a lookup at that time finds the same with or without the
    cleanup, and deletes nothing after it. *)
Theorem cleanup_spec (now : Z) (c : MetadataCache.t) :
  NoDup (StrMap.keys (cache c)) ->
  cache (cleanup now c) = filter (fun e => negb (expired now c (snd e))) (cache c)
  /\ cleanup now (cleanup now c) = cleanup now c
  /\ (forall k, fst (get now k (cleanup now c)) = fst (get now k c))
  /\ (forall k, snd (get now k (cleanup now c)) = cleanup now c).
Proof.
  intros Hn. split; [|split; [|split]].
  - rewrite cleanup_filter by exact Hn. reflexivity.
  - rewrite (cleanup_filter now c) by exact Hn.
    rewrite cleanup_filter
      by (cbn [cache set_cache]; apply NoDup_keys_filter; exact Hn).
    unfold set_cache. cbn [cache maxSize ttl]. f_equal.
    change (expired now {| cache := filter (fun e => negb (expired now c (snd e))) (cache c);
                           maxSize := maxSize c; ttl := ttl c |})
      with (expired now c).
    rewrite filter_twice. apply filter_ext. intros x. apply andb_diag.
  - intros k. rewrite get_after_cleanup by exact Hn. reflexivity.
  - intros k. rewrite get_after_cleanup by exact Hn. reflexivity.
Qed.

(** X23, an instance: three tracks stored in a cache of bound 2. *)
Lemma cache_size_bounded_witness :
  (Z.of_nat (size (after (Some 2%Z) None MoreSamples.three_stored)) <= 2)%Z.
Proof.
  apply (cache_size_bounded (Some 2%Z) None MoreSamples.three_stored).
  - simpl. lia.
  - repeat constructor.
Defined.

(** X24, an instance: tracks A and B fill a cache of bound 2; storing C
    drops A. *)
Lemma set_on_full_cache_witness :
  StrMap.get "A" (cache (set 2 "C" Samples.trackC MoreSamples.full_cache)) = None.
Proof.
  apply (set_on_full_cache 2 "C" Samples.trackC MoreSamples.full_cache "A").
  - vm_compute. discriminate.
  - reflexivity.
  - reflexivity.
  - discriminate.
Defined.

(** X25, an instance: at time 5000000 the entries of the full cache,
    stored at times 0 and 1, have expired. *)
Lemma cleanup_spec_witness :
  cache (cleanup 5000000 MoreSamples.full_cache) = [].
Proof.
  apply (cleanup_spec 5000000 MoreSamples.full_cache).
  repeat constructor; simpl; intuition discriminate.
Defined.

End CacheFacts.

(** ** Favorites *)

Section FavoritesFacts.

Import JS Lavalink FavoritesManager.

Lemma present_iff (enc : string) (l : list FavoriteTrack) :
  existsb (is_track enc) l = true <-> In enc (encodings l).
Proof.
  unfold encodings, is_track. rewrite existsb_exists, in_map_iff. split.
  - intros (f & Hf & E). apply String.eqb_eq in E. exists f. auto.
  - intros (f & E & Hf). exists f. split; [exact Hf|]. apply String.eqb_eq. exact E.
Qed.

Lemma pushed_tidy (limit : Z) (f : FavoriteTrack) (l : list FavoriteTrack) :
  tidy limit l -> existsb (is_track (encoded (favorite f))) l = false ->
  tidy limit (pushed limit f l).
Proof.
  intros [Hn Hl] Hnew. unfold tidy, pushed.
  assert (Hnot : ~ In (encoded (favorite f)) (encodings l)).
  { intros H. apply present_iff in H. congruence. }
  destruct (Z.leb_spec limit (Z.of_nat (List.length l))) as [Hfull|Hroom].
  - destruct l as [|x l]; simpl in *.
    + split; [repeat constructor; intros []|lia].
    + inversion Hn as [|? ? Hx Hn']. subst. split.
      * unfold encodings in *. rewrite map_app. simpl.
        apply NoDup_app; [exact Hn'|repeat constructor; intros []|].
        intros y Hy [<- | []]. apply Hnot. right. exact Hy.
      * rewrite length_app. simpl. lia.
  - split.
    + unfold encodings in *. rewrite map_app. simpl.
      apply NoDup_app; [exact Hn|repeat constructor; intros []|].
      intros y Hy [<- | []]. apply Hnot. exact Hy.
    + rewrite length_app. simpl. lia.
Qed.

Lemma pushed_present (limit : Z) (f : FavoriteTrack) (l : list FavoriteTrack) :
  existsb (is_track (encoded (favorite f))) (pushed limit f l) = true.
Proof.
  unfold pushed. rewrite existsb_app. simpl. unfold is_track at 2.
  rewrite String.eqb_refl. apply orb_true_iff. right. reflexivity.
Qed.

Lemma remove_first_encodings (enc : string) (l : list FavoriteTrack) :
  NoDup (encodings l) ->
  encodings (remove_first (is_track enc) l)
  = filter (fun x => negb (String.eqb x enc)) (encodings l).
Proof.
  unfold encodings, is_track. induction l as [|f l IH]; intros Hn; simpl; [reflexivity|].
  inversion Hn as [|? ? Hx Hn']. subst.
  destruct (String.eqb_spec (encoded (favorite f)) enc) as [E|E]; simpl.
  - symmetry. apply forallb_filter_id. apply forallb_forall. intros y Hy.
    destruct (String.eqb_spec y enc); [|reflexivity].
    exfalso. apply Hx. congruence.
  - f_equal. apply IH. exact Hn'.
Qed.

Lemma remove_first_tidy (limit : Z) (enc : string) (l : list FavoriteTrack) :
  tidy limit l -> tidy limit (remove_first (is_track enc) l).
Proof.
  intros [Hn Hl]. split.
  - rewrite remove_first_encodings by exact Hn. apply NoDup_filter_keeps. exact Hn.
  - assert (H : (List.length (remove_first (is_track enc) l) <= List.length l)%nat).
    { clear. induction l as [|f l IH]; simpl; [lia|].
      destruct (is_track enc f); simpl; lia. }
    lia.
Qed.

Lemma strmap_has_get (A : Type) (k : string) (m : StrMap.t A) :
  StrMap.has k m = false <-> StrMap.get k m = None.
Proof.
  rewrite strmap_get_none, <- strmap_has_keys. destruct (StrMap.has k m); split; congruence.
Qed.

Lemma add_to_spec (limit now : Z) (by_ : option string) (key : string) (track : Track)
  (m : StrMap.t (list FavoriteTrack)) :
  let old := Node.default (StrMap.get key m) [] in
  let r := add_to limit now by_ key track m in
  fst r = negb (existsb (is_track (encoded track)) old)
  /\ StrMap.get key (snd r)
     = Some (if existsb (is_track (encoded track)) old then old
             else pushed limit (mkFavoriteTrack track now by_) old)
  /\ (forall k, k <> key -> StrMap.get k (snd r) = StrMap.get k m).
Proof.
  intros old r. subst old r. unfold add_to.
  set (m0 := if negb (StrMap.has key m) then StrMap.set key [] m else m).
  assert (G : StrMap.get key m0 = Some (Node.default (StrMap.get key m) [])).
  { unfold m0. destruct (StrMap.has key m) eqn:Eh; simpl.
    - destruct (StrMap.get key m) eqn:Eg; [reflexivity|].
      apply strmap_has_get in Eg. congruence.
    - rewrite strmap_get_set_same. apply strmap_has_get in Eh. rewrite Eh. reflexivity. }
  assert (O : forall k, k <> key -> StrMap.get k m0 = StrMap.get k m).
  { intros k Hk. unfold m0. destruct (negb (StrMap.has key m)); [|reflexivity].
    apply strmap_get_set_other. exact Hk. }
  cbv zeta. rewrite G. cbn [Node.default].
  destruct (existsb (is_track (encoded track)) (Node.default (StrMap.get key m) [])); simpl.
  - auto.
  - split; [reflexivity|]. split; [apply strmap_get_set_same|].
    intros k Hk. rewrite strmap_get_set_other by exact Hk. apply O. exact Hk.
Qed.

Lemma remove_from_spec (key enc : string) (m : StrMap.t (list FavoriteTrack)) :
  let old := Node.default (StrMap.get key m) [] in
  let r := remove_from key enc m in
  fst r = existsb (is_track enc) old
  /\ Node.default (StrMap.get key (snd r)) []
     = (if existsb (is_track enc) old then remove_first (is_track enc) old else old)
  /\ (forall k, k <> key -> StrMap.get k (snd r) = StrMap.get k m).
Proof.
  intros old r. subst old r. unfold remove_from.
  destruct (StrMap.get key m) as [l|] eqn:Eg; simpl.
  - destruct (existsb (is_track enc) l); simpl.
    + split; [reflexivity|]. split; [rewrite strmap_get_set_same; reflexivity|].
      intros k Hk. apply strmap_get_set_other. exact Hk.
    + rewrite Eg. auto.
  - rewrite Eg. auto.
Qed.

Lemma add_to_tidy (limit now : Z) (by_ : option string) (key : string) (track : Track)
  (m : StrMap.t (list FavoriteTrack)) :
  all_tidy limit m -> all_tidy limit (snd (add_to limit now by_ key track m)).
Proof.
  intros H k l Hl.
  destruct (add_to_spec limit now by_ key track m) as (_ & G & O).
  assert (Hold : tidy limit (Node.default (StrMap.get key m) [])).
  { destruct (StrMap.get key m) as [l0|] eqn:Eg; simpl.
    - apply (H key). exact Eg.
    - split; [constructor|simpl; lia]. }
  destruct (String.eqb_spec k key) as [->|Hk].
  - rewrite G in Hl. inversion Hl as [E]. clear Hl.
    destruct (existsb (is_track (encoded track)) (Node.default (StrMap.get key m) [])) eqn:Ee.
    + exact Hold.
    + apply pushed_tidy; [exact Hold|exact Ee].
  - rewrite (O k Hk) in Hl. apply (H k). exact Hl.
Qed.

Lemma remove_from_tidy (limit : Z) (key enc : string)
  (m : StrMap.t (list FavoriteTrack)) :
  all_tidy limit m -> all_tidy limit (snd (remove_from key enc m)).
Proof.
  intros H k l Hl. unfold remove_from in Hl.
  destruct (StrMap.get key m) as [l0|] eqn:Eg; [|apply (H k); exact Hl].
  destruct (existsb (is_track enc) l0); [|apply (H k); exact Hl].
  simpl in Hl. destruct (String.eqb_spec k key) as [->|Hk].
  - rewrite strmap_get_set_same in Hl. inversion Hl.
    apply remove_first_tidy. apply (H key). exact Eg.
  - rewrite strmap_get_set_other in Hl by exact Hk. apply (H k). exact Hl.
Qed.

Lemma delete_tidy (limit : Z) (key : string) (m : StrMap.t (list FavoriteTrack)) :
  all_tidy limit m -> all_tidy limit (StrMap.delete key m).
Proof.
  intros H k l Hl. destruct (String.eqb_spec k key) as [->|Hk].
  - rewrite strmap_get_delete_same in Hl. discriminate.
  - rewrite strmap_get_delete_other in Hl by exact Hk. apply (H k). exact Hl.
Qed.

Lemma addUserFavorite_add_to (now : Z) (userId : string) (track : Track)
  (fm : FavoritesManager.t) :
  addUserFavorite now userId track fm
  = (fst (add_to (maxPerUser fm) now None userId track (userFavorites fm)),
     set_userFavorites fm
       (snd (add_to (maxPerUser fm) now None userId track (userFavorites fm)))).
Proof.
  destruct fm as [u g mu mg].
  cbv [addUserFavorite add_to pushed set_userFavorites userFavorites maxPerUser
       guildFavorites maxPerGuild].
  destruct (StrMap.has userId u); cbv [negb];
    match goal with |- context [existsb ?p ?l] => destruct (existsb p l) end; reflexivity.
Qed.

Lemma addGuildFavorite_add_to (now : Z) (guildId : string) (track : Track)
  (by_ : option string) (fm : FavoritesManager.t) :
  addGuildFavorite now guildId track by_ fm
  = (fst (add_to (maxPerGuild fm) now by_ guildId track (guildFavorites fm)),
     set_guildFavorites fm
       (snd (add_to (maxPerGuild fm) now by_ guildId track (guildFavorites fm)))).
Proof.
  destruct fm as [u g mu mg].
  cbv [addGuildFavorite add_to pushed set_guildFavorites userFavorites maxPerUser
       guildFavorites maxPerGuild].
  destruct (StrMap.has guildId g); cbv [negb];
    match goal with |- context [existsb ?p ?l] => destruct (existsb p l) end; reflexivity.
Qed.

Lemma removeUserFavorite_remove_from (userId enc : string) (fm : FavoritesManager.t) :
  removeUserFavorite userId enc fm
  = (fst (remove_from userId enc (userFavorites fm)),
     set_userFavorites fm (snd (remove_from userId enc (userFavorites fm)))).
Proof.
  destruct fm as [u g mu mg].
  cbv [removeUserFavorite remove_from set_userFavorites userFavorites maxPerUser
       guildFavorites maxPerGuild].
  destruct (StrMap.get userId u) as [l|]; [|reflexivity].
  destruct (existsb (is_track enc) l); reflexivity.
Qed.

Lemma removeGuildFavorite_remove_from (guildId enc : string) (fm : FavoritesManager.t) :
  removeGuildFavorite guildId enc fm
  = (fst (remove_from guildId enc (guildFavorites fm)),
     set_guildFavorites fm (snd (remove_from guildId enc (guildFavorites fm)))).
Proof.
  destruct fm as [u g mu mg].
  cbv [removeGuildFavorite remove_from set_guildFavorites userFavorites maxPerUser
       guildFavorites maxPerGuild].
  destruct (StrMap.get guildId g) as [l|]; [|reflexivity].
  destruct (existsb (is_track enc) l); reflexivity.
Qed.

Lemma apply_kept (mu mg : Z) (fm : FavoritesManager.t) (op : Op) :
  kept mu mg fm -> kept mu mg (apply fm op).
Proof.
  intros (Hu & Hg & Tu & Tg). destruct op; cbn [apply].
  - rewrite addUserFavorite_add_to. rewrite Hu.
    refine (conj _ (conj _ (conj _ _))); try assumption.
    apply add_to_tidy. exact Tu.
  - rewrite addGuildFavorite_add_to. rewrite Hg.
    refine (conj _ (conj _ (conj _ _))); try assumption.
    apply add_to_tidy. exact Tg.
  - rewrite removeUserFavorite_remove_from.
    refine (conj _ (conj _ (conj _ _))); try assumption.
    apply remove_from_tidy. exact Tu.
  - rewrite removeGuildFavorite_remove_from.
    refine (conj _ (conj _ (conj _ _))); try assumption.
    apply remove_from_tidy. exact Tg.
  - refine (conj _ (conj _ (conj _ _))); try assumption.
    apply delete_tidy. exact Tu.
  - refine (conj _ (conj _ (conj _ _))); try assumption.
    apply delete_tidy. exact Tg.
Qed.

Lemma after_kept (maxPerUser maxPerGuild : option Z) (ops : list Op) :
  kept (Node.default maxPerUser 100%Z) (Node.default maxPerGuild 500%Z)
       (after maxPerUser maxPerGuild ops).
Proof.
  unfold after.
  assert (H : kept (Node.default maxPerUser 100%Z) (Node.default maxPerGuild 500%Z)
                   (create maxPerUser maxPerGuild)).
  { refine (conj _ (conj _ (conj _ _))); try reflexivity; intros k l Hl; discriminate. }
  revert H. generalize (create maxPerUser maxPerGuild).
  induction ops as [|op ops IH]; intros fm H; simpl; [exact H|].
  apply IH. apply apply_kept. exact H.
Qed.

Lemma default_tidy (limit : Z) (k : string) (m : StrMap.t (list FavoriteTrack)) :
  all_tidy limit m -> tidy limit (Node.default (StrMap.get k m) []).
Proof.
  intros H. destruct (StrMap.get k m) as [l|] eqn:E; simpl.
  - apply (H k). exact E.
  - split; [constructor|simpl; lia].
Qed.

(** X26. Whatever calls a new manager goes through, no user and no
    guild has the same track twice among its favorites, and none has
    more favorites than the limit (or than one, for a limit below
    1). *)
Theorem favorites_tidy (maxPerUser maxPerGuild : option Z) (ops : list Op) (id : string) :
  let fm := after maxPerUser maxPerGuild ops in
  NoDup (encodings (getUserFavorites id fm))
  /\ (Z.of_nat (List.length (getUserFavorites id fm))
      <= Z.max (Node.default maxPerUser 100) 1)%Z
  /\ NoDup (encodings (getGuildFavorites id fm))
  /\ (Z.of_nat (List.length (getGuildFavorites id fm))
      <= Z.max (Node.default maxPerGuild 500) 1)%Z.
Proof.
  intros fm. subst fm.
  destruct (after_kept maxPerUser maxPerGuild ops) as (_ & _ & Tu & Tg).
  destruct (default_tidy _ id _ Tu) as [U1 U2].
  destruct (default_tidy _ id _ Tg) as [G1 G2].
  unfold getUserFavorites, getGuildFavorites. auto.
Qed.

(** X27. [addUserFavorite] returns true exactly when the track was not
    yet a favorite of the user; it is one afterwards in either case. A
    new favorite goes to the end, after the oldest one was dropped if
    the list had reached the limit. The favorites of other users and of
    the guilds are not touched. *)
Theorem addUserFavorite_spec (now : Z) (userId : string) (track : Track)
  (fm : FavoritesManager.t) :
  let old := getUserFavorites userId fm in
  let r := addUserFavorite now userId track fm in
  fst r = negb (existsb (is_track (encoded track)) old)
  /\ getUserFavorites userId (snd r)
     = (if existsb (is_track (encoded track)) old then old
        else (if (maxPerUser fm <=? Z.of_nat (List.length old))%Z then tl old else old)
             ++ [mkFavoriteTrack track now None])
  /\ existsb (is_track (encoded track)) (getUserFavorites userId (snd r)) = true
  /\ (forall other, other <> userId ->
        getUserFavorites other (snd r) = getUserFavorites other fm)
  /\ guildFavorites (snd r) = guildFavorites fm.
Proof.
  intros old r. subst old r. rewrite addUserFavorite_add_to. cbn [fst snd].
  destruct (add_to_spec (maxPerUser fm) now None userId track (userFavorites fm))
    as (F & G & O).
  unfold getUserFavorites. cbn [userFavorites set_userFavorites guildFavorites].
  rewrite G. cbn [Node.default]. split; [exact F|]. split; [reflexivity|].
  split; [|split; [|reflexivity]].
  - destruct (existsb (is_track (encoded track)) (Node.default (StrMap.get userId (userFavorites fm)) []))
      eqn:Ee; [exact Ee|].
    apply (pushed_present (maxPerUser fm) (mkFavoriteTrack track now None)).
  - intros other Ho. rewrite (O other Ho). reflexivity.
Qed.

(** X28. On a manager built by its own calls, [removeUserFavorite]
    returns true exactly when the track was a favorite of the user; it
    is none afterwards, the user's other favorites keep their order,
    and the favorites of other users are not touched. *)
Theorem removeUserFavorite_spec (maxPerUser maxPerGuild : option Z) (ops : list Op)
  (userId enc : string) :
  let fm := after maxPerUser maxPerGuild ops in
  let r := removeUserFavorite userId enc fm in
  fst r = existsb (is_track enc) (getUserFavorites userId fm)
  /\ existsb (is_track enc) (getUserFavorites userId (snd r)) = false
  /\ encodings (getUserFavorites userId (snd r))
     = filter (fun x => negb (String.eqb x enc)) (encodings (getUserFavorites userId fm))
  /\ (forall other, other <> userId ->
        getUserFavorites other (snd r) = getUserFavorites other fm).
Proof.
  intros fm r. subst r.
  destruct (after_kept maxPerUser maxPerGuild ops) as (_ & _ & Tu & _). fold fm in Tu.
  rewrite removeUserFavorite_remove_from. cbn [fst snd].
  destruct (remove_from_spec userId enc (userFavorites fm)) as (F & G & O).
  destruct (default_tidy _ userId _ Tu) as [Hn _].
  unfold getUserFavorites. cbn [userFavorites set_userFavorites].
  assert (E : encodings (Node.default (StrMap.get userId (snd (remove_from userId enc (userFavorites fm)))) [])
              = filter (fun x => negb (String.eqb x enc))
                       (encodings (Node.default (StrMap.get userId (userFavorites fm)) []))).
  { rewrite G.
    destruct (existsb (is_track enc) (Node.default (StrMap.get userId (userFavorites fm)) [])) eqn:Ee.
    - apply remove_first_encodings. exact Hn.
    - symmetry. apply forallb_filter_id. apply forallb_forall. intros y Hy.
      destruct (String.eqb_spec y enc) as [->|]; [|reflexivity].
      apply present_iff in Hy. congruence. }
  split; [exact F|]. split; [|split; [exact E|]].
  - apply not_true_is_false. intros H. apply present_iff in H. rewrite E in H.
    apply filter_In in H. destruct H as [_ H]. rewrite String.eqb_refl in H. discriminate.
  - intros other Ho. rewrite (O other Ho). reflexivity.
Qed.

End FavoritesFacts.

(** ** The manager *)

Section ManagerFacts.

Import JS Node.

Lemma addNode_by_outcome (o : NodeOptions) (outcome : SocketOutcome)
  (nm : NodeManager.t) :
  NodeManager.map_has (name o) (NodeManager.nodes nm) = false ->
  truthy_opt (NodeManager.clientId nm) = true ->
  match outcome with
  | Opens now =>
      exists node,
        NodeManager.addNode o outcome nm
        = (Ok node, NodeManager.set_nodes nm (NodeManager.nodes nm ++ [(name o, node)]))
        /\ isConnected node = true
  | _ => exists e, NodeManager.addNode o outcome nm = (Throw e, nm)
  end.
Proof.
  intros Hnew Hid.
  destruct (addNode_cases o outcome nm) as [[e E] | (node & E & _ & _ & Hc)].
  - destruct outcome as [now| |]; try (exists e; exact E).
    exfalso. unfold NodeManager.addNode in E. rewrite Hnew, Hid in E. simpl in E.
    discriminate.
  - destruct outcome as [now|code reason r|]; [exists node; auto| |].
    + exfalso.
      assert (H : exists u, fst (connect (Closes code reason r) (create o)) = Ok u).
      { unfold NodeManager.addNode in E. rewrite Hnew, Hid in E. cbn [negb] in E. cbv zeta in E.
        destruct (connect (Closes code reason r) (create o)) as [[u|e] n']; [exists u; reflexivity|discriminate]. }
      apply connect_ok_iff in H. destruct H as [_ [now H]]. discriminate.
    + exfalso.
      assert (H : exists u, fst (connect Silent (create o)) = Ok u).
      { unfold NodeManager.addNode in E. rewrite Hnew, Hid in E. cbn [negb] in E. cbv zeta in E.
        destruct (connect Silent (create o)) as [[u|e] n']; [exists u; reflexivity|discriminate]. }
      apply connect_ok_iff in H. destruct H as [_ [now H]]. discriminate.
Qed.

Lemma map_has_names (k : string) (nm : NodeManager.t) :
  NodeManager.map_has k (NodeManager.nodes nm) = false <-> ~ In k (Registry.names nm).
Proof.
  unfold Registry.names.
  change (NodeManager.map_has k (NodeManager.nodes nm))
    with (StrMap.has k (NodeManager.nodes nm)).
  pose proof (strmap_has_keys Node.t k (NodeManager.nodes nm)) as H.
  unfold StrMap.keys in H. destruct (StrMap.has k (NodeManager.nodes nm)).
  - split; [discriminate|]. intros Hn. exfalso. apply Hn. apply H. reflexivity.
  - split; [|reflexivity]. intros _ Hin. apply H in Hin. discriminate.
Qed.

Lemma addNode_initialized (o : NodeOptions) (outcome : SocketOutcome) (m : Manager.t) :
  Manager.initialized m = true ->
  Manager.addNode o outcome m
  = (fst (NodeManager.addNode o outcome (Manager.nodeManager m)),
     Manager.set_nodeManager m
       (snd (NodeManager.addNode o outcome (Manager.nodeManager m)))).
Proof.
  intros H. unfold Manager.addNode. rewrite H. cbn [negb].
  destruct (NodeManager.addNode o outcome (Manager.nodeManager m)). reflexivity.
Qed.

Lemma addNode_taken (o : NodeOptions) (outcome : SocketOutcome) (nm : NodeManager.t) :
  NodeManager.map_has (name o) (NodeManager.nodes nm) = true ->
  exists e, NodeManager.addNode o outcome nm = (Throw e, nm).
Proof.
  intros H. unfold NodeManager.addNode. rewrite H. eexists. reflexivity.
Qed.

Lemma existsb_eqb_In (k : string) (l : list string) :
  existsb (String.eqb k) l = true <-> In k l.
Proof.
  rewrite existsb_exists. split.
  - intros (x & Hx & E). apply String.eqb_eq in E. subst x. exact Hx.
  - intros H. exists k. split; [exact H|apply String.eqb_refl].
Qed.

Lemma set_nodeManager_same (m : Manager.t) :
  Manager.set_nodeManager m (Manager.nodeManager m) = m.
Proof. destruct m; reflexivity. Qed.

(** One addition on a manager that is ready: either the node is
    registered, its name was free and its socket opened; or the call
    throws and the manager is as before, the name being taken or the
    socket not opening. *)
Lemma addNode_step (o : NodeOptions) (outcome : SocketOutcome) (m : Manager.t) :
  Manager.ready m ->
  (exists node m',
      Manager.addNode o outcome m = (Ok node, m')
      /\ Manager.ready m'
      /\ Registry.names (Manager.nodeManager m')
         = Registry.names (Manager.nodeManager m) ++ [name o]
      /\ Manager.players m' = Manager.players m
      /\ Manager.clientId m' = Manager.clientId m
      /\ Manager.options m' = Manager.options m
      /\ Manager.debugEnabled m' = Manager.debugEnabled m
      /\ ~ In (name o) (Registry.names (Manager.nodeManager m))
      /\ exists now, outcome = Opens now)
  \/ (exists e,
        Manager.addNode o outcome m = (Throw e, m)
        /\ (In (name o) (Registry.names (Manager.nodeManager m))
            \/ forall now, outcome <> Opens now)).
Proof.
  intros (Hi & Hc).
  rewrite (addNode_initialized _ _ _ Hi).
  destruct (NodeManager.map_has (name o) (NodeManager.nodes (Manager.nodeManager m)))
    eqn:Hh.
  - right. destruct (addNode_taken o outcome _ Hh) as [e E]. exists e.
    rewrite E. cbn [fst snd]. rewrite set_nodeManager_same. split; [reflexivity|].
    left. destruct (in_dec string_dec (name o) (Registry.names (Manager.nodeManager m)))
      as [Hin|Hn]; [exact Hin|].
    apply map_has_names in Hn. congruence.
  - pose proof (addNode_by_outcome o outcome (Manager.nodeManager m) Hh Hc) as Ha.
    destruct outcome as [now|code reason r|].
    + left. destruct Ha as (node & Ea & Hconn). rewrite Ea. cbn [fst snd].
      exists node. eexists. split; [reflexivity|].
      split; [exact (conj Hi Hc)|].
      split.
      { unfold Registry.names. cbn. rewrite map_app. reflexivity. }
      split; [reflexivity|]. split; [reflexivity|]. split; [reflexivity|].
      split; [reflexivity|]. split; [apply map_has_names; exact Hh|].
      exists now. reflexivity.
    + right. destruct Ha as (e & Ea). exists e. rewrite Ea. cbn [fst snd].
      rewrite set_nodeManager_same. split; [reflexivity|]. right. discriminate.
    + right. destruct Ha as (e & Ea). exists e. rewrite Ea. cbn [fst snd].
      rewrite set_nodeManager_same. split; [reflexivity|]. right. discriminate.
Qed.

Lemma emit_quiet (listeners : Manager.Listeners) (event : Manager.Event) (m : Manager.t) :
  Manager.quiet listeners -> Manager.emit listeners event m = Ok tt.
Proof.
  intros H. unfold Manager.emit.
  destruct event; [destruct (negb (Manager.debugEnabled m))|]; auto.
Qed.

Lemma emit_throws (listeners : Manager.Listeners) (event : Manager.Event)
  (m : Manager.t) (e : string) :
  Manager.emit listeners event m = Throw e -> listeners event = Throw e.
Proof.
  unfold Manager.emit.
  destruct event; [destruct (negb (Manager.debugEnabled m))|]; auto.
  discriminate.
Qed.

Lemma reachable_skip (i : nat) (o : NodeOptions) (rest : list NodeOptions)
  (outcome : nat -> SocketOutcome) (taken : list string) :
  In (name o) taken \/ (forall now, outcome i <> Opens now) ->
  Manager.reachable i (o :: rest) outcome taken
  = Manager.reachable (S i) rest outcome taken.
Proof.
  intros H. simpl.
  destruct (existsb (String.eqb (name o)) taken) eqn:E; [reflexivity|].
  destruct H as [H | H].
  - apply existsb_eqb_In in H. congruence.
  - destruct (outcome i) as [now| |]; [|reflexivity|reflexivity].
    exfalso. apply (H now). reflexivity.
Qed.

Lemma reachable_keep (i : nat) (o : NodeOptions) (rest : list NodeOptions)
  (outcome : nat -> SocketOutcome) (taken : list string) (now : Z) :
  ~ In (name o) taken -> outcome i = Opens now ->
  Manager.reachable i (o :: rest) outcome taken
  = name o :: Manager.reachable (S i) rest outcome (taken ++ [name o]).
Proof.
  intros Hn Ho. simpl. rewrite Ho.
  destruct (existsb (String.eqb (name o)) taken) eqn:E; [|reflexivity].
  apply existsb_eqb_In in E. contradiction.
Qed.

(** The loop of [init] on a manager that is ready. *)
Lemma addNodes_spec (outcome : nat -> SocketOutcome) (listeners : Manager.Listeners)
  (nodes : list NodeOptions) :
  forall (i : nat) (m : Manager.t),
    Manager.ready m ->
    let r := Manager.addNodes i nodes outcome listeners m in
    Manager.ready (snd r)
    /\ Manager.players (snd r) = Manager.players m
    /\ Manager.clientId (snd r) = Manager.clientId m
    /\ Manager.options (snd r) = Manager.options m
    /\ Manager.debugEnabled (snd r) = Manager.debugEnabled m
    /\ (Manager.quiet listeners ->
        fst r = Ok tt
        /\ Registry.names (Manager.nodeManager (snd r))
           = Registry.names (Manager.nodeManager m)
             ++ Manager.reachable i nodes outcome
                  (Registry.names (Manager.nodeManager m)))
    /\ (forall e, fst r = Throw e -> exists event, listeners event = Throw e).
Proof.
  induction nodes as [|o rest IH]; intros i m Hr r; subst r.
  - simpl. rewrite app_nil_r.
    refine (conj Hr (conj eq_refl (conj eq_refl (conj eq_refl (conj eq_refl _))))).
    split; [auto|discriminate].
  - cbn [Manager.addNodes].
    destruct (addNode_step o (outcome i) m Hr)
      as [(node & m1 & Ea & Hr1 & Hn & Hp & Hc & Ho & Hd & Hfree & now & Hopen)
         | (e0 & Ea & Hwhy)];
      rewrite Ea.
    + destruct (IH (S i) m1 Hr1) as (R & P & C & O & D & Q & T).
      refine (conj R (conj _ (conj _ (conj _ (conj _ (conj _ T)))))); try congruence.
      intros Hq. destruct (Q Hq) as [Q1 Q2]. split; [exact Q1|].
      rewrite Q2, Hn, (reachable_keep i o rest outcome _ now Hfree Hopen).
      rewrite <- app_assoc. reflexivity.
    + destruct (Manager.emit listeners (Manager.Debug (Manager.failed_to_connect o e0)) m)
        as [u|e1] eqn:E1.
      * destruct (Manager.emit listeners
                    (Manager.NodeError
                       (Registry.getNode (name o) (Manager.nodeManager m)) e0) m)
          as [u'|e2] eqn:E2.
        -- destruct (IH (S i) m Hr) as (R & P & C & O & D & Q & T).
           refine (conj R (conj P (conj C (conj O (conj D (conj _ T)))))).
           intros Hq. destruct (Q Hq) as [Q1 Q2]. split; [exact Q1|].
           rewrite Q2, (reachable_skip i o rest outcome _ Hwhy). reflexivity.
        -- cbn [fst snd].
           refine (conj Hr (conj eq_refl (conj eq_refl (conj eq_refl (conj eq_refl _))))).
           split.
           ++ intros Hq. rewrite (emit_quiet _ _ _ Hq) in E2. discriminate.
           ++ intros e He. injection He as <-. eexists. exact (emit_throws _ _ _ _ E2).
      * cbn [fst snd].
        refine (conj Hr (conj eq_refl (conj eq_refl (conj eq_refl (conj eq_refl _))))).
        split.
        -- intros Hq. rewrite (emit_quiet _ _ _ Hq) in E1. discriminate.
        -- intros e He. injection He as <-. eexists. exact (emit_throws _ _ _ _ E1).
Qed.

(** X29. [init] on a manager that is not yet initialised, with a
    client id and an empty registry. Whatever the sockets and the
    listeners do, the manager is initialised afterwards. When no
    listener throws, [init] returns normally and the registry holds,
    in the order of the configuration, the configured nodes whose name
    was not taken by an earlier one and whose socket opened. When
    [init] throws, the error is one a listener threw. It does throw
    when the first configured node cannot be connected, debug is off
    and the nodeError listener throws on a missing node and on no
    other: the event of the catch block carries what [getNode] returns
    for the node just dropped, which is undefined; the error is the
    listener's and no node is registered, whatever the sockets of the
    other nodes do. *)
Theorem init_registers_reachable_nodes (given : option string)
  (outcome : nat -> SocketOutcome) (listeners : Manager.Listeners) (m : Manager.t) :
  Manager.initialized m = false ->
  truthy (default given (Manager.opt_clientId (Manager.options m))) = true ->
  NodeManager.nodes (Manager.nodeManager m) = [] ->
  let r := fst (Manager.init given outcome listeners m) in
  let m' := snd (Manager.init given outcome listeners m) in
  Manager.initialized m' = true
  /\ (Manager.quiet listeners ->
      r = Ok tt
      /\ Registry.names (Manager.nodeManager m')
         = Manager.reachable 0 (Manager.opt_nodes (Manager.options m)) outcome [])
  /\ (forall e, r = Throw e -> exists event, listeners event = Throw e)
  /\ (forall o rest e,
        Manager.opt_nodes (Manager.options m) = o :: rest ->
        (forall now, outcome 0%nat <> Opens now) ->
        Manager.debugEnabled m = false ->
        (forall error, listeners (Manager.NodeError None error) = Throw e) ->
        (forall node error, listeners (Manager.NodeError (Some node) error) = Ok tt) ->
        r = Throw e /\ Registry.names (Manager.nodeManager m') = []).
Proof.
  intros Hi Hid Hempty r m'. subst r m'.
  unfold Manager.init. rewrite Hi, Hid. cbn [negb]. cbv zeta.
  set (m0 := Manager.set_initialized _ true).
  assert (Hr0 : Manager.ready m0).
  { refine (conj eq_refl _). cbn. exact Hid. }
  assert (Hn0 : Registry.names (Manager.nodeManager m0) = []).
  { unfold Registry.names. cbn. rewrite Hempty. reflexivity. }
  assert (Ho0 : Manager.opt_nodes (Manager.options m0)
                = Manager.opt_nodes (Manager.options m)) by reflexivity.
  assert (Hd0 : Manager.debugEnabled m0 = Manager.debugEnabled m) by reflexivity.
  rewrite Ho0.
  pose proof (addNodes_spec outcome listeners (Manager.opt_nodes (Manager.options m))
                0 m0 Hr0) as H.
  cbv zeta in H. destruct H as ((R1 & R2) & _ & _ & _ & _ & Q & T).
  split; [|split; [|split]].
  - destruct (Manager.addNodes 0 _ outcome listeners m0) as [[u|e] m1]; exact R1.
  - intros Hq. destruct (Q Hq) as [Q1 Q2]. rewrite Hn0 in Q2. simpl in Q2.
    destruct (Manager.addNodes 0 _ outcome listeners m0) as [[u|e] m1];
      cbn [fst snd] in *; [|discriminate].
    split; [apply emit_quiet; exact Hq|exact Q2].
  - intros e He.
    destruct (Manager.addNodes 0 _ outcome listeners m0) as [[u|e1] m1];
      cbn [fst snd] in *.
    + eexists. exact (emit_throws _ _ _ _ He).
    + apply T. exact He.
  - intros o rest e Hnodes Hclosed Hdebug Hlistener _.
    rewrite Hnodes. cbn [Manager.addNodes].
    destruct (addNode_step o (outcome 0%nat) m0 Hr0)
      as [(node & m1 & _ & _ & _ & _ & _ & _ & _ & _ & now & Hopen)
         | (e0 & Ea & _)].
    + exfalso. exact (Hclosed now Hopen).
    + rewrite Ea.
      assert (E1 : Manager.emit listeners
                     (Manager.Debug (Manager.failed_to_connect o e0)) m0 = Ok tt).
      { unfold Manager.emit. rewrite Hd0, Hdebug. reflexivity. }
      rewrite E1.
      assert (Eg : Registry.getNode (name o) (Manager.nodeManager m0) = None).
      { unfold Registry.getNode. cbn. rewrite Hempty. reflexivity. }
      rewrite Eg. cbn [Manager.emit]. rewrite Hlistener. cbn [fst snd].
      split; [reflexivity|exact Hn0].
Qed.

Lemma getBestNode_connected {U : Unicode} (hint : option string)
  (nm : NodeManager.t) (r : Node.t) :
  NodeManager.getBestNode hint nm = Ok r -> isConnected r = true.
Proof.
  intros H. apply getBestNode_first_minimum in H. apply first_minimum_In in H.
  apply candidates_connected in H. unfold NodeManager.getConnectedNodes in H.
  apply filter_In in H. tauto.
Qed.

(** X30. On an initialised manager [create] keeps one session per
    guild: a session returned is the one registered for the guild, a
    second call returns it again and changes nothing, and the sessions
    of other guilds are not touched. A new session is bound to the node
    [getBestNode] picks without a region hint, which is connected, and
    starts empty. When [create] throws, no node is connected and no
    session was registered. *)
Theorem create_one_session_per_guild {U : Unicode} (guildId : string) (m : Manager.t) :
  Manager.initialized m = true ->
  (forall player m',
      Manager.create guildId m = (Ok player, m') ->
      Manager.get guildId m' = Some player
      /\ Manager.create guildId m' = (Ok player, m')
      /\ (forall other, other <> guildId -> Manager.get other m' = Manager.get other m)
      /\ (Manager.get guildId m = Some player /\ m' = m
          \/ Manager.get guildId m = None
             /\ NodeManager.getBestNode None (Manager.nodeManager m) = Ok (Player.node player)
             /\ isConnected (Player.node player) = true
             /\ player = PlayerControls.create (Player.node player)
                            (Manager.opt_autoPlay (Manager.options m))))
  /\ (forall e m',
        Manager.create guildId m = (Throw e, m') ->
        m' = m /\ Manager.get guildId m = None
        /\ NodeManager.getConnectedNodes (Manager.nodeManager m) = []).
Proof.
  intros Hi. unfold Manager.create, Manager.get. rewrite Hi. cbn [negb]. split.
  - intros player m' H.
    destruct (StrMap.get guildId (Manager.players m)) as [p|] eqn:Eg.
    + inversion H. subst. rewrite Hi, Eg. cbn [negb].
      split; [reflexivity|]. split; [reflexivity|]. split; [reflexivity|].
      left. split; reflexivity.
    + destruct (NodeManager.getBestNode None (Manager.nodeManager m)) as [node|e] eqn:Eb;
        [|discriminate].
      inversion H. subst. clear H. cbn [Manager.players Manager.set_players Manager.initialized].
      rewrite Hi, strmap_get_set_same. cbn [negb].
      split; [reflexivity|]. split; [reflexivity|]. split.
      * intros other Ho. apply strmap_get_set_other. exact Ho.
      * right. split; [reflexivity|]. cbn [Player.node PlayerControls.create].
        split; [reflexivity|]. split; [|reflexivity].
        apply (getBestNode_connected None _ _ Eb).
  - intros e m' H.
    destruct (StrMap.get guildId (Manager.players m)) as [p|] eqn:Eg; [discriminate|].
    destruct (NodeManager.getBestNode None (Manager.nodeManager m)) as [node|e'] eqn:Eb;
      [discriminate|].
    assert (Hm : m' = m) by congruence. subst m'. clear H.
    split; [reflexivity|]. split; [reflexivity|].
    destruct (NodeManager.getConnectedNodes (Manager.nodeManager m)) as [|c cs] eqn:Ec;
      [reflexivity|].
    destruct (getBestNode_returns None (Manager.nodeManager m)) as (r & Hr & _);
      [rewrite Ec; discriminate|]. congruence.
Qed.

(** X29, an instance: two nodes are configured. With no listener, the
    socket of the first opening and that of the second staying silent,
    [init] returns and the first node is registered. With the listener
    of the documentation and no socket opening, [init] throws the
    listener's TypeError. *)
Lemma init_registers_reachable_nodes_witness :
  (fst (Manager.init None MoreSamples.first_opens MoreSamples.no_listeners
          MoreSamples.new_manager) = Ok tt
   /\ Registry.names
        (Manager.nodeManager
           (snd (Manager.init None MoreSamples.first_opens MoreSamples.no_listeners
                   MoreSamples.new_manager)))
      = ["n9"%string])
  /\ fst (Manager.init None MoreSamples.none_opens MoreSamples.documented_listener
            MoreSamples.new_manager)
     = Throw "TypeError: Cannot read properties of undefined"%string.
Proof.
  split.
  - apply (init_registers_reachable_nodes None MoreSamples.first_opens
             MoreSamples.no_listeners MoreSamples.new_manager);
      try reflexivity.
    intros event. reflexivity.
  - pose proof (init_registers_reachable_nodes None MoreSamples.none_opens
                  MoreSamples.documented_listener MoreSamples.new_manager
                  eq_refl eq_refl eq_refl) as H.
    cbv zeta in H. destruct H as (_ & _ & _ & H).
    apply (H Samples.fourth_options [MoreSamples.fifth_options]);
      try reflexivity.
    intros now. discriminate.
Defined.

(** X30, an instance: on the manager above a session is created for a
    guild twice; the second call returns what the first returned. *)
Lemma create_one_session_per_guild_witness :
  Manager.create (U := Samples.ascii_table) "guild"
    (snd (Manager.create (U := Samples.ascii_table) "guild" MoreSamples.manager_up))
  = Manager.create (U := Samples.ascii_table) "guild" MoreSamples.manager_up.
Proof.
  destruct (create_one_session_per_guild (U := Samples.ascii_table)
              "guild" MoreSamples.manager_up eq_refl)
    as [H _].
  destruct (Manager.create (U := Samples.ascii_table) "guild" MoreSamples.manager_up)
    as [[player|e] m'] eqn:E.
  - destruct (H player m' eq_refl) as (_ & H2 & _). exact H2.
  - vm_compute in E. discriminate E.
Defined.

End ManagerFacts.
